(** * Legacy Scrobbler: the iPod database decoder and the play expander

    A shallow embedding of the database parser (the [parse], [getRecentTracks]
    family of functions) and of [expandTracksByPlayCount] from
    [renderer/utils/lastfm.js], with the properties of the decoder proved over
    it.

    Conventions.
    - A file and a Node [Buffer] are lists of bytes.  Offsets, sizes and
      the other JavaScript numbers the code computes are modelled in [Z]
      without rounding, which is what the code computes while they stay
      below 2^53 in absolute value.  Offsets that lie inside a file do;
      where a statement lets the offsets of the Play Counts loop run past
      the end of the file, it bounds them by hypothesis.
    - A JavaScript string is the list of its UTF-16 code units.
    - An exception is a value of type [Error]; [try]/[catch] is [tryCatch].
    - [handler.read] never fails on an open file: it reads what is there. *)

From Stdlib Require Import ZArith List Lia Bool Strings.Byte.
From Stdlib Require Import Sorting.Sorted Sorting.Permutation.
From Stdlib Require Strings.String.
Import ListNotations.

Local Open Scope Z_scope.

(** ** JavaScript values *)

(** The values a numeric property of a track object takes: absent
    ([undefined]), [NaN], or an integer. *)
Inductive jsnum : Type :=
| JUndefined
| JNaN
| JNum (z : Z).

Definition jsstring : Type := list Z.

Module JS.

(** [ToBoolean] on a numeric property. *)
Definition truthy (a : jsnum) : bool :=
  match a with
  | JNum z => negb (z =? 0)
  | _ => false
  end.

(** [a || d]. *)
Definition or (a d : jsnum) : jsnum := if truthy a then a else d.

Definition sub (a b : jsnum) : jsnum :=
  match a, b with
  | JNum x, JNum y => JNum (x - y)
  | _, _ => JNaN
  end.

Definition mul (a b : jsnum) : jsnum :=
  match a, b with
  | JNum x, JNum y => JNum (x * y)
  | _, _ => JNaN
  end.

(** [Math.floor(a / k)] for an integer constant [k > 0]. *)
Definition floorDiv (a : jsnum) (k : Z) : jsnum :=
  match a with
  | JNum x => JNum (x / k)
  | _ => JNaN
  end.

(** [a > 0]; a comparison with [undefined] or [NaN] is false. *)
Definition gt0 (a : jsnum) : bool :=
  match a with
  | JNum x => 0 <? x
  | _ => false
  end.

(** [ToBoolean] on a string property that may be absent. *)
Definition truthyStr (s : option jsstring) : bool :=
  match s with
  | Some (_ :: _) => true
  | _ => false
  end.

(** The number of times the body of [for (let i = 0; i < n; i++)] runs. *)
Definition iterations (n : jsnum) : nat :=
  match n with
  | JNum z => Z.to_nat z
  | _ => O
  end.

End JS.

(** ** Track objects *)

Module Track.

(** The object the parsers build.  The file-backed parser starts from
    [{}], so the strings and the play data may be absent. *)
Record t : Type := mk {
  track : option jsstring;
  artist : option jsstring;
  album : option jsstring;
  playCount : jsnum;
  lastPlayed : jsnum;
  id : Z;
  length : jsnum
}.

Definition setTrack (s : jsstring) (x : t) : t :=
  mk (Some s) (artist x) (album x) (playCount x) (lastPlayed x) (id x) (length x).
Definition setArtist (s : jsstring) (x : t) : t :=
  mk (track x) (Some s) (album x) (playCount x) (lastPlayed x) (id x) (length x).
Definition setAlbum (s : jsstring) (x : t) : t :=
  mk (track x) (artist x) (Some s) (playCount x) (lastPlayed x) (id x) (length x).
(** [x.playCount = pc; x.lastPlayed = lp]. *)
Definition setPlays (pc lp : jsnum) (x : t) : t :=
  mk (track x) (artist x) (album x) pc lp (id x) (length x).

End Track.

(** ** The Node runtime: exceptions, buffers, file reads *)

Inductive Error : Type :=
| RangeError      (* a read past the end of a Buffer *)
| InflateError    (* zlib rejected the stream *)
| FilesystemError (* [open] failed *).

(** The outcome of a computation that may throw. *)
Inductive Exc (A : Type) : Type :=
| Ok (a : A)
| Throw (e : Error).
Arguments Ok {A} a.
Arguments Throw {A} e.

Definition bindExc {A B} (m : Exc A) (k : A -> Exc B) : Exc B :=
  match m with
  | Ok a => k a
  | Throw e => Throw e
  end.

(** [try { m } catch (error) { h error }]. *)
Definition tryCatch {A} (m : Exc A) (h : Error -> Exc A) : Exc A :=
  match m with
  | Ok a => Ok a
  | Throw e => h e
  end.

Notation "x <- m ;; k" := (bindExc m (fun x => k))
  (at level 61, m at next level, right associativity).

Definition byteZ (b : byte) : Z := Z.of_N (Byte.to_N b).

Module Buffer.

Definition t : Type := list byte.

(** [Buffer.alloc(n)]: [n] zero bytes. *)
Definition alloc (n : Z) : t := repeat x00 (Z.to_nat n).

(** [b.length]. *)
Definition len (b : t) : Z := Z.of_nat (List.length b).

(** [b.slice(start, stop)] for offsets that are not negative (every
    offset of the decoder is a sum of unsigned reads): both ends are
    clamped to the buffer, and the slice is empty when [stop <= start]. *)
Definition slice (b : t) (start stop : Z) : t :=
  firstn (Z.to_nat (stop - start)) (skipn (Z.to_nat start) b).

(** [b[i]] as a number; [None] is [undefined], past the end. *)
Definition get (b : t) (i : Z) : option Z :=
  if i <? 0 then None else option_map byteZ (nth_error b (Z.to_nat i)).

(** [b.readUInt32LE(0)]: throws when the buffer has fewer than 4 bytes. *)
Definition readUInt32LE (b : t) : Exc Z :=
  match b with
  | b0 :: b1 :: b2 :: b3 :: _ =>
      Ok (Z.lor (byteZ b0)
            (Z.lor (Z.shiftl (byteZ b1) 8)
               (Z.lor (Z.shiftl (byteZ b2) 16) (Z.shiftl (byteZ b3) 24))))
  | _ => Throw RangeError
  end.

(** [b.toString('ascii', start, stop)]: the high bit of each byte is
    cleared. *)
Definition toStringAscii (b : t) (start stop : Z) : jsstring :=
  map (fun x => Z.land (byteZ x) 127) (slice b start stop).

(** [toString('utf16le')] on a whole byte list: one code unit per pair of
    bytes, a trailing odd byte is dropped. *)
Fixpoint utf16le (bs : list byte) : jsstring :=
  match bs with
  | lo :: hi :: rest => Z.lor (byteZ lo) (Z.shiftl (byteZ hi) 8) :: utf16le rest
  | _ => []
  end.

Definition toStringUtf16le (b : t) (start stop : Z) : jsstring :=
  utf16le (slice b start stop).

(** UTF-8 decoding with U+FFFD for every ill-formed maximal subpart, the
    decoder of the Encoding standard that [toString('utf8')] follows. *)
Record Utf8State : Type := mkUtf8 {
  codePoint : Z;
  bytesNeeded : Z;
  bytesSeen : Z;
  lowerBoundary : Z;
  upperBoundary : Z
}.

Definition utf8Init : Utf8State := mkUtf8 0 0 0 0x80 0xBF.

Definition between (lo x hi : Z) : bool := (lo <=? x) && (x <=? hi).

(** A byte met when no sequence is open. *)
Definition utf8Start (b : Z) : list Z * Utf8State :=
  if b <=? 0x7F then ([b], utf8Init)
  else if between 0xC2 b 0xDF then ([], mkUtf8 (Z.land b 0x1F) 1 0 0x80 0xBF)
  else if between 0xE0 b 0xEF then
    ([], mkUtf8 (Z.land b 0xF) 2 0
           (if b =? 0xE0 then 0xA0 else 0x80) (if b =? 0xED then 0x9F else 0xBF))
  else if between 0xF0 b 0xF4 then
    ([], mkUtf8 (Z.land b 0x7) 3 0
           (if b =? 0xF0 then 0x90 else 0x80) (if b =? 0xF4 then 0x8F else 0xBF))
  else ([0xFFFD], utf8Init).

Definition utf8Step (st : Utf8State) (b : Z) : list Z * Utf8State :=
  if bytesNeeded st =? 0 then utf8Start b
  else if negb (between (lowerBoundary st) b (upperBoundary st)) then
    let (out, st') := utf8Start b in (0xFFFD :: out, st')
  else
    let cp := Z.lor (Z.shiftl (codePoint st) 6) (Z.land b 0x3F) in
    if bytesSeen st + 1 =? bytesNeeded st then ([cp], utf8Init)
    else ([], mkUtf8 cp (bytesNeeded st) (bytesSeen st + 1) 0x80 0xBF).

Fixpoint utf8Run (st : Utf8State) (bs : list byte) : list Z :=
  match bs with
  | [] => if bytesNeeded st =? 0 then [] else [0xFFFD]
  | b :: rest =>
      let (out, st') := utf8Step st (byteZ b) in out ++ utf8Run st' rest
  end.

(** The UTF-16 code units of a code point. *)
Definition codeUnits (cp : Z) : list Z :=
  if cp <? 0x10000 then [cp]
  else
    let c := cp - 0x10000 in
    [0xD800 + Z.shiftr c 10; 0xDC00 + Z.land c 0x3FF].

Definition utf8 (bs : list byte) : jsstring :=
  flat_map codeUnits (utf8Run utf8Init bs).

Definition toStringUtf8 (b : t) (start stop : Z) : jsstring :=
  utf8 (slice b start stop).

End Buffer.

(** [str.replace(/\0/g, '')]. *)
Definition stripNulls (s : jsstring) : jsstring :=
  filter (fun c => negb (c =? 0)) s.

(** The code units of an ASCII literal of the source. *)
Definition lit (bs : list byte) : jsstring := map byteZ bs.

Definition jsstring_eqb (a b : jsstring) : bool :=
  if list_eq_dec Z.eq_dec a b then true else false.

Definition str_mhbd : jsstring := lit [x6d; x68; x62; x64].
Definition str_mhsd : jsstring := lit [x6d; x68; x73; x64].
Definition str_mhlt : jsstring := lit [x6d; x68; x6c; x74].
Definition str_mhit : jsstring := lit [x6d; x68; x69; x74].
Definition str_mhod : jsstring := lit [x6d; x68; x6f; x64].
Definition str_hit : jsstring := lit [x68; x69; x74].

(** [handler.read(buffer, 0, length, position)]: the bytes of the file from
    [position], at most [length] of them, overwrite the start of [buffer];
    the rest of [buffer] keeps what it held.  Returns the buffer and
    [bytesRead]. *)
Definition readBytesAtPosition (file : list byte) (buffer : Buffer.t)
    (position length : Z) : Buffer.t * Z :=
  let chunk := firstn (Z.to_nat length) (skipn (Z.to_nat position) file) in
  (chunk ++ skipn (List.length chunk) buffer, Buffer.len chunk).

(** [Number(littleEndianToBigInt(byteArray))]: the bytes are reversed and
    the reversed array is read as one hexadecimal number. *)
Definition littleEndianToBigInt (byteArray : list byte) : Z :=
  let bigEndianBytes := rev byteArray in
  fold_left (fun acc b => 256 * acc + byteZ b) bigEndianBytes 0.

(** ** The file-backed decoder (uncompressed [iTunesDB]) *)

(** [parsemhod(track, handler, startOffset, headerSize)]: returns the track
    after the assignment, if any, and the total size read from the file. *)
Definition parsemhod (track : Track.t) (file : list byte)
    (startOffset headerSize : Z) : Track.t * Z :=
  let bytesOffset := startOffset + headerSize - 4 in
  let dword := Buffer.alloc 4 in
  let bytesOffset := bytesOffset + 8 in
  let (dword, _) := readBytesAtPosition file dword bytesOffset 4 in
  let totalSizeValue := littleEndianToBigInt dword in
  let bytesOffset := bytesOffset + 4 in
  let (dword, _) := readBytesAtPosition file dword bytesOffset 4 in
  let mhodTypeValue := littleEndianToBigInt dword in
  let bytesOffset := bytesOffset + 4 in
  if (mhodTypeValue =? 1) || (mhodTypeValue =? 3) || (mhodTypeValue =? 4) then
    let bytesOffset := bytesOffset + 12 in
    let (dword, _) := readBytesAtPosition file dword bytesOffset 4 in
    let stringLengthValue := littleEndianToBigInt dword in
    let bytesOffset := bytesOffset + 12 in
    if (0 <? stringLengthValue) && (stringLengthValue <? 10000) then
      let dataArray := Buffer.alloc stringLengthValue in
      let (dataArray, _) :=
        readBytesAtPosition file dataArray bytesOffset stringLengthValue in
      let stringData := Buffer.utf16le dataArray in
      if mhodTypeValue =? 1 then (Track.setTrack stringData track, totalSizeValue)
      else if mhodTypeValue =? 3 then (Track.setAlbum stringData track, totalSizeValue)
      else if mhodTypeValue =? 4 then (Track.setArtist stringData track, totalSizeValue)
      else (track, totalSizeValue)
    else (track, totalSizeValue)
  else (track, totalSizeValue).

(** The loop of [parseMhit] over the metadata objects, [n] more rounds. *)
Fixpoint parseMhitLoop (n : nat) (track : Track.t) (file : list byte)
    (startOffset headerSize : Z) : Track.t :=
  match n with
  | O => track
  | S n' =>
      let (track, totalSize) := parsemhod track file startOffset headerSize in
      parseMhitLoop n' track file (startOffset + totalSize) headerSize
  end.

(** [parseMhit(handler, startOffset)]; [startOffset] is the offset just
    after the 4-byte marker.  The one [dword] buffer serves the four
    reads. *)
Definition parseMhit (file : list byte) (startOffset : Z) : Track.t :=
  let bytesOffset := startOffset in
  let dword := Buffer.alloc 4 in
  let (dword, _) := readBytesAtPosition file dword bytesOffset 4 in
  let headerSize := littleEndianToBigInt dword in
  let bytesOffset := bytesOffset + 4 in
  let bytesOffset := bytesOffset + 4 in
  let (dword, _) := readBytesAtPosition file dword bytesOffset 4 in
  let mhodEntriesCount := littleEndianToBigInt dword in
  let bytesOffset := bytesOffset + 4 in
  let (dword, _) := readBytesAtPosition file dword bytesOffset 4 in
  let id := littleEndianToBigInt dword in
  let bytesOffset := bytesOffset + 4 in
  let bytesOffset := bytesOffset + 20 in
  let (dword, _) := readBytesAtPosition file dword bytesOffset 4 in
  let length := littleEndianToBigInt dword in
  let track := Track.mk None None None JUndefined JUndefined id (JNum length) in
  parseMhitLoop (Z.to_nat mhodEntriesCount) track file startOffset headerSize.

(** The test of [searchMhitInBuffer] at index [i]: an ['m'] byte followed
    by three bytes that decode to ["hit"]. *)
Definition mhitAt (buffer : Buffer.t) (i : Z) : bool :=
  match Buffer.get buffer i with
  | Some 109 => jsstring_eqb (Buffer.toStringUtf8 buffer (i + 1) (i + 4)) str_hit
  | _ => false
  end.

(** The loop of [searchMhitInBuffer], [n] more indices from [i]. *)
Fixpoint searchMhitLoop (n : nat) (i : Z) (buffer : Buffer.t)
    (tracklist : list Track.t) (file : list byte) (offset : Z) : list Track.t :=
  match n with
  | O => tracklist
  | S n' =>
      let tracklist :=
        if mhitAt buffer i then
          let track := parseMhit file (offset + i + 4) in
          if JS.truthyStr (Track.track track) then tracklist ++ [track]
          else tracklist
        else tracklist in
      searchMhitLoop n' (i + 1) buffer tracklist file offset
  end.

Definition searchMhitInBuffer (buffer : Buffer.t) (length : Z)
    (tracklist : list Track.t) (file : list byte) (offset : Z) : list Track.t :=
  searchMhitLoop (Z.to_nat (length - 4)) 0 buffer tracklist file offset.

Definition bufferSize : Z := 1 * 1024 * 1024.

(** The [while (true)] loop of [parseUncompressedItunesDb]; [None] when the
    fuel runs out before the loop breaks. *)
Fixpoint parseUncompressedLoop (fuel : nat) (file : list byte)
    (buffer : Buffer.t) (totalBytesRead : Z) (tracklist : list Track.t)
    : option (list Track.t) :=
  match fuel with
  | O => None
  | S fuel' =>
      let (buffer, bytesRead) :=
        readBytesAtPosition file buffer totalBytesRead bufferSize in
      let tracklist :=
        searchMhitInBuffer buffer bytesRead tracklist file totalBytesRead in
      let totalBytesRead := totalBytesRead + bytesRead in
      if bytesRead <? bufferSize then Some tracklist
      else parseUncompressedLoop fuel' file buffer totalBytesRead tracklist
  end.

(** [parseUncompressedItunesDb(handler)].  Nothing in the body throws on an
    open file, so the [catch] is never entered. *)
Definition parseUncompressedItunesDb (fuel : nat) (file : list byte)
    : option (list Track.t) :=
  parseUncompressedLoop fuel file (Buffer.alloc bufferSize) 0 [].

(** ** The in-memory decoder (the inflated [iTunesCDB] payload) *)

Section Decoder.

(** The value of [new Date().getTimezoneOffset()], in minutes, during the
    decode. *)
Variable getTimezoneOffset : Z.

(** [zlib.inflateRaw]: the inflated bytes, or [None] when zlib rejects the
    stream. *)
Variable inflateRaw : list byte -> option (list byte).

(** [readUInt32LE(buffer.slice(pos, pos + 4))]. *)
Definition readAt (buffer : Buffer.t) (pos : Z) : Exc Z :=
  Buffer.readUInt32LE (Buffer.slice buffer pos (pos + 4)).

(** The body of the [try] of [parseMhodFromBuffer]. *)
Definition parseMhodBody (buffer : Buffer.t) (mhodStart : Z)
    (track : Track.t) : Exc (Track.t * Z) :=
  let marker := Buffer.toStringAscii buffer mhodStart (mhodStart + 4) in
  if negb (jsstring_eqb marker str_mhod) then Ok (track, 4)
  else
    let pos := mhodStart + 4 in
    mhodHeaderSize <- readAt buffer pos ;;
    let pos := pos + 4 in
    mhodTotalSize <- readAt buffer pos ;;
    let pos := pos + 4 in
    mhodType <- readAt buffer pos ;;
    let pos := mhodStart + mhodHeaderSize in
    if Buffer.len buffer <? pos + 16 then Ok (track, mhodTotalSize)
    else
      encodingCode <- readAt buffer pos ;;
      let pos := pos + 4 in
      strLen <- readAt buffer pos ;;
      let pos := pos + 4 in
      let pos := pos + 8 in
      if (0 <? strLen) && (strLen <? 10000) && (pos + strLen <=? Buffer.len buffer)
      then
        let str :=
          if encodingCode =? 1 then Buffer.toStringUtf16le buffer pos (pos + strLen)
          else Buffer.toStringUtf8 buffer pos (pos + strLen) in
        let str := stripNulls str in
        if mhodType =? 1 then Ok (Track.setTrack str track, mhodTotalSize)
        else if mhodType =? 3 then Ok (Track.setAlbum str track, mhodTotalSize)
        else if mhodType =? 4 then Ok (Track.setArtist str track, mhodTotalSize)
        else Ok (track, mhodTotalSize)
      else Ok (track, mhodTotalSize).

(** [parseMhodFromBuffer(buffer, mhodStart, track)]: the track after the
    call and the size returned.  Every assignment to [track] comes after
    the last operation that can throw, so the [catch] sees it unchanged. *)
Definition parseMhodFromBuffer (buffer : Buffer.t) (mhodStart : Z)
    (track : Track.t) : Track.t * Z :=
  match parseMhodBody buffer mhodStart track with
  | Ok r => r
  | Throw _ => (track, 4)
  end.

(** The loop of [parseTrackFromBuffer] over the metadata objects: [n]
    more rounds, each run only while [mhodPos < mhitEnd]. *)
Fixpoint parseMhodLoop (n : nat) (buffer : Buffer.t) (mhodPos mhitEnd : Z)
    (track : Track.t) : Track.t :=
  match n with
  | O => track
  | S n' =>
      if mhodPos <? mhitEnd then
        let (track, mhodSize) := parseMhodFromBuffer buffer mhodPos track in
        parseMhodLoop n' buffer (mhodPos + mhodSize) mhitEnd track
      else track
  end.

(** The body of the [try] of [parseTrackFromBuffer]; [None] is [null]. *)
Definition parseTrackBody (buffer : Buffer.t) (trackStart sequenceIndex : Z)
    : Exc (option Track.t) :=
  let marker := Buffer.toStringAscii buffer trackStart (trackStart + 4) in
  if negb (jsstring_eqb marker str_mhit) then Ok None
  else
    let pos := trackStart + 4 in
    mhitHeaderSize <- readAt buffer pos ;;
    let pos := pos + 4 in
    mhitTotalSize <- readAt buffer pos ;;
    let pos := pos + 4 in
    numMhods <- readAt buffer pos ;;
    let pos := pos + 4 in
    trackId <- readAt buffer pos ;;
    let pos := pos + 4 in
    let pos := pos + 20 in
    trackLength <- readAt buffer pos ;;
    let playCountOffset := trackStart + 0x50 in
    playCount <- readAt buffer playCountOffset ;;
    let lastPlayedOffset := trackStart + 0x58 in
    lastPlayed <- readAt buffer lastPlayedOffset ;;
    let lastPlayed :=
      if 0 <? lastPlayed then
        let lastPlayed := lastPlayed - 2082844800 in
        let tzOffset := getTimezoneOffset * 60 in
        lastPlayed + tzOffset
      else lastPlayed in
    let track :=
      Track.mk (Some []) (Some []) (Some []) (JNum playCount) (JNum lastPlayed)
        sequenceIndex (JNum trackLength) in
    let mhodPos := trackStart + mhitHeaderSize in
    let mhitEnd := trackStart + mhitTotalSize in
    Ok (Some (parseMhodLoop (Z.to_nat numMhods) buffer mhodPos mhitEnd track)).

Definition parseTrackFromBuffer (buffer : Buffer.t) (trackStart sequenceIndex : Z)
    : option Track.t :=
  match parseTrackBody buffer trackStart sequenceIndex with
  | Ok r => r
  | Throw _ => None
  end.

(** [track && track.track]. *)
Definition keepTrack (track : option Track.t) : bool :=
  match track with
  | Some t => JS.truthyStr (Track.track t)
  | None => false
  end.

(** The loop of [parseTrackList]: [n] more rounds from index [i], each run
    only while [pos < buffer.length].  A throw ends the function with the
    tracks collected so far, which is what the [catch] returns. *)
Fixpoint parseTrackListLoop (n : nat) (i : Z) (buffer : Buffer.t) (pos : Z)
    (tracklist : list Track.t) : list Track.t :=
  match n with
  | O => tracklist
  | S n' =>
      if pos <? Buffer.len buffer then
        let track := parseTrackFromBuffer buffer pos i in
        let tracklist :=
          match track with
          | Some t => if keepTrack track then tracklist ++ [t] else tracklist
          | None => tracklist
          end in
        match readAt buffer (pos + 8) with
        | Ok mhitTotalSize =>
            parseTrackListLoop n' (i + 1) buffer (pos + mhitTotalSize) tracklist
        | Throw _ => tracklist
        end
      else tracklist
  end.

Definition parseTrackList (buffer : Buffer.t) (startPos : Z) : list Track.t :=
  let pos := startPos in
  let marker := Buffer.toStringAscii buffer pos (pos + 4) in
  if negb (jsstring_eqb marker str_mhlt) then []
  else
    let pos := pos + 4 in
    match readAt buffer pos with
    | Throw _ => []
    | Ok mhltHeaderSize =>
        let pos := pos + 4 in
        match readAt buffer pos with
        | Throw _ => []
        | Ok numTracks =>
            let pos := startPos + mhltHeaderSize in
            parseTrackListLoop (Z.to_nat numTracks) 0 buffer pos []
        end
    end.

(** The [while] loop of [parseDecompressedDatabase]; [None] when the fuel
    runs out before the loop ends (a dataset of total size 0 that is not
    the track list keeps [pos] where it is). *)
Fixpoint parseDecompressedLoop (fuel : nat) (buffer : Buffer.t) (pos : Z)
    : option (list Track.t) :=
  match fuel with
  | O => None
  | S fuel' =>
      if pos <? Buffer.len buffer - 8 then
        let marker := Buffer.toStringAscii buffer pos (pos + 4) in
        if jsstring_eqb marker str_mhsd then
          match
            (mhsdHeaderSize <- readAt buffer (pos + 4) ;;
             mhsdTotalSize <- readAt buffer (pos + 8) ;;
             datasetType <- readAt buffer (pos + 12) ;;
             Ok (mhsdHeaderSize, mhsdTotalSize, datasetType))
          with
          | Throw _ => Some []
          | Ok (mhsdHeaderSize, mhsdTotalSize, datasetType) =>
              if datasetType =? 1 then
                let mhltPos := pos + mhsdHeaderSize in
                Some (parseTrackList buffer mhltPos)
              else parseDecompressedLoop fuel' buffer (pos + mhsdTotalSize)
          end
        else parseDecompressedLoop fuel' buffer (pos + 1)
      else Some []
  end.

Definition parseDecompressedDatabase (fuel : nat) (buffer : Buffer.t)
    : option (list Track.t) :=
  parseDecompressedLoop fuel buffer 0.

(** ** The compressed container *)

(** The body of the outer [try] of [parseCompressedItunesDb]; [None] when
    the fuel of the dataset scan runs out. *)
Definition parseCompressedBody (fuel : nat) (file : list byte)
    : option (Exc (list Track.t)) :=
  let headerBuffer := Buffer.alloc 4 in
  let (headerBuffer, _) := readBytesAtPosition file headerBuffer 0 4 in
  if negb (jsstring_eqb
             (Buffer.toStringAscii headerBuffer 0 (Buffer.len headerBuffer))
             str_mhbd)
  then Some (Ok [])
  else
    let mhbdHeaderBuffer := Buffer.alloc 4 in
    let (mhbdHeaderBuffer, _) := readBytesAtPosition file mhbdHeaderBuffer 4 4 in
    match Buffer.readUInt32LE mhbdHeaderBuffer with
    | Throw e => Some (Throw e)
    | Ok mhbdHeaderSize =>
        let compressedData := Buffer.alloc (50 * 1024 * 1024) in
        let (compressedData, bytesRead) :=
          readBytesAtPosition file compressedData mhbdHeaderSize (50 * 1024 * 1024) in
        let deflateData := Buffer.slice compressedData 2 bytesRead in
        match
          tryCatch
            (match inflateRaw deflateData with
             | Some d => Ok d
             | None => Throw InflateError
             end)
            (fun error => Throw error)
        with
        | Throw e => Some (Throw e)
        | Ok decompressed =>
            option_map Ok (parseDecompressedDatabase fuel decompressed)
        end
    end.

(** [parseCompressedItunesDb(handler)]: the outer [catch] logs the error
    and falls through to [return tracklist], which is still the empty
    list there. *)
Definition parseCompressedItunesDb (fuel : nat) (file : list byte)
    : option (Exc (list Track.t)) :=
  option_map (fun r => tryCatch r (fun _ => Ok [])) (parseCompressedBody fuel file).

(** ** The Play Counts file *)

(** [tracklist.findIndex(p)]: the first index whose element passes, or
    [-1]. *)
Fixpoint findIndexFrom {A} (p : A -> bool) (l : list A) (k : Z) : Z :=
  match l with
  | [] => -1
  | x :: rest => if p x then k else findIndexFrom p rest (k + 1)
  end.

Definition findIndex {A} (p : A -> bool) (l : list A) : Z := findIndexFrom p l 0.

(** [l[n] = f(l[n])] on an index inside the list. *)
Fixpoint updateAt {A} (n : nat) (f : A -> A) (l : list A) : list A :=
  match l, n with
  | [], _ => []
  | x :: rest, O => f x :: rest
  | x :: rest, S n' => x :: updateAt n' f rest
  end.

(** The [for] loop of [parsePlayCounts]: [n] more entries from index [i].
    The one [dword] buffer serves every read. *)
Fixpoint parsePlayCountsLoop (n : nat) (i : Z) (file : list byte) (entryLen : Z)
    (dword : Buffer.t) (bytesOffset : Z) (tracklist : list Track.t)
    : list Track.t :=
  match n with
  | O => tracklist
  | S n' =>
      let savedBytes := bytesOffset in
      let (dword, _) := readBytesAtPosition file dword bytesOffset 4 in
      let playCount := littleEndianToBigInt dword in
      let bytesOffset := bytesOffset + 4 in
      let (dword, tracklist) :=
        if 0 <? playCount then
          let (dword, _) := readBytesAtPosition file dword bytesOffset 4 in
          let lastPlayed := littleEndianToBigInt dword in
          let lastPlayed := lastPlayed - 2082844800 in
          let offset := getTimezoneOffset * 60 in
          let lastPlayed := lastPlayed + offset in
          let trackIndex := findIndex (fun t => Track.id t =? i) tracklist in
          if negb (trackIndex =? -1) then
            (dword,
             updateAt (Z.to_nat trackIndex)
               (Track.setPlays (JNum playCount) (JNum lastPlayed)) tracklist)
          else (dword, tracklist)
        else (dword, tracklist) in
      let bytesOffset := savedBytes + entryLen in
      parsePlayCountsLoop n' (i + 1) file entryLen dword bytesOffset tracklist
  end.

(** The body of [parsePlayCounts] on an opened file; the function mutates
    the tracks in place, the model returns the list after the call. *)
Definition parsePlayCountsFile (file : list byte) (tracklist : list Track.t)
    : list Track.t :=
  let bytesOffset := 0 in
  let bytesOffset := bytesOffset + 8 in
  let dword := Buffer.alloc 4 in
  let (dword, _) := readBytesAtPosition file dword bytesOffset 4 in
  let entryLen := littleEndianToBigInt dword in
  let bytesOffset := bytesOffset + 4 in
  let (dword, _) := readBytesAtPosition file dword bytesOffset 4 in
  let numEntries := littleEndianToBigInt dword in
  let bytesOffset := bytesOffset + 4 in
  let bytesOffset := bytesOffset + 80 in
  parsePlayCountsLoop (Z.to_nat (numEntries - 1)) 0 file entryLen dword
    bytesOffset tracklist.

(** ** Paths and the top level *)

(** The files of the device as [open] finds them: [None] when [open]
    fails. *)
Variable fs : String.string -> option (list byte).

(** [fs.access(path)]: whether the call resolves.  A path may pass it and
    still fail to open. *)
Variable access : String.string -> bool.

Definition name_iTunesCDB : String.string :=
  String.string_of_list_byte [x69; x54; x75; x6e; x65; x73; x43; x44; x42].
Definition name_iTunesDB : String.string :=
  String.string_of_list_byte [x69; x54; x75; x6e; x65; x73; x44; x42].
Definition name_PlayCounts : String.string :=
  String.string_of_list_byte [x50; x6c; x61; x79; x20; x43; x6f; x75; x6e; x74; x73].

(** [filePath.includes('iTunesCDB')]. *)
Definition isCompressed (filePath : String.string) : bool :=
  match String.index 0 name_iTunesCDB filePath with
  | Some _ => true
  | None => false
  end.

(** [parsePlayCounts(filePath, tracklist)]: a failed [open] is caught and
    leaves the list as it is. *)
Definition parsePlayCounts (filePath : String.string) (tracklist : list Track.t)
    : list Track.t :=
  match fs filePath with
  | None => tracklist
  | Some file => parsePlayCountsFile file tracklist
  end.

(** [parseItunesDb(filePath)]: the [catch] logs and rethrows. *)
Definition parseItunesDb (fuel : nat) (filePath : String.string)
    : option (Exc (list Track.t)) :=
  match fs filePath with
  | None => Some (Throw FilesystemError)
  | Some handler =>
      if isCompressed filePath then parseCompressedItunesDb fuel handler
      else option_map Ok (parseUncompressedItunesDb fuel handler)
  end.

Definition parse (fuel : nat) (iTunesDbPath playCountsPath : String.string)
    : option (Exc (list Track.t)) :=
  match parseItunesDb fuel iTunesDbPath with
  | None => None
  | Some (Throw e) => Some (Throw e)
  | Some (Ok tracklist) =>
      if negb (isCompressed iTunesDbPath)
      then Some (Ok (parsePlayCounts playCountsPath tracklist))
      else Some (Ok tracklist)
  end.

Definition findItunesDbFile (path : String.string) : String.string :=
  if access (String.append path name_iTunesCDB)
  then String.append path name_iTunesCDB
  else String.append path name_iTunesDB.

(** [recentPlays.sort((a, b) => b.lastPlayed - a.lastPlayed)].  The sort
    of the runtime is stable; on a comparator that orders the elements it
    returns what this stable insertion sort returns.  A comparator result
    that is [NaN] counts as 0. *)
Definition compareLastPlayed (a b : Track.t) : jsnum :=
  JS.sub (Track.lastPlayed b) (Track.lastPlayed a).

Fixpoint insertSorted (x : Track.t) (l : list Track.t) : list Track.t :=
  match l with
  | [] => [x]
  | y :: rest =>
      if JS.gt0 (compareLastPlayed x y) then y :: insertSorted x rest
      else x :: y :: rest
  end.

Definition sortByLastPlayed (l : list Track.t) : list Track.t :=
  fold_right insertSorted [] l.

Definition getRecentTracks (fuel : nat) (path : String.string)
    : option (Exc (list Track.t)) :=
  let iTunesDbPath := findItunesDbFile path in
  let playCountsPath := String.append path name_PlayCounts in
  match parse fuel iTunesDbPath playCountsPath with
  | None => None
  | Some (Throw e) => Some (Throw e)
  | Some (Ok tracklist) =>
      let recentPlays :=
        filter (fun entry =>
                  JS.truthy (Track.playCount entry) && JS.gt0 (Track.playCount entry))
               tracklist in
      Some (Ok (sortByLastPlayed recentPlays))
  end.

End Decoder.

(** ** The play expander ([lastfm.js]) *)

(** The inner loop: [n] more iterations from index [i], pushing onto
    [expanded]. *)
Fixpoint expandLoop (tr : Track.t) (trackLength : jsnum) (n : nat) (i : Z)
    (expanded : list Track.t) : list Track.t :=
  match n with
  | O => expanded
  | S n' =>
      let ev := Track.setPlays (JNum 1)
                  (JS.sub (Track.lastPlayed tr) (JS.mul (JNum i) trackLength)) tr in
      expandLoop tr trackLength n' (i + 1) (expanded ++ [ev])
  end.

Definition expandOne (expanded : list Track.t) (tr : Track.t) : list Track.t :=
  let plays := JS.or (Track.playCount tr) (JNum 1) in
  let trackLength := JS.floorDiv (JS.or (Track.length tr) (JNum 180000)) 1000 in
  expandLoop tr trackLength (JS.iterations plays) 0 expanded.

Definition expandTracksByPlayCount (tracklist : list Track.t) : list Track.t :=
  fold_left expandOne tracklist [].

(** The events of one track, as a list comprehension. *)
Definition eventsOf (tr : Track.t) : list Track.t :=
  let trackLength := JS.floorDiv (JS.or (Track.length tr) (JNum 180000)) 1000 in
  map (fun i : nat =>
         Track.setPlays (JNum 1)
           (JS.sub (Track.lastPlayed tr) (JS.mul (JNum (Z.of_nat i)) trackLength)) tr)
      (seq 0 (JS.iterations (JS.or (Track.playCount tr) (JNum 1)))).

(** The length in milliseconds the expander works with. *)
Definition effectiveLength (l : jsnum) : Z :=
  match l with
  | JNum z => if z =? 0 then 180000 else z
  | _ => 180000
  end.

(** The event [i] plays before the last one of a track last played at [t]. *)
Definition eventAt (tr : Track.t) (t : Z) (i : nat) : Track.t :=
  Track.setPlays (JNum 1)
    (JNum (t - Z.of_nat i * (effectiveLength (Track.length tr) / 1000))) tr.

(** A play count is unsigned: absent, [NaN], or not negative. *)
Definition playCountUnsigned (tr : Track.t) : Prop :=
  forall n, Track.playCount tr = JNum n -> 0 <= n.

(** A track that was never played and carries no count. *)
Definition unplayed : Track.t :=
  Track.mk (Some [65]) (Some []) (Some []) (JNum 0) (JNum 0) 4 JUndefined.


(** ** Submitting the plays ([lastfm.js]) *)

Section LastFm.

(** [axios.post(serverUrl + '/scrobble', { tracklist, sessionKey }, { headers,
    timeout })]: whether [response.data.success] is truthy, or a throw. *)
Variable post : list Track.t -> jsstring -> Z -> Exc bool.

(** [preferences.lastFm.sessionKey]. *)
Variable sessionKey : jsstring.

(** [sendScrobbleRequest(tracklist, timeout = 0)]: the [catch] logs the
    error and returns [false]. *)
Definition sendScrobbleRequest (tracklist : list Track.t) (timeout : Z) : bool :=
  match post tracklist sessionKey timeout with
  | Ok success => success
  | Throw _ => false
  end.

(** [scrobbleTracks(tracklist)]: the [status] of the object returned. *)
Definition scrobbleTracks (tracklist : list Track.t) : bool :=
  let expanded := expandTracksByPlayCount tracklist in
  if sendScrobbleRequest expanded 0 then true else false.

End LastFm.

(** ** Vocabulary of the statements *)

(** The little-endian 32-bit value at offset [pos] of a file, as the
    file-backed reads decode it. *)
Definition u32At (file : list byte) (pos : Z) : Z :=
  littleEndianToBigInt (Buffer.slice file pos (pos + 4)).

(** The fields of a Play Counts file: the entry stride at 8, the entry
    count at 12, the entries from 96. *)
Definition pcEntryLen (file : list byte) : Z := u32At file 8.
Definition pcNumEntries (file : list byte) : Z := u32At file 12.
Definition pcPlayCount (file : list byte) (i : Z) : Z :=
  u32At file (96 + i * pcEntryLen file).
Definition pcLastPlayed (file : list byte) (i : Z) : Z :=
  u32At file (96 + i * pcEntryLen file + 4).

(** The file holds its header and the two leading fields of every entry the
    loop visits. *)
Definition pcComplete (file : list byte) : Prop :=
  16 <= Buffer.len file /\
  forall i, 0 <= i < pcNumEntries file - 1 ->
            96 + i * pcEntryLen file + 8 <= Buffer.len file.

(** What the entries [a .. b - 1] do to one track: the entry whose index
    is the track's id, when its play count is not zero, overwrites the
    track's play count and last-played time. *)
Definition correlateRange (getTimezoneOffset : Z) (file : list byte) (a b : Z)
    (t : Track.t) : Track.t :=
  let i := Track.id t in
  if (a <=? i) && (i <? b) && (0 <? pcPlayCount file i) then
    Track.setPlays (JNum (pcPlayCount file i))
      (JNum (pcLastPlayed file i - 2082844800 + getTimezoneOffset * 60)) t
  else t.

(** What the correlation does to one track: the loop visits the entries
    [0 .. numEntries - 2]. *)
Definition correlate (getTimezoneOffset : Z) (file : list byte) (t : Track.t)
    : Track.t :=
  correlateRange getTimezoneOffset file 0 (pcNumEntries file - 1) t.

(** The fields the correlation never writes. *)
Definition sameMeta (t t' : Track.t) : Prop :=
  Track.track t' = Track.track t /\
  Track.artist t' = Track.artist t /\
  Track.album t' = Track.album t /\
  Track.id t' = Track.id t /\
  Track.length t' = Track.length t.

(** The conversion of a last-played time as the specification words it:
    0 stays 0, any other value is moved from the 1904 epoch to the 1970
    epoch and shifted by the local offset in seconds. *)
Definition hfsToUnix (localOffsetSeconds : Z) (hfsSeconds : Z) : Z :=
  if hfsSeconds =? 0 then 0
  else hfsSeconds - 2082844800 + localOffsetSeconds.

(** The index [findIndex] finds, as a natural number. *)
Fixpoint firstIdx {A} (p : A -> bool) (l : list A) : option nat :=
  match l with
  | [] => None
  | x :: rest => if p x then Some O else option_map S (firstIdx p rest)
  end.

(** What one run of the correlation may do to a track while it visits the
    entries [a .. b - 1]: nothing, or store a play count that is not zero
    and a last-played time into a track whose id is one of these indices. *)
Definition correlated (a b : Z) (t t' : Track.t) : Prop :=
  sameMeta t t' /\
  (t' = t \/
   (a <= Track.id t < b /\
    exists pc lp, 0 < pc /\ Track.playCount t' = JNum pc /\
                  Track.lastPlayed t' = JNum lp)).

(** The number of entries the loop of [parsePlayCounts] visits, from the
    count field as the two header reads leave it in [dword]. *)
Definition pcEntriesVisited (file : list byte) : Z :=
  let dword := fst (readBytesAtPosition file (Buffer.alloc 4) 8 4) in
  let dword := fst (readBytesAtPosition file dword 12 4) in
  Z.of_nat (Z.to_nat (littleEndianToBigInt dword - 1)).

(** The numeric fields the metadata objects never write. *)
Definition sameNumbers (t t' : Track.t) : Prop :=
  Track.id t' = Track.id t /\
  Track.length t' = Track.length t /\
  Track.playCount t' = Track.playCount t /\
  Track.lastPlayed t' = Track.lastPlayed t.

(** [readString] as the specification words it: a declared length that is
    0 or less, or 10000 or more, gives the empty string; otherwise the
    first [length] bytes are decoded as UTF-16LE when the encoding code is
    1 and as UTF-8 when it is not, and the null code units are removed. *)
Definition readString (bytes : list byte) (length encodingCode : Z) : jsstring :=
  if (length <=? 0) || (10000 <=? length) then []
  else
    let payload := firstn (Z.to_nat length) bytes in
    stripNulls
      (if encodingCode =? 1 then Buffer.utf16le payload else Buffer.utf8 payload).

(** The assignment an interpreted metadata object makes: type 1 is the
    title, 3 the album, 4 the artist; other types assign nothing. *)
Definition assignString (mhodType : Z) (s : jsstring) (t : Track.t) : Track.t :=
  if mhodType =? 1 then Track.setTrack s t
  else if mhodType =? 3 then Track.setAlbum s t
  else if mhodType =? 4 then Track.setArtist s t
  else t.

(** A string metadata object at offset [m] of a buffer: the marker, the
    header size, total size and type after it, and, where the header ends,
    the encoding code and the declared length of the string. *)
Definition mhodAt (buffer : Buffer.t) (m hs ts ty enc len : Z) : Prop :=
  Buffer.toStringAscii buffer m (m + 4) = str_mhod /\
  readAt buffer (m + 4) = Ok hs /\
  readAt buffer (m + 8) = Ok ts /\
  readAt buffer (m + 12) = Ok ty /\
  m + hs + 16 <= Buffer.len buffer /\
  readAt buffer (m + hs) = Ok enc /\
  readAt buffer (m + hs + 4) = Ok len.

(** The offset of the item that round [k] (from 0) of the loop of
    [parseTrackList] visits, when the loop gets that far. *)
Fixpoint itemOffset (buffer : Buffer.t) (pos : Z) (k : nat) : option Z :=
  if pos <? Buffer.len buffer then
    match k with
    | O => Some pos
    | S k' =>
        match readAt buffer (pos + 8) with
        | Ok mhitTotalSize => itemOffset buffer (pos + mhitTotalSize) k'
        | Throw _ => None
        end
    end
  else None.

(** The bytes [parseCompressedItunesDb] hands to zlib: what follows the
    header, up to 50 MB of it, without its first two bytes. *)
Definition embeddedStream (file : list byte) : list byte :=
  match Buffer.readUInt32LE (fst (readBytesAtPosition file (Buffer.alloc 4) 4 4)) with
  | Ok mhbdHeaderSize =>
      Buffer.slice file (mhbdHeaderSize + 2)
        (mhbdHeaderSize
         + Z.min (50 * 1024 * 1024) (Z.max 0 (Buffer.len file - mhbdHeaderSize)))
  | Throw _ => []
  end.

(** The leading tag as [parseCompressedItunesDb] reads it: the first four
    bytes of the file, zero-filled when the file is shorter. *)
Definition leadingTag (file : list byte) : jsstring :=
  Buffer.toStringAscii (fst (readBytesAtPosition file (Buffer.alloc 4) 0 4)) 0 4.

(** The track list a caller holds after a call: none after a throw. *)
Definition tracksOf (r : Exc (list Track.t)) : list Track.t :=
  match r with
  | Ok l => l
  | Throw _ => []
  end.

(** The filter of [getRecentTracks]. *)
Definition played (entry : Track.t) : bool :=
  JS.truthy (Track.playCount entry) && JS.gt0 (Track.playCount entry).

(** A last-played time that is a number. *)
Definition stamped (t : Track.t) : Prop :=
  exists y, Track.lastPlayed t = JNum y.

(** A track that counts a play also carries the time of it. *)
Definition playsStamped (t : Track.t) : Prop :=
  JS.gt0 (Track.playCount t) = true -> stamped t.

(** [a] was played last no earlier than [b]. *)
Definition newerFirst (a b : Track.t) : Prop :=
  exists x y, Track.lastPlayed a = JNum x /\ Track.lastPlayed b = JNum y /\ y <= x.

(** ** Further vocabulary *)

(** A number that fits 32 unsigned bits. *)
Definition u32num (a : jsnum) : Prop :=
  exists n, a = JNum n /\ 0 <= n < 2 ^ 32.

(** The start of the 1 MB read window that holds offset [p]. *)
Definition windowOf (p : Z) : Z := bufferSize * (p / bufferSize).

(** An offset the marker scan tests: it lies more than four bytes before
    the end of the bytes its window received. *)
Definition scanned (file : list byte) (p : Z) : Prop :=
  0 <= p /\
  p - windowOf p + 4 < Z.min bufferSize (Buffer.len file - windowOf p).

(** A dataset at [pos] that is not the track list and declares a total
    size of 0. *)
Definition stuckAt (buffer : Buffer.t) (pos : Z) : bool :=
  jsstring_eqb (Buffer.toStringAscii buffer pos (pos + 4)) str_mhsd &&
  match readAt buffer (pos + 4), readAt buffer (pos + 8), readAt buffer (pos + 12) with
  | Ok _, Ok mhsdTotalSize, Ok datasetType =>
      negb (datasetType =? 1) && (mhsdTotalSize =? 0)
  | _, _, _ => false
  end.

Definition noStuckDataset (buffer : Buffer.t) : bool :=
  forallb (fun k => negb (stuckAt buffer (Z.of_nat k))) (seq 0 (List.length buffer)).

(** A track with a title that is not empty. *)
Definition titled (t : Track.t) : Prop := JS.truthyStr (Track.track t) = true.


(** The plays a list of tracks counts in all. *)
Definition totalPlays (l : list Track.t) : Z :=
  fold_right (fun t acc =>
                match Track.playCount t with
                | JNum n => n + acc
                | _ => acc
                end) 0 l.

(** The time of an event is a number no later than [t]. *)
Definition notAfter (t : Z) (e : Track.t) : Prop :=
  exists s, Track.lastPlayed e = JNum s /\ s <= t.

(** ** The Play Counts layout, byte by byte *)

(** The byte at an offset of a file, 0 where the file has none. *)
Definition byteAt (file : list byte) (off : Z) : Z :=
  match nth_error file (Z.to_nat off) with
  | Some b => byteZ b
  | None => 0
  end.

(** The unsigned 32-bit value whose four bytes, lowest first, start at
    [off]. *)
Definition le32 (file : list byte) (off : Z) : Z :=
  byteAt file off + 256 * byteAt file (off + 1)
  + 65536 * byteAt file (off + 2) + 16777216 * byteAt file (off + 3).

(** The header fields and the entries: the stride at 8, the entry count at
    12, entry [i] at [96 + i * stride], with its play count first and its
    last-played time four bytes on. *)
Definition entryStride (file : list byte) : Z := le32 file 8.
Definition entryCount (file : list byte) : Z := le32 file 12.
Definition entryOffset (file : list byte) (i : Z) : Z := 96 + i * entryStride file.
Definition entryPlays (file : list byte) (i : Z) : Z := le32 file (entryOffset file i).
Definition entryLastPlayed (file : list byte) (i : Z) : Z :=
  le32 file (entryOffset file i + 4).

(** The file holds its header and the two leading fields of every entry
    but the last one it declares. *)
Definition entriesPresent (file : list byte) : Prop :=
  16 <= Buffer.len file /\
  forall i, 0 <= i < entryCount file - 1 ->
            entryOffset file i + 8 <= Buffer.len file.

(** The track is matched by an entry with a play count that is not zero:
    its id is the position of an entry other than the last declared one,
    and that entry counts a play. *)
Definition entryMatches (file : list byte) (t : Track.t) : bool :=
  (0 <=? Track.id t) && (Track.id t <? entryCount file - 1)
  && negb (entryPlays file (Track.id t) =? 0).

(** ** The event of a track without plays *)

(** The time of that event: the last-played time when it is a number,
    [NaN] when it is absent or [NaN]. *)
Definition fallbackStamp (lastPlayed : jsnum) : jsnum :=
  match lastPlayed with
  | JNum t => JNum t
  | _ => JNaN
  end.

Definition soleEvent (tr : Track.t) : Track.t :=
  Track.mk (Track.track tr) (Track.artist tr) (Track.album tr)
    (JNum 1) (fallbackStamp (Track.lastPlayed tr)) (Track.id tr) (Track.length tr).
(** ** Test data

    Encoders for the records of the two databases and of the Play Counts
    file, used to run the decoders on concrete inputs. *)

Module Sample.

Definition byteOf (n : Z) : byte :=
  match Byte.of_N (Z.to_N (n mod 256)) with
  | Some b => b
  | None => x00
  end.

Definition u32 (n : Z) : list byte :=
  [byteOf n; byteOf (n / 256); byteOf (n / 65536); byteOf (n / 16777216)].

Definition zeros (n : nat) : list byte := repeat x00 n.

Definition tag_mhit : list byte := [x6d; x68; x69; x74].
Definition tag_mhod : list byte := [x6d; x68; x6f; x64].
Definition tag_mhsd : list byte := [x6d; x68; x73; x64].
Definition tag_mhlt : list byte := [x6d; x68; x6c; x74].
Definition tag_mhbd : list byte := [x6d; x68; x62; x64].

(** A string metadata object: 24 bytes of header, the encoding code at
    +24, the payload length at +28, the payload at +40. *)
Definition mhod (type encoding : Z) (payload : list byte) : list byte :=
  tag_mhod ++ u32 24 ++ u32 (40 + Z.of_nat (List.length payload)) ++ u32 type
    ++ zeros 8 ++ u32 encoding ++ u32 (Z.of_nat (List.length payload))
    ++ zeros 8 ++ payload.

(** A track item with a 96-byte header: the object count at +12, the
    identifier at +16, the length at +40, the play count at +80 and the
    last-played time at +88. *)
Definition mhit (count ident len plays played : Z) (mhods : list byte)
    : list byte :=
  tag_mhit ++ u32 96 ++ u32 (96 + Z.of_nat (List.length mhods)) ++ u32 count
    ++ u32 ident ++ zeros 20 ++ u32 len ++ zeros 36 ++ u32 plays ++ zeros 4
    ++ u32 played ++ zeros 4 ++ mhods.

(** A track-list dataset around the given items. *)
Definition dataset (numTracks : Z) (items : list byte) : list byte :=
  tag_mhsd ++ u32 16 ++ u32 (28 + Z.of_nat (List.length items)) ++ u32 1
    ++ tag_mhlt ++ u32 12 ++ u32 numTracks ++ items ++ zeros 16.

(** A Play Counts file with 16-byte entries. *)
Definition playCountsEntry (plays played : Z) : list byte :=
  u32 plays ++ u32 played ++ zeros 8.

Definition playCounts (numEntries : Z) (entries : list byte) : list byte :=
  zeros 8 ++ u32 16 ++ u32 numEntries ++ zeros 80 ++ entries.

(** "A" and "B" in UTF-16LE. *)
Definition utf16_A : list byte := [x41; x00].
Definition utf16_B : list byte := [x42; x00].

(** One track: identifier 7, 180 s long, title "A". *)
Definition item7 : list byte :=
  mhit 1 7 180000 3 2082845800 (mhod 1 1 utf16_A).

(** Identifier 9, never played, title "B". *)
Definition item9 : list byte :=
  mhit 1 9 200000 0 0 (mhod 1 1 utf16_B).

Definition uncompressedDb : list byte := item7 ++ item9 ++ zeros 8.

Definition inflatedDb : list byte := dataset 2 (item7 ++ item9).

Definition trackA : Track.t :=
  Track.mk (Some [65]) None None JUndefined JUndefined 7 (JNum 180000).

Definition trackB : Track.t :=
  Track.mk (Some [66]) None None JUndefined JUndefined 9 (JNum 200000).

(** The two tracks as the in-memory decoder returns them. *)
Definition decodedA : Track.t :=
  Track.mk (Some [65]) (Some []) (Some []) (JNum 3) (JNum 1000) 0 (JNum 180000).
Definition decodedB : Track.t :=
  Track.mk (Some [66]) (Some []) (Some []) (JNum 0) (JNum 0) 1 (JNum 200000).

(** A play of three: 180 s long, last played at 1000. *)
Definition played3 : Track.t :=
  Track.mk (Some [65]) (Some []) (Some []) (JNum 3) (JNum 1000) 0 (JNum 180000).

(** A title stored as the two UTF-8 bytes "AB" under the encoding code
    2, and a UTF-16LE title "A" followed by a null code unit. *)
Definition utf8TitleItem : list byte :=
  mhit 1 7 180000 0 0 (mhod 1 2 [x41; x42]).
Definition utf8TitleDb : list byte := utf8TitleItem ++ zeros 8.

Definition nulTitleItem : list byte :=
  mhit 1 7 180000 0 0 (mhod 1 1 [x41; x00; x00; x00]).
Definition nulTitleDb : list byte := nulTitleItem ++ zeros 8.

(** An inflated payload that opens with a dataset of type 2 and of total
    size 0. *)
Definition stuckDb : list byte :=
  tag_mhsd ++ u32 16 ++ u32 0 ++ u32 2 ++ zeros 16.

(** zlib on the streams of this file: one final stored block (a byte
    [01], the length, its complement, the bytes) inflates to its bytes;
    anything else here is a stream zlib rejects. *)
Definition inflateStored (stream : list byte) : option (list byte) :=
  match stream with
  | x01 :: l0 :: l1 :: n0 :: n1 :: data =>
      let len := byteZ l0 + 256 * byteZ l1 in
      let nlen := byteZ n0 + 256 * byteZ n1 in
      if (nlen =? 65535 - len) && (len =? Z.of_nat (List.length data))
      then Some data else None
  | _ => None
  end.

Definition storedBlock (data : list byte) : list byte :=
  let len := Z.of_nat (List.length data) in
  [x01; byteOf len; byteOf (len / 256);
   byteOf (65535 - len); byteOf ((65535 - len) / 256)] ++ data.

(** A compressed database: a 16-byte header, the two bytes of the zlib
    wrapper, the stream. *)
Definition container (stream : list byte) : list byte :=
  tag_mhbd ++ u32 16 ++ zeros 8 ++ [x78; x9c] ++ stream.

Definition compressedDb : list byte := container (storedBlock inflatedDb).

(** The same file with a tag that is not [mhbd]. *)
Definition badTagDb : list byte :=
  tag_mhsd ++ u32 16 ++ zeros 8 ++ [x78; x9c] ++ storedBlock inflatedDb.

(** A stream that opens with the reserved block type 3. *)
Definition badStreamDb : list byte := container [x07; x00; x00].

End Sample.

Module SamplePlays.

Import Sample.

(** Five declared entries, so four are visited: plays at the indices 0, 2
    and 3, none at 1. *)
Definition file : list byte :=
  playCounts 5
    (playCountsEntry 2 2082845800 ++ playCountsEntry 0 0
       ++ playCountsEntry 5 2082846800 ++ playCountsEntry 1 2082847800).

Definition bare (ident : Z) : Track.t :=
  Track.mk (Some [65]) None None JUndefined JUndefined ident (JNum 180000).

(** Tracks with the sequence ids 0, 1 and 2; none has the id 3. *)
Definition tracks : list Track.t := [bare 0; bare 1; bare 2].

(** One visited entry: a play count of 1 with a last-played field of 0. *)
Definition zeroStamp : list byte := playCounts 2 (playCountsEntry 1 0).

End SamplePlays.

Module SampleDevice.

Import Sample.

(** Three tracks titled "A" with the identifiers 0, 1 and 2. *)
Definition db : list byte :=
  mhit 1 0 180000 0 0 (mhod 1 1 utf16_A)
    ++ mhit 1 1 180000 0 0 (mhod 1 1 utf16_A)
    ++ mhit 1 2 180000 0 0 (mhod 1 1 utf16_A) ++ zeros 8.

Definition mount : String.string :=
  String.string_of_list_byte [x69; x50; x6f; x64; x2f].

(** A device that holds an uncompressed database and its Play Counts. *)
Definition fs (path : String.string) : option (list byte) :=
  if String.eqb path (String.append mount name_iTunesDB) then Some db
  else if String.eqb path (String.append mount name_PlayCounts)
       then Some SamplePlays.file
       else None.

(** A device that holds one file. *)
Definition only (name : String.string) (file : list byte)
    (path : String.string) : option (list byte) :=
  if String.eqb path name then Some file else None.

Definition cdbPath : String.string := String.append mount name_iTunesCDB.

(** [access] on a device where every file that exists can be opened. *)
Definition present (files : String.string -> option (list byte))
    (path : String.string) : bool :=
  match files path with
  | Some _ => true
  | None => false
  end.

(** The history of that device: the track of id 2, played last at 2000,
    then the track of id 0, played last at 1000. *)
Definition history : list Track.t :=
  [Track.setPlays (JNum 5) (JNum 2000) (SamplePlays.bare 2);
   Track.setPlays (JNum 2) (JNum 1000) (SamplePlays.bare 0)].

End SampleDevice.

Module SampleMore.

Import Sample.

(** Three plays of a track half a second long. *)
Definition brief : Track.t :=
  Track.mk (Some [65]) (Some []) (Some []) (JNum 3) (JNum 1000) 0 (JNum 500).

(** A Play Counts file of 56 bytes: a stride of 16, an entry count of 3,
    and no entry at all. *)
Definition cutPlays : list byte := zeros 8 ++ u32 16 ++ u32 3 ++ zeros 40.

(** Tracks with the ids 0 and 4, for a file of five declared entries. *)
Definition tracksPastEnd : list Track.t := [SamplePlays.bare 0; SamplePlays.bare 4].

(** A file that ends right after the header size of an item. *)
Definition cutItem : list byte := tag_mhit ++ u32 96.

(** The first 50 bytes of an item. *)
Definition shortItem : list byte := firstn 50 item7.

(** The three tracks of the sample device after the correlation. *)
Definition correlated3 : list Track.t :=
  [Track.setPlays (JNum 2) (JNum 1000) (SamplePlays.bare 0);
   SamplePlays.bare 1;
   Track.setPlays (JNum 5) (JNum 2000) (SamplePlays.bare 2)].

Definition dbPath : String.string := String.append SampleDevice.mount name_iTunesDB.

(** [access] on a device where every path exists, whether or not it can
    be opened. *)
Definition allPresent (path : String.string) : bool := true.

(** A folder whose own name holds the text [iTunesCDB]. *)
Definition oddMount : String.string :=
  String.append name_iTunesCDB
    (String.string_of_list_byte [x2d; x6f; x6c; x64; x2f]).

(** A track whose play count is below 0. *)
Definition negative : Track.t :=
  Track.mk (Some [65]) (Some []) (Some []) (JNum (-2)) (JNum 1000) 0 (JNum 180000).

(** A server that accepts every batch. *)
Definition postOk (tracklist : list Track.t) (sessionKey : jsstring) (timeout : Z)
    : Exc bool := Ok true.

End SampleMore.

Lemma expandLoop_spec tr tl n : forall i expanded,
  0 <= i ->
  expandLoop tr tl n i expanded =
  expanded ++ map (fun k : nat =>
                     Track.setPlays (JNum 1)
                       (JS.sub (Track.lastPlayed tr) (JS.mul (JNum (Z.of_nat k)) tl)) tr)
                  (seq (Z.to_nat i) n).
Proof.
  induction n as [|n IH]; intros i expanded Hi; simpl.
  - now rewrite app_nil_r.
  - rewrite IH by lia. rewrite <- app_assoc. simpl.
    rewrite Z2Nat.id by lia.
    replace (Z.to_nat (i + 1)) with (S (Z.to_nat i)) by lia.
    reflexivity.
Qed.

Lemma expandOne_spec expanded tr :
  expandOne expanded tr = expanded ++ eventsOf tr.
Proof.
  unfold expandOne, eventsOf. now rewrite expandLoop_spec.
Qed.

Lemma expand_fold tracklist : forall acc,
  fold_left expandOne tracklist acc = acc ++ flat_map eventsOf tracklist.
Proof.
  induction tracklist as [|tr l IH]; intros acc; simpl.
  - now rewrite app_nil_r.
  - rewrite IH, expandOne_spec. now rewrite app_assoc.
Qed.

Lemma expand_flat_map tracklist :
  expandTracksByPlayCount tracklist = flat_map eventsOf tracklist.
Proof.
  unfold expandTracksByPlayCount. now rewrite expand_fold.
Qed.

Lemma effectiveLength_or l :
  JS.or l (JNum 180000) = JNum (effectiveLength l).
Proof.
  destruct l as [| |z]; try reflexivity.
  unfold JS.or, effectiveLength; simpl. now destruct (z =? 0).
Qed.

Lemma expand_app l1 l2 :
  expandTracksByPlayCount (l1 ++ l2) =
  expandTracksByPlayCount l1 ++ expandTracksByPlayCount l2.
Proof. rewrite !expand_flat_map. apply flat_map_app. Qed.

Lemma expand_cons tr l :
  expandTracksByPlayCount (tr :: l) = eventsOf tr ++ expandTracksByPlayCount l.
Proof. now rewrite !expand_flat_map. Qed.

Lemma expand_middle before tr after :
  expandTracksByPlayCount (before ++ tr :: after) =
  expandTracksByPlayCount before ++ eventsOf tr ++ expandTracksByPlayCount after.
Proof. now rewrite expand_app, expand_cons. Qed.

Lemma eventsOf_played tr n t :
  Track.playCount tr = JNum n -> 0 < n -> Track.lastPlayed tr = JNum t ->
  eventsOf tr = map (eventAt tr t) (seq 0 (Z.to_nat n)).
Proof.
  intros Hn Hpos Ht. unfold eventsOf, eventAt.
  rewrite Hn, Ht, effectiveLength_or.
  unfold JS.or. simpl JS.truthy.
  destruct (Z.eqb_spec n 0) as [->|_]; [lia|]. simpl.
  reflexivity.
Qed.

(** C4.  A track played [n > 0] times, last at [t], of length [L]
    milliseconds (180000 when the length is absent or 0) expands, in place,
    into exactly [n] events, the event [i] (from 0) stamped
    [t - i * floor(L / 1000)]; three plays of 180 s last played at 1000 give
    the stamps 1000, 820, 640. *)
Theorem expander_spaces_plays :
  (forall before tr after n t,
      Track.playCount tr = JNum n -> 0 < n -> Track.lastPlayed tr = JNum t ->
      expandTracksByPlayCount (before ++ tr :: after) =
      expandTracksByPlayCount before
        ++ map (eventAt tr t) (seq 0 (Z.to_nat n))
        ++ expandTracksByPlayCount after) /\
  map Track.lastPlayed (expandTracksByPlayCount [Sample.played3]) =
  [JNum 1000; JNum 820; JNum 640].
Proof.
  split.
  - intros before tr after n t Hn Hpos Ht.
    rewrite expand_middle. now rewrite (eventsOf_played tr n t).
  - reflexivity.
Qed.

Lemma expander_spaces_plays_witness :
  expandTracksByPlayCount ([] ++ Sample.played3 :: []) =
  expandTracksByPlayCount []
    ++ map (eventAt Sample.played3 1000) (seq 0 (Z.to_nat 3))
    ++ expandTracksByPlayCount [].
Proof.
  apply (proj1 expander_spaces_plays [] Sample.played3 [] 3 1000).
  - reflexivity.
  - lia.
  - reflexivity.
Defined.

Lemma eventsOf_sole tr :
  JS.truthy (Track.playCount tr) = false -> eventsOf tr = [soleEvent tr].
Proof.
  intros Hf. unfold eventsOf, soleEvent, fallbackStamp.
  rewrite effectiveLength_or.
  unfold JS.or at 1. rewrite Hf. simpl.
  destruct (Track.lastPlayed tr) as [| |t]; try reflexivity.
  simpl. unfold Track.setPlays. do 3 f_equal. lia.
Qed.

Lemma eventsOf_negative tr n :
  Track.playCount tr = JNum n -> n < 0 -> eventsOf tr = [].
Proof.
  intros Hn Hneg. unfold eventsOf, JS.or. rewrite Hn.
  cbn [JS.truthy]. destruct (Z.eqb_spec n 0); [lia|]. cbn [negb JS.iterations].
  replace (Z.to_nat n) with O by lia. reflexivity.
Qed.

Lemma eventsOf_nonempty tr :
  playCountUnsigned tr -> (1 <= List.length (eventsOf tr))%nat.
Proof.
  intros Hu. unfold eventsOf. rewrite length_map, length_seq.
  unfold JS.or. destruct (Track.playCount tr) as [| |n] eqn:E; simpl; try lia.
  destruct (Z.eqb_spec n 0); simpl; [lia|].
  specialize (Hu n E). lia.
Qed.

Lemma expand_length tracklist :
  Forall playCountUnsigned tracklist ->
  (List.length tracklist <= List.length (expandTracksByPlayCount tracklist))%nat.
Proof.
  induction 1 as [|tr l Htr _ IH].
  - simpl. lia.
  - rewrite expand_cons, length_app. simpl.
    pose proof (eventsOf_nonempty tr Htr). lia.
Qed.

(** C9, as the code has it.  A track whose play count is 0, absent or
    [NaN] expands, in place, into exactly one event: a copy of the track
    with a play count of 1, stamped with the track's last-played time as it
    is when that time is a number, and with [NaN] when it is absent.  A
    track whose play count is below 0 expands into no event.  So every
    track whose play count is not below 0 yields at least one event, and on
    a list of such tracks the output is at least as long as the input. *)
Theorem expander_falsy_count_one_event :
  (forall before tr after,
      JS.truthy (Track.playCount tr) = false ->
      expandTracksByPlayCount (before ++ tr :: after) =
      expandTracksByPlayCount before
        ++ [Track.mk (Track.track tr) (Track.artist tr) (Track.album tr)
              (JNum 1)
              (match Track.lastPlayed tr with
               | JNum t => JNum t
               | _ => JNaN
               end)
              (Track.id tr) (Track.length tr)]
        ++ expandTracksByPlayCount after) /\
  (forall before tr after n,
      Track.playCount tr = JNum n -> n < 0 ->
      expandTracksByPlayCount (before ++ tr :: after) =
      expandTracksByPlayCount before ++ expandTracksByPlayCount after) /\
  (forall before tr after,
      playCountUnsigned tr ->
      exists events,
        events <> [] /\
        expandTracksByPlayCount (before ++ tr :: after) =
        expandTracksByPlayCount before ++ events ++ expandTracksByPlayCount after) /\
  (forall tracklist,
      Forall playCountUnsigned tracklist ->
      (List.length tracklist <= List.length (expandTracksByPlayCount tracklist))%nat).
Proof.
  split; [|split; [|split]].
  - intros before tr after Hf.
    rewrite expand_middle, (eventsOf_sole tr Hf). reflexivity.
  - intros before tr after n Hn Hneg.
    rewrite expand_middle. now rewrite (eventsOf_negative tr n).
  - intros before tr after Hu. exists (eventsOf tr). split.
    + pose proof (eventsOf_nonempty tr Hu) as H.
      destruct (eventsOf tr); simpl in H; [lia|discriminate].
    + apply expand_middle.
  - apply expand_length.
Qed.

Lemma expander_falsy_count_one_event_witness :
  expandTracksByPlayCount ([Sample.played3] ++ SamplePlays.bare 1 :: []) =
  expandTracksByPlayCount [Sample.played3]
    ++ [Track.mk (Some [65]) None None (JNum 1) JNaN 1 (JNum 180000)]
    ++ expandTracksByPlayCount [] /\
  expandTracksByPlayCount ([Sample.played3] ++ SampleMore.negative :: []) =
  expandTracksByPlayCount [Sample.played3] ++ expandTracksByPlayCount [] /\
  (exists events,
      events <> [] /\
      expandTracksByPlayCount ([Sample.played3] ++ unplayed :: []) =
      expandTracksByPlayCount [Sample.played3] ++ events
        ++ expandTracksByPlayCount []) /\
  (List.length [Sample.played3; unplayed] <=
   List.length (expandTracksByPlayCount [Sample.played3; unplayed]))%nat.
Proof.
  split; [|split; [|split]].
  - apply (proj1 expander_falsy_count_one_event [Sample.played3]
             (SamplePlays.bare 1) []).
    reflexivity.
  - apply (proj1 (proj2 expander_falsy_count_one_event) [Sample.played3]
             SampleMore.negative [] (-2)).
    + reflexivity.
    + lia.
  - apply (proj1 (proj2 (proj2 expander_falsy_count_one_event))
             [Sample.played3] unplayed []).
    intros n H. injection H as <-. lia.
  - apply (proj2 (proj2 (proj2 expander_falsy_count_one_event))
             [Sample.played3; unplayed]).
    repeat constructor; intros n H; injection H as <-; lia.
Defined.

(** C9 as it is worded fails twice.  A track as the file-backed decoder
    builds it, with no play count and no last-played time, expands into one
    event whose time is [NaN], not the absent time of the track; and a
    track with a play count of -2 expands into no event, so the output is
    shorter than the input. *)
Lemma expander_falsy_count_counterexample :
  Track.playCount (SamplePlays.bare 1) = JUndefined /\
  Track.lastPlayed (SamplePlays.bare 1) = JUndefined /\
  map Track.lastPlayed (expandTracksByPlayCount [SamplePlays.bare 1]) = [JNaN] /\
  Track.playCount SampleMore.negative = JNum (-2) /\
  expandTracksByPlayCount [SampleMore.negative] = [].
Proof. repeat split; reflexivity. Qed.

(** ** Reads *)

Lemma byteZ_range b : 0 <= byteZ b < 256.
Proof. destruct b; unfold byteZ; simpl; lia. Qed.

Lemma littleEndian_cons b rest :
  littleEndianToBigInt (b :: rest) = byteZ b + 256 * littleEndianToBigInt rest.
Proof.
  unfold littleEndianToBigInt. simpl rev. rewrite fold_left_app. simpl. lia.
Qed.

Lemma littleEndian_nonneg bs : 0 <= littleEndianToBigInt bs.
Proof.
  induction bs as [|b bs IH]; [unfold littleEndianToBigInt; simpl; lia|].
  rewrite littleEndian_cons. pose proof (byteZ_range b). lia.
Qed.

Lemma u32At_nonneg file pos : 0 <= u32At file pos.
Proof. apply littleEndian_nonneg. Qed.

Lemma slice_length b start stop :
  0 <= start -> start <= stop -> stop <= Buffer.len b ->
  List.length (Buffer.slice b start stop) = Z.to_nat (stop - start).
Proof.
  unfold Buffer.slice, Buffer.len. intros H0 H1 H2.
  rewrite length_firstn, length_skipn. lia.
Qed.

(** A read that lies inside the file fills the 4-byte buffer with the bytes
    at that position, whatever the buffer held. *)
Lemma read4_inside file dword pos :
  List.length dword = 4%nat -> 0 <= pos -> pos + 4 <= Buffer.len file ->
  readBytesAtPosition file dword pos 4 = (Buffer.slice file pos (pos + 4), 4).
Proof.
  intros Hd H0 H1. unfold readBytesAtPosition, Buffer.slice.
  replace (Z.to_nat (pos + 4 - pos)) with (Z.to_nat 4) by lia.
  assert (Hl : List.length (firstn (Z.to_nat 4) (skipn (Z.to_nat pos) file)) = 4%nat).
  { rewrite length_firstn, length_skipn. unfold Buffer.len in H1. lia. }
  unfold Buffer.len. rewrite Hl.
  rewrite (skipn_all2 dword) by lia. now rewrite app_nil_r.
Qed.

Lemma read_length file buffer pos n :
  (Z.to_nat n <= List.length buffer)%nat ->
  List.length (fst (readBytesAtPosition file buffer pos n)) = List.length buffer.
Proof.
  intros Hn. unfold readBytesAtPosition. simpl.
  rewrite length_app, length_skipn, length_firstn. lia.
Qed.

Lemma alloc_length n : List.length (Buffer.alloc n) = Z.to_nat n.
Proof. apply repeat_length. Qed.

(** ** The Play Counts correlation *)

Section PlayCountsFacts.

Variable tz : Z.

Lemma findIndexFrom_firstIdx {A} (p : A -> bool) l : forall k,
  findIndexFrom p l k =
  match firstIdx p l with
  | Some n => k + Z.of_nat n
  | None => -1
  end.
Proof.
  induction l as [|x l IH]; intros k; simpl; [reflexivity|].
  destruct (p x); [simpl; lia|].
  rewrite IH. destruct (firstIdx p l); simpl; lia.
Qed.

(** The two branches on [trackIndex], through [firstIdx]. *)
Lemma findIndex_update {A} (p : A -> bool) (f : A -> A) l :
  (let trackIndex := findIndex p l in
   if negb (trackIndex =? -1) then updateAt (Z.to_nat trackIndex) f l else l) =
  match firstIdx p l with
  | Some n => updateAt n f l
  | None => l
  end.
Proof.
  unfold findIndex. rewrite findIndexFrom_firstIdx.
  destruct (firstIdx p l) as [n|]; simpl; [|reflexivity].
  destruct (Z.eqb_spec (Z.of_nat n) (-1)); [lia|]. simpl.
  now rewrite Nat2Z.id.
Qed.

Lemma updateAt_first_is_map (f : Track.t -> Track.t) i l :
  NoDup (map Track.id l) ->
  match firstIdx (fun t => Track.id t =? i) l with
  | Some n => updateAt n f l
  | None => l
  end = map (fun t => if Track.id t =? i then f t else t) l.
Proof.
  induction l as [|x l IH]; intros Hnd; simpl; [reflexivity|].
  inversion Hnd as [|? ? Hnotin Hnd']; subst.
  destruct (Z.eqb_spec (Track.id x) i) as [Heq|Hne].
  - simpl. f_equal. rewrite <- (map_id l) at 1. apply map_ext_in.
    intros y Hy. destruct (Z.eqb_spec (Track.id y) i); [|reflexivity].
    exfalso. apply Hnotin. rewrite Heq. apply in_map_iff. now exists y.
  - specialize (IH Hnd').
    destruct (firstIdx (fun t => Track.id t =? i) l); simpl; now rewrite <- IH.
Qed.

Lemma updateAt_first_rel {A} (p : A -> bool) (f : A -> A) l :
  Forall2 (fun t t' => t' = t \/ (p t = true /\ t' = f t)) l
    (match firstIdx p l with
     | Some n => updateAt n f l
     | None => l
     end).
Proof.
  assert (Hrefl : forall l : list A,
             Forall2 (fun t t' => t' = t \/ (p t = true /\ t' = f t)) l l).
  { intros l0. induction l0; constructor; auto. }
  induction l as [|x l IH]; simpl; [constructor|].
  destruct (p x) eqn:Hp; simpl.
  - constructor; auto.
  - destruct (firstIdx p l); simpl; constructor; auto.
Qed.

Lemma parsePlayCountsLoop_S n i file entryLen dword bytesOffset tracklist :
  parsePlayCountsLoop tz (S n) i file entryLen dword bytesOffset tracklist =
  let playCount :=
    littleEndianToBigInt (fst (readBytesAtPosition file dword bytesOffset 4)) in
  let dword1 := fst (readBytesAtPosition file dword bytesOffset 4) in
  let dword2 := fst (readBytesAtPosition file dword1 (bytesOffset + 4) 4) in
  let lastPlayed := littleEndianToBigInt dword2 - 2082844800 + tz * 60 in
  if 0 <? playCount then
    parsePlayCountsLoop tz n (i + 1) file entryLen dword2 (bytesOffset + entryLen)
      (match firstIdx (fun t => Track.id t =? i) tracklist with
       | Some k =>
           updateAt k (Track.setPlays (JNum playCount) (JNum lastPlayed)) tracklist
       | None => tracklist
       end)
  else
    parsePlayCountsLoop tz n (i + 1) file entryLen dword1 (bytesOffset + entryLen)
      tracklist.
Proof.
  cbn [parsePlayCountsLoop].
  destruct (readBytesAtPosition file dword bytesOffset 4) as [d1 r1] eqn:E1.
  cbn [fst]. cbv zeta.
  destruct (0 <? littleEndianToBigInt d1); [|reflexivity].
  destruct (readBytesAtPosition file d1 (bytesOffset + 4) 4) as [d2 r2] eqn:E2.
  cbn [fst].
  rewrite <- findIndex_update. cbv zeta.
  destruct (negb (findIndex (fun t => Track.id t =? i) tracklist =? -1));
    reflexivity.
Qed.

Lemma id_setPlays pc lp t : Track.id (Track.setPlays pc lp t) = Track.id t.
Proof. reflexivity. Qed.

Lemma sameMeta_refl t : sameMeta t t.
Proof. repeat split. Qed.

Lemma sameMeta_setPlays pc lp t : sameMeta t (Track.setPlays pc lp t).
Proof. repeat split. Qed.

Lemma correlated_refl a b t : correlated a b t t.
Proof. split; [apply sameMeta_refl | now left]. Qed.

Lemma correlated_trans a b c t t1 t2 :
  a <= b <= c -> correlated a b t t1 -> correlated b c t1 t2 -> correlated a c t t2.
Proof.
  intros Hab [M1 C1] [M2 C2]. split.
  - destruct M1 as (?&?&?&?&?), M2 as (?&?&?&?&?). repeat split; congruence.
  - destruct C2 as [->|[Hr Hex]].
    + destruct C1 as [->|[Hr Hex]]; [now left|right]. split; [lia|exact Hex].
    + right. destruct M1 as (_&_&_&Hid&_). rewrite Hid in Hr. split; [lia|exact Hex].
Qed.

Lemma Forall2_compose {A} (R1 R2 R3 : A -> A -> Prop) l l1 l2 :
  (forall x y z, R1 x y -> R2 y z -> R3 x z) ->
  Forall2 R1 l l1 -> Forall2 R2 l1 l2 -> Forall2 R3 l l2.
Proof.
  intros Hc H1. revert l2. induction H1; intros l2 H2; inversion H2; subst;
    constructor; eauto.
Qed.

Lemma Forall2_refl {A} (R : A -> A -> Prop) l :
  (forall x, R x x) -> Forall2 R l l.
Proof. intros Hr. induction l; constructor; auto. Qed.

(** The frame of the loop, on any file. *)
Lemma parsePlayCountsLoop_frame file entryLen n : forall i dword bytesOffset tracklist,
  Forall2 (correlated i (i + Z.of_nat n)) tracklist
    (parsePlayCountsLoop tz n i file entryLen dword bytesOffset tracklist).
Proof.
  induction n as [|n IH]; intros i dword bytesOffset tracklist.
  - simpl. apply Forall2_refl. intros t. apply correlated_refl.
  - rewrite parsePlayCountsLoop_S. cbv zeta.
    set (pc := littleEndianToBigInt (fst (readBytesAtPosition file dword bytesOffset 4))).
    destruct (Z.ltb_spec 0 pc) as [Hpc|Hpc].
    + eapply Forall2_compose; [| |apply IH].
      * intros x y z Hxy Hyz.
        apply (correlated_trans i (i + 1) (i + Z.of_nat (S n)) x y z); [lia|exact Hxy|].
        replace (i + Z.of_nat (S n)) with (i + 1 + Z.of_nat n) by lia. exact Hyz.
      * eapply Forall2_impl; [|apply updateAt_first_rel].
        intros t t' [->|[Hid ->]]; [apply correlated_refl|].
        split; [apply sameMeta_setPlays|]. right.
        apply Z.eqb_eq in Hid. split; [lia|].
        exists pc. eexists. repeat split. exact Hpc.
    + eapply Forall2_impl; [|apply IH].
      intros t t' [M [->|[Hr Hex]]]; [apply correlated_refl|].
      split; [exact M|right]. split; [lia|exact Hex].
Qed.

Ltac bool_cases :=
  repeat match goal with
    | |- context [?a <=? ?b] => destruct (Z.leb_spec a b)
    | |- context [?a <? ?b] => destruct (Z.ltb_spec a b)
    | |- context [?a =? ?b] => destruct (Z.eqb_spec a b)
    end; cbn [andb orb negb].

(** The loop on a file that holds every entry it visits: each entry acts
    on the track that carries its index. *)
Lemma parsePlayCountsLoop_exact file n : forall i dword tracklist,
  List.length dword = 4%nat -> 0 <= i ->
  (forall j, i <= j < i + Z.of_nat n ->
             96 + j * pcEntryLen file + 8 <= Buffer.len file) ->
  NoDup (map Track.id tracklist) ->
  parsePlayCountsLoop tz n i file (pcEntryLen file) dword
    (96 + i * pcEntryLen file) tracklist =
  map (correlateRange tz file i (i + Z.of_nat n)) tracklist.
Proof.
  pose proof (u32At_nonneg file 8) as HE. fold (pcEntryLen file) in HE.
  induction n as [|n IH]; intros i dword tracklist Hd Hi Hin Hnd.
  - simpl. rewrite <- (map_id tracklist) at 1. apply map_ext. intros t.
    unfold correlateRange. cbv zeta. bool_cases; try reflexivity; lia.
  - assert (Hi' : 96 + i * pcEntryLen file + 8 <= Buffer.len file)
      by (apply Hin; lia).
    assert (Hpos : 0 <= 96 + i * pcEntryLen file) by nia.
    rewrite parsePlayCountsLoop_S. cbv zeta.
    rewrite (read4_inside file dword) by (try assumption; lia).
    cbn [fst].
    rewrite (read4_inside file (Buffer.slice file _ _))
      by (try rewrite slice_length; lia).
    cbn [fst].
    change (littleEndianToBigInt
              (Buffer.slice file (96 + i * pcEntryLen file)
                 (96 + i * pcEntryLen file + 4)))
      with (pcPlayCount file i).
    change (littleEndianToBigInt
              (Buffer.slice file (96 + i * pcEntryLen file + 4)
                 (96 + i * pcEntryLen file + 4 + 4)))
      with (pcLastPlayed file i).
    replace (96 + i * pcEntryLen file + pcEntryLen file)
      with (96 + (i + 1) * pcEntryLen file) by lia.
    destruct (Z.ltb_spec 0 (pcPlayCount file i)) as [Hpc|Hpc].
    + rewrite updateAt_first_is_map by assumption.
      rewrite IH.
      * rewrite map_map. apply map_ext. intros t.
        unfold correlateRange. cbv zeta.
        destruct (Z.eqb_spec (Track.id t) i) as [Heq|Hne].
        -- rewrite !id_setPlays, !Heq. bool_cases; try reflexivity; lia.
        -- bool_cases; try reflexivity; lia.
      * rewrite slice_length; lia.
      * lia.
      * intros j Hj. apply Hin. lia.
      * rewrite map_map. erewrite map_ext; [exact Hnd|].
        intros t. now destruct (Track.id t =? i).
    + rewrite IH.
      * apply map_ext. intros t. unfold correlateRange. cbv zeta.
        destruct (Z.eqb_spec (Track.id t) i) as [Heq|Hne];
          rewrite ?Heq; bool_cases; try reflexivity; lia.
      * rewrite slice_length; lia.
      * lia.
      * intros j Hj. apply Hin. lia.
      * assumption.
Qed.

Lemma parsePlayCountsFile_exact file tracklist :
  pcComplete file -> NoDup (map Track.id tracklist) ->
  parsePlayCountsFile tz file tracklist = map (correlate tz file) tracklist.
Proof.
  intros [Hlen Hin] Hnd. unfold parsePlayCountsFile. cbv zeta.
  rewrite (read4_inside file (Buffer.alloc 4)) by (try apply alloc_length; simpl; lia).
  rewrite (read4_inside file (Buffer.slice file _ _))
    by (try rewrite slice_length; simpl; lia).
  change (littleEndianToBigInt (Buffer.slice file (0 + 8) (0 + 8 + 4)))
    with (pcEntryLen file).
  change (littleEndianToBigInt (Buffer.slice file (0 + 8 + 4) (0 + 8 + 4 + 4)))
    with (pcNumEntries file).
  replace (0 + 8 + 4 + 4 + 80) with (96 + 0 * pcEntryLen file) by lia.
  rewrite parsePlayCountsLoop_exact.
  - apply map_ext. intros t. unfold correlate, correlateRange. cbv zeta.
    bool_cases; try reflexivity; lia.
  - rewrite slice_length; simpl; lia.
  - lia.
  - intros j Hj. apply Hin. lia.
  - assumption.
Qed.

Lemma parsePlayCountsFile_frame file tracklist :
  Forall2 (correlated 0 (pcEntriesVisited file)) tracklist
    (parsePlayCountsFile tz file tracklist).
Proof.
  unfold parsePlayCountsFile, pcEntriesVisited. cbv zeta.
  destruct (readBytesAtPosition file (Buffer.alloc 4) (0 + 8) 4) as [d1 r1] eqn:E1.
  change (0 + 8) with 8 in E1. rewrite E1. cbn [fst].
  destruct (readBytesAtPosition file d1 (0 + 8 + 4) 4) as [d2 r2] eqn:E2.
  change (0 + 8 + 4) with 12 in E2. rewrite E2. cbn [fst].
  apply (parsePlayCountsLoop_frame file (littleEndianToBigInt d1)
           (Z.to_nat (littleEndianToBigInt d2 - 1)) 0).
Qed.

End PlayCountsFacts.
(** ** The entries as the loop reads them *)

Lemma byteAt_skipn file pos k :
  0 <= pos ->
  byteAt file (pos + Z.of_nat k) =
  match nth_error (skipn (Z.to_nat pos) file) k with
  | Some b => byteZ b
  | None => 0
  end.
Proof.
  intros Hp. unfold byteAt. rewrite nth_error_skipn.
  now replace (Z.to_nat (pos + Z.of_nat k)) with (Z.to_nat pos + k)%nat by lia.
Qed.

(** Inside the file the reader of the code and the byte-by-byte value
    agree. *)
Lemma u32At_le32 file pos :
  0 <= pos -> pos + 4 <= Buffer.len file -> u32At file pos = le32 file pos.
Proof.
  intros Hp Hl. unfold u32At, le32, Buffer.slice.
  replace (Z.to_nat (pos + 4 - pos)) with 4%nat by lia.
  pose proof (byteAt_skipn file pos 0 Hp) as H0.
  pose proof (byteAt_skipn file pos 1 Hp) as H1.
  pose proof (byteAt_skipn file pos 2 Hp) as H2.
  pose proof (byteAt_skipn file pos 3 Hp) as H3.
  replace (pos + Z.of_nat 0) with pos in H0 by lia.
  change (Z.of_nat 1) with 1 in H1. change (Z.of_nat 2) with 2 in H2.
  change (Z.of_nat 3) with 3 in H3.
  rewrite H0, H1, H2, H3. clear H0 H1 H2 H3.
  assert (Hlen : (4 <= List.length (skipn (Z.to_nat pos) file))%nat).
  { rewrite length_skipn. unfold Buffer.len in Hl. lia. }
  destruct (skipn (Z.to_nat pos) file) as [|b0 [|b1 [|b2 [|b3 rest]]]];
    simpl in Hlen; try lia.
  cbn [firstn nth_error].
  rewrite !littleEndian_cons.
  change (littleEndianToBigInt []) with 0. lia.
Qed.

Lemma entryStride_eq file :
  16 <= Buffer.len file -> pcEntryLen file = entryStride file.
Proof. intros H. apply u32At_le32; lia. Qed.

Lemma entryCount_eq file :
  16 <= Buffer.len file -> pcNumEntries file = entryCount file.
Proof. intros H. apply u32At_le32; lia. Qed.

Lemma entriesPresent_complete file : entriesPresent file -> pcComplete file.
Proof.
  intros [Hlen Hin]. split; [exact Hlen|].
  rewrite (entryStride_eq file Hlen), (entryCount_eq file Hlen). exact Hin.
Qed.

Lemma entryPlays_eq file i :
  entriesPresent file -> 0 <= i < entryCount file - 1 ->
  pcPlayCount file i = entryPlays file i /\
  pcLastPlayed file i = entryLastPlayed file i.
Proof.
  intros [Hlen Hin] Hi. specialize (Hin i Hi).
  unfold pcPlayCount, pcLastPlayed, entryPlays, entryLastPlayed, entryOffset in *.
  rewrite (entryStride_eq file Hlen).
  pose proof (u32At_nonneg file 8) as HE. fold (pcEntryLen file) in HE.
  rewrite (entryStride_eq file Hlen) in HE.
  split; apply u32At_le32; nia.
Qed.

Lemma entryMatches_eq file t :
  entriesPresent file ->
  entryMatches file t =
  (0 <=? Track.id t) && (Track.id t <? pcNumEntries file - 1)
  && (0 <? pcPlayCount file (Track.id t)).
Proof.
  intros Hc. unfold entryMatches.
  rewrite (entryCount_eq file (proj1 Hc)).
  destruct (Z.leb_spec 0 (Track.id t)); [|reflexivity].
  destruct (Z.ltb_spec (Track.id t) (entryCount file - 1)); [|reflexivity].
  cbn [andb].
  destruct (entryPlays_eq file (Track.id t) Hc) as [-> _]; [lia|].
  rewrite <- (proj1 (entryPlays_eq file (Track.id t) Hc ltac:(lia))).
  pose proof (u32At_nonneg file (96 + Track.id t * pcEntryLen file)) as Hn.
  fold (pcPlayCount file (Track.id t)) in Hn.
  destruct (Z.eqb_spec (pcPlayCount file (Track.id t)) 0),
    (Z.ltb_spec 0 (pcPlayCount file (Track.id t))); cbn [negb]; try reflexivity; lia.
Qed.



Section Matched.

Variable tz : Z.
Variable file : list byte.

(** On a complete file, with or without repeated ids, the loop changes a
    track only when the entry at its id counts a play. *)
Lemma parsePlayCountsLoop_matched n : forall i dword tracklist,
  List.length dword = 4%nat -> 0 <= i ->
  (forall j, i <= j < i + Z.of_nat n ->
             96 + j * pcEntryLen file + 8 <= Buffer.len file) ->
  Forall2 (fun t t' =>
             Track.id t' = Track.id t /\
             (t' = t \/
              (i <= Track.id t < i + Z.of_nat n /\
               0 < pcPlayCount file (Track.id t))))
    tracklist
    (parsePlayCountsLoop tz n i file (pcEntryLen file) dword
       (96 + i * pcEntryLen file) tracklist).
Proof.
  pose proof (u32At_nonneg file 8) as HE. fold (pcEntryLen file) in HE.
  induction n as [|n IH]; intros i dword tracklist Hd Hi Hin.
  - cbn [parsePlayCountsLoop]. apply Forall2_refl. auto.
  - assert (Hi' : 96 + i * pcEntryLen file + 8 <= Buffer.len file)
      by (apply Hin; lia).
    assert (Hpos : 0 <= 96 + i * pcEntryLen file) by nia.
    rewrite parsePlayCountsLoop_S. cbv zeta.
    rewrite (read4_inside file dword) by (try assumption; lia).
    cbn [fst].
    rewrite (read4_inside file (Buffer.slice file _ _))
      by (try rewrite slice_length; lia).
    cbn [fst].
    change (littleEndianToBigInt
              (Buffer.slice file (96 + i * pcEntryLen file)
                 (96 + i * pcEntryLen file + 4)))
      with (pcPlayCount file i).
    replace (96 + i * pcEntryLen file + pcEntryLen file)
      with (96 + (i + 1) * pcEntryLen file) by lia.
    destruct (Z.ltb_spec 0 (pcPlayCount file i)) as [Hpc|Hpc].
    + eapply Forall2_compose;
        [|apply (updateAt_first_rel (fun t => Track.id t =? i))|apply IH].
      * intros x y z [->|[Hid ->]] [Hidz Hz].
        -- split; [exact Hidz|]. destruct Hz as [->|[Hr Hp]]; [now left|right].
           split; [lia|exact Hp].
        -- apply Z.eqb_eq in Hid. rewrite id_setPlays in Hidz, Hz.
           split; [exact Hidz|]. right. rewrite Hid. split; [lia|exact Hpc].
      * rewrite slice_length; lia.
      * lia.
      * intros j Hj. apply Hin. lia.
    + eapply Forall2_impl; [|apply IH].
      * intros t t' [Hid [->|[Hr Hp]]]; (split; [exact Hid|]); [now left|right].
        split; [lia|exact Hp].
      * rewrite slice_length; lia.
      * lia.
      * intros j Hj. apply Hin. lia.
Qed.

Lemma parsePlayCountsFile_matched tracklist :
  entriesPresent file ->
  Forall2 (fun t t' => t' = t \/ entryMatches file t = true)
    tracklist (parsePlayCountsFile tz file tracklist).
Proof.
  intros Hc. pose proof (entriesPresent_complete file Hc) as [Hlen Hin].
  unfold parsePlayCountsFile. cbv zeta.
  rewrite (read4_inside file (Buffer.alloc 4)) by (try apply alloc_length; simpl; lia).
  rewrite (read4_inside file (Buffer.slice file _ _))
    by (try rewrite slice_length; simpl; lia).
  change (littleEndianToBigInt (Buffer.slice file (0 + 8) (0 + 8 + 4)))
    with (pcEntryLen file).
  change (littleEndianToBigInt (Buffer.slice file (0 + 8 + 4) (0 + 8 + 4 + 4)))
    with (pcNumEntries file).
  replace (0 + 8 + 4 + 4 + 80) with (96 + 0 * pcEntryLen file) by lia.
  eapply Forall2_impl; [|apply parsePlayCountsLoop_matched].
  - intros t t' [_ [->|[Hr Hp]]]; [now left|right].
    rewrite (entryMatches_eq file t Hc).
    destruct (Z.leb_spec 0 (Track.id t)), (Z.ltb_spec (Track.id t) (pcNumEntries file - 1)),
      (Z.ltb_spec 0 (pcPlayCount file (Track.id t))); cbn [andb]; try reflexivity; lia.
  - rewrite slice_length; simpl; lia.
  - lia.
  - intros j Hj. apply Hin. lia.
Qed.

End Matched.



(** The correlator test of the specification: ids 0, 1, 2 against plays at
    the indices 0, 2 and 3. *)
Example play_counts_sample :
  parsePlayCountsFile 0 SamplePlays.file SamplePlays.tracks =
  [Track.setPlays (JNum 2) (JNum 1000) (SamplePlays.bare 0);
   SamplePlays.bare 1;
   Track.setPlays (JNum 5) (JNum 2000) (SamplePlays.bare 2)].
Proof. reflexivity. Qed.

(** The entries of the sample, byte by byte. *)
Example play_counts_sample_entries :
  map (entryPlays SamplePlays.file) [0; 1; 2; 3] = [2; 0; 5; 1] /\
  map (entryLastPlayed SamplePlays.file) [0; 2] = [2082845800; 2082846800] /\
  map (entryMatches SamplePlays.file) SamplePlays.tracks = [true; false; true].
Proof. repeat split; reflexivity. Qed.

(** C10.  The correlation returns as many tracks as it was given, in the
    same order, and the title, artist, album, length and id of each are the
    ones it had, whatever the file holds.  On a file that holds every entry
    the loop visits, a track comes back changed only when its id is the
    position of an entry with a play count that is not zero.  On a file cut
    off before its entries the code departs from that: the sample of 56
    bytes declares three entries and holds none, no track is matched, and
    the tracks of id 0 and 1 come back with a play count of 3, the entry
    count the header reads left in the shared buffer. *)
Theorem play_counts_frame :
  (forall tz fs filePath tracklist,
      let result := parsePlayCounts tz fs filePath tracklist in
      List.length result = List.length tracklist /\
      Forall2 sameMeta tracklist result) /\
  (forall tz file tracklist,
      entriesPresent file ->
      Forall2 (fun t t' => t' = t \/ entryMatches file t = true)
        tracklist (parsePlayCountsFile tz file tracklist)) /\
  (Buffer.len SampleMore.cutPlays = 56 /\
   entryOffset SampleMore.cutPlays 0 = 96 /\
   map (entryMatches SampleMore.cutPlays) SamplePlays.tracks =
   [false; false; false] /\
   map Track.playCount
     (parsePlayCountsFile 0 SampleMore.cutPlays SamplePlays.tracks) =
   [JNum 3; JNum 3; JUndefined]).
Proof.
  split; [|split].
  - intros tz fs filePath tracklist. unfold parsePlayCounts. cbv zeta.
    destruct (fs filePath) as [file|].
    + pose proof (parsePlayCountsFile_frame tz file tracklist) as H.
      split; [symmetry; eapply Forall2_length; exact H|].
      eapply Forall2_impl; [|exact H]. now intros t t' [M _].
    + split; [reflexivity|].
      apply Forall2_refl. intros t. apply sameMeta_refl.
  - intros tz file tracklist. apply parsePlayCountsFile_matched.
  - repeat split; reflexivity.
Qed.

Lemma play_counts_frame_witness :
  Forall2 (fun t t' => t' = t \/ entryMatches SamplePlays.file t = true)
    SamplePlays.tracks (parsePlayCountsFile 0 SamplePlays.file SamplePlays.tracks).
Proof.
  apply (proj1 (proj2 play_counts_frame) 0 SamplePlays.file SamplePlays.tracks).
  assert (E1 : entryCount SamplePlays.file = 5) by reflexivity.
  assert (E2 : entryStride SamplePlays.file = 16) by reflexivity.
  assert (E3 : Buffer.len SamplePlays.file = 160) by reflexivity.
  split; [rewrite E3; lia|].
  intros i Hi. unfold entryOffset. rewrite E1 in Hi. rewrite E2, E3. lia.
Defined.

(** C5, on the Play Counts path.  An entry with a play count of 1 and a
    last-played field of 0 stamps its track with [0 - 2082844800] plus the
    offset, where the conversion of the specification returns 0. *)
Theorem play_counts_zero_stamp tz :
  map Track.lastPlayed
    (parsePlayCountsFile tz SamplePlays.zeroStamp [SamplePlays.bare 0]) =
  [JNum (0 - 2082844800 + tz * 60)] /\
  hfsToUnix (tz * 60) 0 = 0.
Proof. split; reflexivity. Qed.

(** ** The file-backed decoder *)

Lemma sameNumbers_refl t : sameNumbers t t.
Proof. repeat split. Qed.

Lemma sameNumbers_trans t t1 t2 :
  sameNumbers t t1 -> sameNumbers t1 t2 -> sameNumbers t t2.
Proof.
  intros (?&?&?&?) (?&?&?&?). repeat split; congruence.
Qed.

Lemma sameNumbers_assign ty s t : sameNumbers t (assignString ty s t).
Proof.
  unfold assignString.
  destruct (ty =? 1); [repeat split|].
  destruct (ty =? 3); [repeat split|].
  destruct (ty =? 4); repeat split.
Qed.

(** [parsemhod] in one equation: the total size is the value at +8 of the
    object, and the only effect on the track is the assignment of the
    string. *)
Lemma parsemhod_eq track file startOffset headerSize :
  exists total ty s,
    parsemhod track file startOffset headerSize = (assignString ty s track, total) \/
    parsemhod track file startOffset headerSize = (track, total).
Proof.
  unfold parsemhod. cbv zeta.
  destruct (readBytesAtPosition file (Buffer.alloc 4) _ 4) as [d1 r1].
  destruct (readBytesAtPosition file d1 _ 4) as [d2 r2].
  set (ty := littleEndianToBigInt d2).
  destruct ((ty =? 1) || (ty =? 3) || (ty =? 4)); [|exists (littleEndianToBigInt d1), 0, []; now right].
  destruct (readBytesAtPosition file d2 _ 4) as [d3 r3].
  destruct ((0 <? littleEndianToBigInt d3) && (littleEndianToBigInt d3 <? 10000));
    [|exists (littleEndianToBigInt d1), 0, []; now right].
  destruct (readBytesAtPosition file (Buffer.alloc _) _ _) as [d4 r4].
  exists (littleEndianToBigInt d1), ty, (Buffer.utf16le d4). left.
  unfold assignString.
  destruct (ty =? 1); [reflexivity|].
  destruct (ty =? 3); [reflexivity|].
  destruct (ty =? 4); reflexivity.
Qed.

Lemma parsemhod_numbers track file startOffset headerSize :
  sameNumbers track (fst (parsemhod track file startOffset headerSize)).
Proof.
  destruct (parsemhod_eq track file startOffset headerSize) as (total & ty & s & [E|E]);
    rewrite E; cbn [fst]; [apply sameNumbers_assign | apply sameNumbers_refl].
Qed.

Lemma parseMhitLoop_numbers n : forall track file startOffset headerSize,
  sameNumbers track (parseMhitLoop n track file startOffset headerSize).
Proof.
  induction n as [|n IH]; intros track file startOffset headerSize.
  - apply sameNumbers_refl.
  - cbn [parseMhitLoop].
    pose proof (parsemhod_numbers track file startOffset headerSize) as H.
    destruct (parsemhod track file startOffset headerSize) as [t1 total].
    cbn [fst] in H. eapply sameNumbers_trans; [exact H|apply IH].
Qed.

(** The identifier the file-backed decoder stores is the value 16 bytes
    after the marker, when the file reaches that far. *)
Lemma parseMhit_id file p :
  0 <= p -> p + 20 <= Buffer.len file ->
  Track.id (parseMhit file (p + 4)) = u32At file (p + 16).
Proof.
  intros Hp Hlen. unfold parseMhit. cbv zeta.
  rewrite (read4_inside file (Buffer.alloc 4)) by (try apply alloc_length; lia).
  rewrite (read4_inside file (Buffer.slice file _ _))
    by (try rewrite slice_length; lia).
  rewrite (read4_inside file (Buffer.slice file (p + 4 + 4 + 4) _))
    by (try rewrite slice_length; lia).
  destruct (readBytesAtPosition file _ (p + 4 + 4 + 4 + 4 + 4 + 20) 4) as [d4 r4].
  match goal with
  | |- Track.id (parseMhitLoop ?n ?t ?f ?s ?h) = _ =>
      destruct (parseMhitLoop_numbers n t f s h) as (Hid & _)
  end.
  rewrite Hid. cbn [Track.id]. unfold u32At. do 2 f_equal; lia.
Qed.

(** The length it stores is the value at +0x28, and it stores no play
    data. *)
Lemma parseMhit_length file p :
  0 <= p -> p + 44 <= Buffer.len file ->
  Track.length (parseMhit file (p + 4)) = JNum (u32At file (p + 0x28)).
Proof.
  intros Hp Hlen. unfold parseMhit. cbv zeta.
  rewrite (read4_inside file (Buffer.alloc 4)) by (try apply alloc_length; lia).
  rewrite (read4_inside file (Buffer.slice file _ _))
    by (try rewrite slice_length; lia).
  rewrite (read4_inside file (Buffer.slice file (p + 4 + 4 + 4) _))
    by (try rewrite slice_length; lia).
  rewrite (read4_inside file (Buffer.slice file (p + 4 + 4 + 4 + 4) _))
    by (try rewrite slice_length; lia).
  match goal with
  | |- Track.length (parseMhitLoop ?n ?t ?f ?s ?h) = _ =>
      destruct (parseMhitLoop_numbers n t f s h) as (_ & Hl & _)
  end.
  rewrite Hl. cbn [Track.length]. unfold u32At. do 3 f_equal; lia.
Qed.

Lemma parseMhit_no_plays file s :
  Track.playCount (parseMhit file s) = JUndefined /\
  Track.lastPlayed (parseMhit file s) = JUndefined.
Proof.
  unfold parseMhit. cbv zeta.
  destruct (readBytesAtPosition file (Buffer.alloc 4) _ 4) as [d1 r1].
  destruct (readBytesAtPosition file d1 _ 4) as [d2 r2].
  destruct (readBytesAtPosition file d2 _ 4) as [d3 r3].
  destruct (readBytesAtPosition file d3 _ 4) as [d4 r4].
  match goal with
  | |- Track.playCount (parseMhitLoop ?n ?t ?f ?s ?h) = _ /\ _ =>
      destruct (parseMhitLoop_numbers n t f s h) as (_ & _ & Hp & Hl)
  end.
  now rewrite Hp, Hl.
Qed.

(** ** The marker scan *)

Lemma slice_app_left l1 l2 a b :
  0 <= a -> b <= Buffer.len l1 ->
  Buffer.slice (l1 ++ l2) a b = Buffer.slice l1 a b.
Proof.
  unfold Buffer.slice, Buffer.len. intros Ha Hb.
  rewrite skipn_app, firstn_app, length_skipn.
  replace (Z.to_nat (b - a) - (List.length l1 - Z.to_nat a))%nat with O by lia.
  now rewrite firstn_O, app_nil_r.
Qed.

Lemma slice_firstn l n a b :
  0 <= a -> b <= Z.of_nat n ->
  Buffer.slice (firstn n l) a b = Buffer.slice l a b.
Proof.
  unfold Buffer.slice. intros Ha Hb.
  rewrite skipn_firstn_comm, firstn_firstn. f_equal. lia.
Qed.

Lemma slice_skipn l k a b :
  0 <= a ->
  Buffer.slice (skipn k l) a b = Buffer.slice l (Z.of_nat k + a) (Z.of_nat k + b).
Proof.
  unfold Buffer.slice. intros Ha.
  rewrite skipn_skipn. f_equal; [lia|f_equal; lia].
Qed.

Lemma hd_error_skipn {A} (l : list A) : forall n,
  hd_error (firstn 1 (skipn n l)) = nth_error l n.
Proof.
  induction l as [|x l IH]; intros [|n]; simpl; try reflexivity.
  apply IH.
Qed.

Lemma get_slice b i :
  0 <= i ->
  Buffer.get b i = option_map byteZ (hd_error (Buffer.slice b i (i + 1))).
Proof.
  intros Hi. unfold Buffer.get, Buffer.slice.
  destruct (Z.ltb_spec i 0); [lia|].
  replace (Z.to_nat (i + 1 - i)) with 1%nat by lia.
  now rewrite hd_error_skipn.
Qed.

(** Inside the bytes a read has delivered, the window and the file agree. *)
Lemma slice_window file buffer total n a b :
  0 <= total -> 0 <= a ->
  b <= snd (readBytesAtPosition file buffer total n) ->
  Buffer.slice (fst (readBytesAtPosition file buffer total n)) a b =
  Buffer.slice file (total + a) (total + b).
Proof.
  unfold readBytesAtPosition. cbn [fst snd]. intros Ht Ha Hb.
  rewrite slice_app_left by assumption.
  rewrite slice_firstn.
  - rewrite slice_skipn by assumption. f_equal; lia.
  - assumption.
  - unfold Buffer.len in Hb. rewrite length_firstn in Hb. lia.
Qed.

Lemma mhitAt_window file buffer total n j :
  0 <= total -> 0 <= j ->
  j + 4 <= snd (readBytesAtPosition file buffer total n) ->
  mhitAt (fst (readBytesAtPosition file buffer total n)) j = mhitAt file (total + j).
Proof.
  intros Ht Hj Hb. unfold mhitAt, Buffer.toStringUtf8.
  rewrite !get_slice by lia.
  rewrite !slice_window by lia.
  replace (total + (j + 1)) with (total + j + 1) by lia.
  replace (total + (j + 4)) with (total + j + 4) by lia.
  reflexivity.
Qed.

Lemma bytesRead_bound file buffer total n :
  0 <= total ->
  0 <= snd (readBytesAtPosition file buffer total n) /\
  (snd (readBytesAtPosition file buffer total n) <= Buffer.len file - total \/
   snd (readBytesAtPosition file buffer total n) = 0).
Proof.
  intros Ht. unfold readBytesAtPosition, Buffer.len. cbn [snd].
  rewrite length_firstn, length_skipn. lia.
Qed.

Lemma bytesRead_exact file buffer total n :
  0 <= total -> 0 <= n ->
  snd (readBytesAtPosition file buffer total n) =
  Z.min n (Z.max 0 (Buffer.len file - total)).
Proof.
  intros Ht Hn. unfold readBytesAtPosition, Buffer.len. cbn [snd].
  rewrite length_firstn, length_skipn. lia.
Qed.

(** What the scan of one window adds to the list. *)
Lemma searchMhitLoop_in n : forall i buffer tracklist file offset t,
  In t (searchMhitLoop n i buffer tracklist file offset) ->
  In t tracklist \/
  exists j, i <= j < i + Z.of_nat n /\ mhitAt buffer j = true /\
            t = parseMhit file (offset + j + 4) /\
            JS.truthyStr (Track.track t) = true.
Proof.
  induction n as [|n IH]; intros i buffer tracklist file offset t Hin.
  - now left.
  - cbn [searchMhitLoop] in Hin. apply IH in Hin.
    destruct Hin as [Hin|(j & Hj & Hm & Ht & Hk)].
    + destruct (mhitAt buffer i) eqn:Hm; [|now left].
      destruct (JS.truthyStr (Track.track (parseMhit file (offset + i + 4)))) eqn:Hk;
        [|now left].
      apply in_app_or in Hin. destruct Hin as [Hin|[<-|[]]]; [now left|].
      right. exists i. repeat split; try assumption; lia.
    + right. exists j. repeat split; try assumption; lia.
Qed.

Lemma parseUncompressedLoop_S fuel file buffer total tracklist :
  parseUncompressedLoop (S fuel) file buffer total tracklist =
  let r := readBytesAtPosition file buffer total bufferSize in
  let tracklist := searchMhitInBuffer (fst r) (snd r) tracklist file total in
  if snd r <? bufferSize then Some tracklist
  else parseUncompressedLoop fuel file (fst r) (total + snd r) tracklist.
Proof.
  cbn [parseUncompressedLoop].
  now destruct (readBytesAtPosition file buffer total bufferSize).
Qed.

Lemma parseUncompressedLoop_in fuel : forall file buffer total tracklist result t,
  0 <= total ->
  parseUncompressedLoop fuel file buffer total tracklist = Some result ->
  In t result ->
  In t tracklist \/
  exists p, 0 <= p /\ p + 4 < Buffer.len file /\ mhitAt file p = true /\
            t = parseMhit file (p + 4) /\ JS.truthyStr (Track.track t) = true.
Proof.
  induction fuel as [|fuel IH]; intros file buffer total tracklist result t Ht Hrun Hin;
    [discriminate|].
  rewrite parseUncompressedLoop_S in Hrun. cbv zeta in Hrun.
  pose proof (mhitAt_window file buffer total bufferSize) as Hwin.
  pose proof (bytesRead_bound file buffer total bufferSize Ht) as Hbr.
  revert Hrun Hwin Hbr.
  generalize (fst (readBytesAtPosition file buffer total bufferSize)).
  generalize (snd (readBytesAtPosition file buffer total bufferSize)).
  intros bytesRead window Hrun Hwin Hbr.
  destruct Hbr as [Hnn Hbr].
  assert (Hscan : forall t,
             In t (searchMhitInBuffer window bytesRead tracklist file total) ->
             In t tracklist \/
             exists p, 0 <= p /\ p + 4 < Buffer.len file /\ mhitAt file p = true /\
                       t = parseMhit file (p + 4) /\
                       JS.truthyStr (Track.track t) = true).
  { intros t0 Ht0. unfold searchMhitInBuffer in Ht0.
    apply searchMhitLoop_in in Ht0.
    destruct Ht0 as [Ht0|(j & Hj & Hm & Heq & Hk)]; [now left|right].
    exists (total + j). rewrite <- Hwin by lia.
    repeat split; try assumption; try lia. }
  destruct (bytesRead <? bufferSize).
  - injection Hrun as <-. now apply Hscan.
  - apply (IH _ _ _ _ _ t) in Hrun; [|lia|assumption].
    destruct Hrun as [Hrun|Hrun]; [now apply Hscan|now right].
Qed.

(** The loop ends: a file of [n] bytes takes at most [n / bufferSize + 1]
    windows. *)
Lemma parseUncompressedLoop_total fuel : forall file buffer total tracklist,
  0 <= total ->
  Z.max 0 (Buffer.len file - total) < Z.of_nat fuel * bufferSize ->
  exists result, parseUncompressedLoop fuel file buffer total tracklist = Some result.
Proof.
  induction fuel as [|fuel IH]; intros file buffer total tracklist Ht Hfuel.
  - lia.
  - rewrite parseUncompressedLoop_S. cbv zeta.
    assert (Hsize : 0 < bufferSize) by reflexivity.
    pose proof (bytesRead_exact file buffer total bufferSize Ht (Z.lt_le_incl _ _ Hsize)) as Hbr.
    revert Hbr.
    generalize (fst (readBytesAtPosition file buffer total bufferSize)).
    generalize (snd (readBytesAtPosition file buffer total bufferSize)).
    intros bytesRead window Hbr.
    destruct (Z.ltb_spec bytesRead bufferSize); [eauto|].
    rewrite Nat2Z.inj_succ, Z.mul_succ_l in Hfuel.
    apply IH; lia.
Qed.

(** ** The in-memory decoder *)

Lemma jsstring_eqb_eq a b : jsstring_eqb a b = true <-> a = b.
Proof.
  unfold jsstring_eqb. destruct (list_eq_dec Z.eq_dec a b); split; congruence.
Qed.

Lemma u32_lor_nonneg b0 b1 b2 b3 :
  0 <= Z.lor (byteZ b0)
         (Z.lor (Z.shiftl (byteZ b1) 8)
            (Z.lor (Z.shiftl (byteZ b2) 16) (Z.shiftl (byteZ b3) 24))).
Proof.
  pose proof (byteZ_range b0). pose proof (byteZ_range b1).
  pose proof (byteZ_range b2). pose proof (byteZ_range b3).
  apply Z.lor_nonneg; split; [lia|].
  apply Z.lor_nonneg; split; [apply Z.shiftl_nonneg; lia|].
  apply Z.lor_nonneg; split; apply Z.shiftl_nonneg; lia.
Qed.

Lemma readUInt32LE_nonneg b v : Buffer.readUInt32LE b = Ok v -> 0 <= v.
Proof.
  destruct b as [|b0 [|b1 [|b2 [|b3 rest]]]]; try discriminate.
  unfold Buffer.readUInt32LE. intros H.
  pose proof (u32_lor_nonneg b0 b1 b2 b3) as Hnn.
  congruence.
Qed.

Lemma readAt_nonneg buffer pos v : readAt buffer pos = Ok v -> 0 <= v.
Proof. apply readUInt32LE_nonneg. Qed.

Lemma parseMhodFromBuffer_cases buffer mhodStart track :
  exists ty s size,
    parseMhodFromBuffer buffer mhodStart track = (assignString ty s track, size) \/
    parseMhodFromBuffer buffer mhodStart track = (track, size).
Proof.
  unfold parseMhodFromBuffer, parseMhodBody. cbv zeta.
  destruct (negb (jsstring_eqb _ str_mhod)); [exists 0, [], 4; now right|].
  destruct (readAt buffer (mhodStart + 4)) as [hs|]; cbn [bindExc];
    [|exists 0, [], 4; now right].
  destruct (readAt buffer (mhodStart + 4 + 4)) as [ts|]; cbn [bindExc];
    [|exists 0, [], 4; now right].
  destruct (readAt buffer (mhodStart + 4 + 4 + 4)) as [ty|]; cbn [bindExc];
    [|exists 0, [], 4; now right].
  destruct (Buffer.len buffer <? mhodStart + hs + 16); [exists 0, [], ts; now right|].
  destruct (readAt buffer (mhodStart + hs)) as [enc|]; cbn [bindExc];
    [|exists 0, [], 4; now right].
  destruct (readAt buffer (mhodStart + hs + 4)) as [len|]; cbn [bindExc];
    [|exists 0, [], 4; now right].
  match goal with
  | |- context [if ?c then _ else _] => destruct c
  end; [|exists 0, [], ts; now right].
  match goal with
  | |- context [stripNulls ?x] => exists ty, (stripNulls x), ts
  end.
  left. unfold assignString.
  destruct (ty =? 1); [reflexivity|].
  destruct (ty =? 3); [reflexivity|].
  destruct (ty =? 4); reflexivity.
Qed.

Lemma parseMhodFromBuffer_numbers buffer mhodStart track :
  sameNumbers track (fst (parseMhodFromBuffer buffer mhodStart track)).
Proof.
  destruct (parseMhodFromBuffer_cases buffer mhodStart track)
    as (ty & s & size & [E|E]); rewrite E; cbn [fst];
    [apply sameNumbers_assign | apply sameNumbers_refl].
Qed.

Lemma parseMhodLoop_numbers n : forall buffer mhodPos mhitEnd track,
  sameNumbers track (parseMhodLoop n buffer mhodPos mhitEnd track).
Proof.
  induction n as [|n IH]; intros buffer mhodPos mhitEnd track.
  - apply sameNumbers_refl.
  - cbn [parseMhodLoop]. destruct (mhodPos <? mhitEnd); [|apply sameNumbers_refl].
    pose proof (parseMhodFromBuffer_numbers buffer mhodPos track) as H.
    destruct (parseMhodFromBuffer buffer mhodPos track) as [t1 size].
    cbn [fst] in H. eapply sameNumbers_trans; [exact H|apply IH].
Qed.

(** The numeric fields of a track the in-memory decoder returns. *)
Lemma parseTrackFromBuffer_fields tz buffer p i t :
  parseTrackFromBuffer tz buffer p i = Some t ->
  exists len pc lp,
    readAt buffer (p + 0x28) = Ok len /\
    readAt buffer (p + 0x50) = Ok pc /\
    readAt buffer (p + 0x58) = Ok lp /\
    Track.length t = JNum len /\
    Track.playCount t = JNum pc /\
    Track.lastPlayed t = JNum (hfsToUnix (tz * 60) lp) /\
    Track.id t = i.
Proof.
  unfold parseTrackFromBuffer, parseTrackBody. cbv zeta.
  destruct (negb (jsstring_eqb _ str_mhit)); [discriminate|].
  destruct (readAt buffer (p + 4)) as [hs|]; cbn [bindExc]; [|discriminate].
  destruct (readAt buffer (p + 4 + 4)) as [ts|]; cbn [bindExc]; [|discriminate].
  destruct (readAt buffer (p + 4 + 4 + 4)) as [n|]; cbn [bindExc]; [|discriminate].
  destruct (readAt buffer (p + 4 + 4 + 4 + 4)) as [idv|]; cbn [bindExc]; [|discriminate].
  replace (p + 4 + 4 + 4 + 4 + 4 + 20) with (p + 0x28) by lia.
  destruct (readAt buffer (p + 0x28)) as [len|] eqn:Elen; cbn [bindExc]; [|discriminate].
  destruct (readAt buffer (p + 0x50)) as [pc|] eqn:Epc; cbn [bindExc]; [|discriminate].
  destruct (readAt buffer (p + 0x58)) as [lp|] eqn:Elp; cbn [bindExc]; [|discriminate].
  intros [= <-].
  match goal with
  | |- context [parseMhodLoop ?k ?b ?a ?e ?tr] =>
      destruct (parseMhodLoop_numbers k b a e tr) as (Hid & Hlen & Hpc & Hlp)
  end.
  exists len, pc, lp. rewrite Hid, Hlen, Hpc, Hlp. cbn [Track.id Track.length Track.playCount Track.lastPlayed].
  repeat split; try reflexivity.
  f_equal. unfold hfsToUnix. pose proof (readAt_nonneg _ _ _ Elp).
  destruct (Z.ltb_spec 0 lp), (Z.eqb_spec lp 0); lia.
Qed.

(** A string the in-memory decoder accepts is read as the specification
    says, and assigned by the type of the object. *)
Lemma parseMhodFromBuffer_accept buffer m hs ts ty enc len track :
  mhodAt buffer m hs ts ty enc len ->
  0 < len < 10000 -> 0 <= m + hs ->
  m + hs + 16 + len <= Buffer.len buffer ->
  parseMhodFromBuffer buffer m track =
  (assignString ty
     (readString (skipn (Z.to_nat (m + hs + 16)) buffer) len enc) track, ts).
Proof.
  intros (Hm & Hhs & Hts & Hty & Hfit & Henc & Hlen) Hr Hpos Hend.
  unfold parseMhodFromBuffer, parseMhodBody. cbv zeta.
  rewrite Hm. replace (jsstring_eqb str_mhod str_mhod) with true by reflexivity.
  cbn [negb]. rewrite Hhs. cbn [bindExc].
  replace (m + 4 + 4) with (m + 8) by lia. rewrite Hts. cbn [bindExc].
  replace (m + 8 + 4) with (m + 12) by lia. rewrite Hty. cbn [bindExc].
  destruct (Z.ltb_spec (Buffer.len buffer) (m + hs + 16)); [lia|].
  rewrite Henc. cbn [bindExc]. rewrite Hlen. cbn [bindExc].
  replace (m + hs + 4 + 4 + 8) with (m + hs + 16) by lia.
  destruct (Z.ltb_spec 0 len); [|lia].
  destruct (Z.ltb_spec len 10000); [|lia].
  destruct (Z.leb_spec (m + hs + 16 + len) (Buffer.len buffer)); [|lia].
  cbn [andb].
  assert (Hs : stripNulls
                 (if enc =? 1
                  then Buffer.toStringUtf16le buffer (m + hs + 16) (m + hs + 16 + len)
                  else Buffer.toStringUtf8 buffer (m + hs + 16) (m + hs + 16 + len)) =
               readString (skipn (Z.to_nat (m + hs + 16)) buffer) len enc).
  { unfold readString, Buffer.toStringUtf16le, Buffer.toStringUtf8, Buffer.slice.
    destruct (Z.leb_spec len 0); [lia|].
    destruct (Z.leb_spec 10000 len); [lia|]. cbn [orb]. cbv zeta.
    replace (Z.to_nat (m + hs + 16 + len - (m + hs + 16))) with (Z.to_nat len) by lia.
    reflexivity. }
  rewrite Hs. unfold assignString.
  destruct (ty =? 1); [reflexivity|].
  destruct (ty =? 3); [reflexivity|].
  destruct (ty =? 4); reflexivity.
Qed.

(** A declared length of 0, or of 10000 or more, leaves the track as it
    is; the decoder still advances by the total size. *)
Lemma parseMhodFromBuffer_reject buffer m hs ts ty enc len track :
  mhodAt buffer m hs ts ty enc len ->
  len <= 0 \/ 10000 <= len ->
  parseMhodFromBuffer buffer m track = (track, ts).
Proof.
  intros (Hm & Hhs & Hts & Hty & Hfit & Henc & Hlen) Hr.
  unfold parseMhodFromBuffer, parseMhodBody. cbv zeta.
  rewrite Hm. replace (jsstring_eqb str_mhod str_mhod) with true by reflexivity.
  cbn [negb]. rewrite Hhs. cbn [bindExc].
  replace (m + 4 + 4) with (m + 8) by lia. rewrite Hts. cbn [bindExc].
  replace (m + 8 + 4) with (m + 12) by lia. rewrite Hty. cbn [bindExc].
  destruct (Z.ltb_spec (Buffer.len buffer) (m + hs + 16)); [lia|].
  rewrite Henc. cbn [bindExc]. rewrite Hlen. cbn [bindExc].
  destruct (Z.ltb_spec 0 len), (Z.ltb_spec len 10000); try lia; reflexivity.
Qed.

(** ** The structured walk and the container *)

Lemma parseTrackListLoop_in tz n : forall i buffer pos acc t,
  In t (parseTrackListLoop tz n i buffer pos acc) ->
  In t acc \/
  exists k pos',
    (k < n)%nat /\ itemOffset buffer pos k = Some pos' /\
    parseTrackFromBuffer tz buffer pos' (i + Z.of_nat k) = Some t.
Proof.
  induction n as [|n IH]; intros i buffer pos acc t Hin; [now left|].
  cbn [parseTrackListLoop] in Hin.
  destruct (pos <? Buffer.len buffer) eqn:Hpos; [|now left].
  assert (Hacc : forall t0,
             In t0 (match parseTrackFromBuffer tz buffer pos i with
                    | Some t1 =>
                        if keepTrack (parseTrackFromBuffer tz buffer pos i)
                        then acc ++ [t1] else acc
                    | None => acc
                    end) ->
             In t0 acc \/ parseTrackFromBuffer tz buffer pos i = Some t0).
  { intros t0 H0. destruct (parseTrackFromBuffer tz buffer pos i) as [t1|]; [|now left].
    destruct (keepTrack (Some t1)); [|now left].
    apply in_app_or in H0. destruct H0 as [H0|[<-|[]]]; [now left|now right]. }
  assert (Hhere : forall t0,
             parseTrackFromBuffer tz buffer pos i = Some t0 ->
             exists k pos',
               (k < S n)%nat /\ itemOffset buffer pos k = Some pos' /\
               parseTrackFromBuffer tz buffer pos' (i + Z.of_nat k) = Some t0).
  { intros t0 H0. exists O, pos. cbn [itemOffset]. rewrite Hpos.
    replace (i + Z.of_nat 0) with i by lia. split; [lia|]. now split. }
  destruct (readAt buffer (pos + 8)) as [size|e] eqn:Hsize.
  - apply IH in Hin. destruct Hin as [Hin|(k & pos' & Hk & Hoff & Hparse)].
    + apply Hacc in Hin. destruct Hin as [Hin|Hin]; [now left|right; now apply Hhere].
    + right. exists (S k), pos'. cbn [itemOffset]. rewrite Hpos, Hsize.
      replace (i + Z.of_nat (S k)) with (i + 1 + Z.of_nat k) by lia.
      split; [lia|]. now split.
  - apply Hacc in Hin. destruct Hin as [Hin|Hin]; [now left|right; now apply Hhere].
Qed.

(** Every track of the structured walk was built in the round whose number
    is its id, from the item the walk had reached in that round. *)
Lemma parseTrackList_ids tz buffer startPos t :
  In t (parseTrackList tz buffer startPos) ->
  exists hs numTracks pos,
    readAt buffer (startPos + 4) = Ok hs /\
    readAt buffer (startPos + 8) = Ok numTracks /\
    0 <= Track.id t < numTracks /\
    itemOffset buffer (startPos + hs) (Z.to_nat (Track.id t)) = Some pos /\
    parseTrackFromBuffer tz buffer pos (Track.id t) = Some t.
Proof.
  unfold parseTrackList. cbv zeta.
  destruct (negb (jsstring_eqb _ str_mhlt)); [intros []|].
  destruct (readAt buffer (startPos + 4)) as [hs|] eqn:Hhs; [|intros []].
  replace (startPos + 4 + 4) with (startPos + 8) by lia.
  destruct (readAt buffer (startPos + 8)) as [numTracks|] eqn:Hn; [|intros []].
  intros Hin. apply parseTrackListLoop_in in Hin.
  destruct Hin as [[]|(k & pos & Hk & Hoff & Hparse)].
  pose proof (readAt_nonneg _ _ _ Hn) as Hnn.
  destruct (parseTrackFromBuffer_fields _ _ _ _ _ Hparse)
    as (_ & _ & _ & _ & _ & _ & _ & _ & _ & Hid).
  exists hs, numTracks, pos. rewrite Hid.
  replace (Z.to_nat (0 + Z.of_nat k)) with k by lia.
  repeat split; try assumption; lia.
Qed.

Lemma parseDecompressedLoop_result tz fuel : forall buffer pos tracklist,
  parseDecompressedLoop tz fuel buffer pos = Some tracklist ->
  tracklist = [] \/ exists mhltPos, tracklist = parseTrackList tz buffer mhltPos.
Proof.
  induction fuel as [|fuel IH]; intros buffer pos tracklist Hrun; [discriminate|].
  cbn [parseDecompressedLoop] in Hrun.
  destruct (pos <? Buffer.len buffer - 8); [|injection Hrun as <-; now left].
  destruct (jsstring_eqb _ str_mhsd); [|now apply IH in Hrun].
  destruct (readAt buffer (pos + 4)) as [hs|]; cbn [bindExc] in Hrun;
    [|injection Hrun as <-; now left].
  destruct (readAt buffer (pos + 8)) as [ts|]; cbn [bindExc] in Hrun;
    [|injection Hrun as <-; now left].
  destruct (readAt buffer (pos + 12)) as [ty|]; cbn [bindExc] in Hrun;
    [|injection Hrun as <-; now left].
  destruct (ty =? 1); [|now apply IH in Hrun].
  injection Hrun as <-. right. now exists (pos + hs).
Qed.

(** [parseCompressedItunesDb] without its buffers. *)
Lemma parseCompressedBody_eq tz inflateRaw fuel file :
  parseCompressedBody tz inflateRaw fuel file =
  if negb (jsstring_eqb (leadingTag file) str_mhbd) then Some (Ok [])
  else
    match inflateRaw (embeddedStream file) with
    | Some decompressed =>
        option_map Ok (parseDecompressedDatabase tz fuel decompressed)
    | None => Some (Throw InflateError)
    end.
Proof.
  unfold parseCompressedBody, leadingTag, embeddedStream. cbv zeta.
  assert (Hlen : forall pos,
             Buffer.len (fst (readBytesAtPosition file (Buffer.alloc 4) pos 4)) = 4).
  { intros pos. unfold Buffer.len. rewrite read_length; rewrite alloc_length; lia. }
  pose proof (Hlen 0) as H0.
  destruct (readBytesAtPosition file (Buffer.alloc 4) 0 4) as [headerBuffer r0].
  cbn [fst] in H0 |- *. rewrite H0.
  destruct (negb (jsstring_eqb _ str_mhbd)); [reflexivity|].
  pose proof (Hlen 4) as H4.
  destruct (readBytesAtPosition file (Buffer.alloc 4) 4 4) as [mhbdHeaderBuffer r1].
  cbn [fst] in H4 |- *.
  destruct (Buffer.readUInt32LE mhbdHeaderBuffer) as [size|e] eqn:Hsize.
  - pose proof (readUInt32LE_nonneg _ _ Hsize) as Hnn.
    pose proof (slice_window file (Buffer.alloc (50 * 1024 * 1024)) size
                  (50 * 1024 * 1024) 2
                  (snd (readBytesAtPosition file (Buffer.alloc (50 * 1024 * 1024))
                          size (50 * 1024 * 1024))) Hnn) as Hw.
    pose proof (bytesRead_exact file (Buffer.alloc (50 * 1024 * 1024)) size
                  (50 * 1024 * 1024) Hnn) as Hb.
    revert Hw Hb.
    generalize (readBytesAtPosition file (Buffer.alloc (50 * 1024 * 1024)) size
                  (50 * 1024 * 1024)).
    intros [compressedData bytesRead] Hw Hb. cbn [fst snd] in Hw, Hb.
    rewrite Hw by lia. rewrite Hb by lia.
    destruct (inflateRaw _); reflexivity.
  - destruct mhbdHeaderBuffer as [|b0 [|b1 [|b2 [|b3 rest]]]];
      try discriminate; unfold Buffer.len in H4; simpl in H4; lia.
Qed.

(** On a file of four bytes or more the tag the decoder tests is the text
    of the first four bytes. *)
Lemma leadingTag_file file :
  4 <= Buffer.len file -> leadingTag file = Buffer.toStringAscii file 0 4.
Proof.
  intros Hlen. unfold leadingTag.
  rewrite (read4_inside file (Buffer.alloc 4)) by (try apply alloc_length; lia).
  cbn [fst]. unfold Buffer.toStringAscii. f_equal.
  change (0 + 4) with 4. unfold Buffer.slice. cbn [Z.sub Z.to_nat Z.opp].
  cbn [skipn]. change (Z.to_nat (4 - 0)) with 4%nat.
  now rewrite firstn_firstn.
Qed.

(** The dataset scan does not end on every payload: a dataset that is not
    the track list and declares a total size of 0 holds [pos] in place, so
    no amount of fuel gives a result. *)
Lemma zero_size_dataset_loops tz fuel :
  parseDecompressedDatabase tz fuel Sample.stuckDb = None.
Proof.
  unfold parseDecompressedDatabase.
  induction fuel as [|fuel IH]; [reflexivity|].
  cbn [parseDecompressedLoop].
  replace (0 <? Buffer.len Sample.stuckDb - 8) with true by reflexivity.
  replace (jsstring_eqb (Buffer.toStringAscii Sample.stuckDb 0 (0 + 4)) str_mhsd)
    with true by reflexivity.
  replace (readAt Sample.stuckDb (0 + 4)) with (@Ok Z 16) by reflexivity.
  replace (readAt Sample.stuckDb (0 + 8)) with (@Ok Z 0) by reflexivity.
  replace (readAt Sample.stuckDb (0 + 12)) with (@Ok Z 2) by reflexivity.
  cbn [bindExc]. exact IH.
Qed.

(** ** Properties of the decoders *)

(** C1, as the code has it by design.  In the decode of a compressed
    database each track was built in the round of the structured walk whose
    number, from 0, is its sequence id, from the item the walk had reached
    in that round; the identifier stored in the item plays no part. *)
Theorem sequence_ids tz inflateRaw fuel file tracklist t :
  parseCompressedItunesDb tz inflateRaw fuel file = Some (Ok tracklist) ->
  In t tracklist ->
  exists buffer mhltPos hs numTracks pos,
    inflateRaw (embeddedStream file) = Some buffer /\
    readAt buffer (mhltPos + 4) = Ok hs /\
    readAt buffer (mhltPos + 8) = Ok numTracks /\
    0 <= Track.id t < numTracks /\
    itemOffset buffer (mhltPos + hs) (Z.to_nat (Track.id t)) = Some pos /\
    parseTrackFromBuffer tz buffer pos (Track.id t) = Some t.
Proof.
  intros Hrun Hin.
  unfold parseCompressedItunesDb in Hrun.
  rewrite parseCompressedBody_eq in Hrun.
  destruct (negb (jsstring_eqb (leadingTag file) str_mhbd)).
  { cbn in Hrun. injection Hrun as <-. destruct Hin. }
  destruct (inflateRaw (embeddedStream file)) as [buffer|] eqn:Hinf.
  2:{ cbn in Hrun. injection Hrun as <-. destruct Hin. }
  unfold parseDecompressedDatabase in Hrun.
  destruct (parseDecompressedLoop tz fuel buffer 0) as [l|] eqn:Hloop;
    [|discriminate].
  cbn in Hrun. injection Hrun as <-.
  apply parseDecompressedLoop_result in Hloop.
  destruct Hloop as [->|[mhltPos ->]]; [destruct Hin|].
  apply parseTrackList_ids in Hin.
  destruct Hin as (hs & numTracks & pos & H1 & H2 & H3 & H4 & H5).
  exists buffer, mhltPos, hs, numTracks, pos. repeat split; try assumption; lia.
Qed.

Lemma sequence_ids_witness :
  exists buffer mhltPos hs numTracks pos,
    Sample.inflateStored (embeddedStream Sample.compressedDb) = Some buffer /\
    readAt buffer (mhltPos + 4) = Ok hs /\
    readAt buffer (mhltPos + 8) = Ok numTracks /\
    0 <= Track.id Sample.decodedB < numTracks /\
    itemOffset buffer (mhltPos + hs) (Z.to_nat (Track.id Sample.decodedB)) = Some pos /\
    parseTrackFromBuffer 0 buffer pos (Track.id Sample.decodedB) = Some Sample.decodedB.
Proof.
  apply (sequence_ids 0 Sample.inflateStored 1%nat Sample.compressedDb
           [Sample.decodedA; Sample.decodedB] Sample.decodedB).
  - lazy. reflexivity.
  - simpl. right. left. reflexivity.
Defined.

(** C1 as it is worded fails on the compressed decoder: the two items of
    the compressed sample hold the identifiers 7 and 9, and the tracks come
    back with the ids 0 and 1. *)
Lemma sequence_ids_counterexample :
  option_map (fun buffer => (readAt buffer (28 + 16), readAt buffer (166 + 16)))
    (Sample.inflateStored (embeddedStream Sample.compressedDb)) =
  Some (Ok 7, Ok 9) /\
  option_map (fun r => map Track.id (tracksOf r))
    (parseCompressedItunesDb 0 Sample.inflateStored 1 Sample.compressedDb) =
  Some [0; 1].
Proof. split; lazy; reflexivity. Qed.

(** The file-backed decoder departs from its sibling: [parseMhit] keeps the
    identifier stored in the item, and the correlation looks the tracks up
    by entry index.  The sample database holds the identifiers 7 and 9; the
    Play Counts file credits its entry 0 with two plays, and the first
    track of the database gets none of them. *)
Example embedded_ids_miss_play_counts :
  option_map (map Track.id) (parseUncompressedItunesDb 1 Sample.uncompressedDb) =
  Some [7; 9] /\
  pcPlayCount SamplePlays.file 0 = 2 /\
  option_map (fun l => map Track.playCount (parsePlayCountsFile 0 SamplePlays.file l))
    (parseUncompressedItunesDb 1 Sample.uncompressedDb) =
  Some [JUndefined; JUndefined].
Proof. repeat split; lazy; reflexivity. Qed.

(** C2, as the code has it.  The decode of a compressed database whose
    leading tag is not [mhbd] raises nothing: the caller of [parseItunesDb]
    gets the empty track list.  The decode of a compressed database whose
    stream zlib rejects leaves the caller with no track at all. *)
Theorem compressed_container_failures tz inflateRaw fs fuel filePath file :
  fs filePath = Some file ->
  isCompressed filePath = true ->
  (leadingTag file <> str_mhbd ->
   parseItunesDb tz inflateRaw fs fuel filePath = Some (Ok [])) /\
  (inflateRaw (embeddedStream file) = None ->
   exists r,
     parseItunesDb tz inflateRaw fs fuel filePath = Some r /\ tracksOf r = []).
Proof.
  intros Hfile Hcdb. unfold parseItunesDb. rewrite Hfile, Hcdb.
  unfold parseCompressedItunesDb. rewrite parseCompressedBody_eq. split.
  - intros Htag.
    destruct (jsstring_eqb (leadingTag file) str_mhbd) eqn:E.
    + apply jsstring_eqb_eq in E. contradiction.
    + reflexivity.
  - intros Hinf. rewrite Hinf.
    destruct (negb (jsstring_eqb (leadingTag file) str_mhbd));
      eexists; split; reflexivity.
Qed.

Lemma compressed_container_failures_witness :
  parseItunesDb 0 Sample.inflateStored
    (SampleDevice.only SampleDevice.cdbPath Sample.badTagDb) 1
    SampleDevice.cdbPath = Some (Ok []) /\
  exists r,
    parseItunesDb 0 Sample.inflateStored
      (SampleDevice.only SampleDevice.cdbPath Sample.badStreamDb) 1
      SampleDevice.cdbPath = Some r /\
    tracksOf r = [].
Proof.
  split.
  - apply (proj1 (compressed_container_failures 0 Sample.inflateStored
                    (SampleDevice.only SampleDevice.cdbPath Sample.badTagDb) 1
                    SampleDevice.cdbPath Sample.badTagDb eq_refl eq_refl)).
    lazy. discriminate.
  - apply (proj2 (compressed_container_failures 0 Sample.inflateStored
                    (SampleDevice.only SampleDevice.cdbPath Sample.badStreamDb) 1
                    SampleDevice.cdbPath Sample.badStreamDb eq_refl eq_refl)).
    lazy. reflexivity.
Defined.

(** C2 as it is worded fails: a file whose tag is [mhsd], and a file whose
    stream opens with a reserved block type, both come back from
    [parseItunesDb] as a normal return of the empty list, not as an
    error. *)
Lemma compressed_container_counterexample :
  Buffer.toStringAscii Sample.badTagDb 0 4 <> str_mhbd /\
  parseItunesDb 0 Sample.inflateStored
    (SampleDevice.only SampleDevice.cdbPath Sample.badTagDb) 1
    SampleDevice.cdbPath = Some (Ok []) /\
  Sample.inflateStored (embeddedStream Sample.badStreamDb) = None /\
  parseItunesDb 0 Sample.inflateStored
    (SampleDevice.only SampleDevice.cdbPath Sample.badStreamDb) 1
    SampleDevice.cdbPath = Some (Ok []).
Proof.
  split; [lazy; discriminate|]. repeat split; lazy; reflexivity.
Qed.

(** C6, as the code has it.  From the start [p] of a track item: the
    file-backed decoder takes the identifier from [p + 16] and the length
    from [p + 0x28], and reads no play count and no last-played time; the
    in-memory decoder takes the length from [p + 0x28], the play count from
    [p + 0x50] and the last-played time, converted, from [p + 0x58], and
    gives the track the index it was called with as its id. *)
Theorem mhit_field_offsets :
  (forall file p,
      0 <= p -> p + 44 <= Buffer.len file ->
      Track.id (parseMhit file (p + 4)) = u32At file (p + 16) /\
      Track.length (parseMhit file (p + 4)) = JNum (u32At file (p + 0x28)) /\
      Track.playCount (parseMhit file (p + 4)) = JUndefined /\
      Track.lastPlayed (parseMhit file (p + 4)) = JUndefined) /\
  (forall tz buffer p i t,
      parseTrackFromBuffer tz buffer p i = Some t ->
      exists len pc lp,
        readAt buffer (p + 0x28) = Ok len /\
        readAt buffer (p + 0x50) = Ok pc /\
        readAt buffer (p + 0x58) = Ok lp /\
        Track.length t = JNum len /\
        Track.playCount t = JNum pc /\
        Track.lastPlayed t = JNum (hfsToUnix (tz * 60) lp) /\
        Track.id t = i).
Proof.
  split.
  - intros file p Hp Hlen.
    split; [apply parseMhit_id; lia|].
    split; [now apply parseMhit_length|].
    apply parseMhit_no_plays.
  - apply parseTrackFromBuffer_fields.
Qed.

Lemma mhit_field_offsets_witness :
  (Track.id (parseMhit Sample.uncompressedDb (0 + 4)) = u32At Sample.uncompressedDb (0 + 16) /\
   Track.length (parseMhit Sample.uncompressedDb (0 + 4)) =
   JNum (u32At Sample.uncompressedDb (0 + 0x28)) /\
   Track.playCount (parseMhit Sample.uncompressedDb (0 + 4)) = JUndefined /\
   Track.lastPlayed (parseMhit Sample.uncompressedDb (0 + 4)) = JUndefined) /\
  (exists len pc lp,
      readAt Sample.inflatedDb (28 + 0x28) = Ok len /\
      readAt Sample.inflatedDb (28 + 0x50) = Ok pc /\
      readAt Sample.inflatedDb (28 + 0x58) = Ok lp /\
      Track.length Sample.decodedA = JNum len /\
      Track.playCount Sample.decodedA = JNum pc /\
      Track.lastPlayed Sample.decodedA = JNum (hfsToUnix (0 * 60) lp) /\
      Track.id Sample.decodedA = 0).
Proof.
  split.
  - apply (proj1 mhit_field_offsets Sample.uncompressedDb 0).
    + lia.
    + lazy. discriminate.
  - apply (proj2 mhit_field_offsets 0 Sample.inflatedDb 28 0 Sample.decodedA).
    lazy. reflexivity.
Defined.

(** C6 as it is worded fails on the identifier: the item of the sample
    holds 1 at +12 (its count of metadata objects) and 7 at +16, and the
    decoder returns the id 7.  It fails on the play data of the
    file-backed decoder too: the item holds 3 at +0x50 and the track comes
    back with no play count. *)
Lemma mhit_field_offsets_counterexample :
  u32At Sample.uncompressedDb (0 + 12) = 1 /\
  u32At Sample.uncompressedDb (0 + 16) = 7 /\
  Track.id (parseMhit Sample.uncompressedDb (0 + 4)) = 7 /\
  u32At Sample.uncompressedDb (0 + 0x50) = 3 /\
  Track.playCount (parseMhit Sample.uncompressedDb (0 + 4)) = JUndefined.
Proof. repeat split; lazy; reflexivity. Qed.

(** C7, on the file-backed decoder.  A title stored as the UTF-8 bytes
    "AB" under the encoding code 2 is returned as the single code unit
    0x4241, and a UTF-16LE title with a null code unit keeps it, where
    [readString] gives "AB" and "A"; the in-memory decoder returns "AB" and
    "A" for the same two items. *)
Theorem file_backed_strings :
  Track.track (parseMhit Sample.utf8TitleDb 4) = Some [0x4241] /\
  readString [x41; x42] 2 2 = [65; 66] /\
  option_map Track.track (parseTrackFromBuffer 0 Sample.utf8TitleDb 0 0) =
  Some (Some [65; 66]) /\
  Track.track (parseMhit Sample.nulTitleDb 4) = Some [65; 0] /\
  readString [x41; x00; x00; x00] 4 1 = [65] /\
  option_map Track.track (parseTrackFromBuffer 0 Sample.nulTitleDb 0 0) =
  Some (Some [65]).
Proof. repeat split; lazy; reflexivity. Qed.

(** ** The history *)

Lemma insertSorted_perm x l : Permutation (insertSorted x l) (x :: l).
Proof.
  induction l as [|y l IH]; cbn [insertSorted]; [reflexivity|].
  destruct (JS.gt0 (compareLastPlayed x y)); [|reflexivity].
  rewrite IH. apply perm_swap.
Qed.

Lemma sortByLastPlayed_perm l : Permutation (sortByLastPlayed l) l.
Proof.
  induction l as [|x l IH]; cbn [sortByLastPlayed fold_right]; [reflexivity|].
  fold (sortByLastPlayed l). rewrite insertSorted_perm. now constructor.
Qed.

Lemma newerFirst_trans a b c : newerFirst a b -> newerFirst b c -> newerFirst a c.
Proof.
  intros (x & y & Hx & Hy & Hxy) (y' & z & Hy' & Hz & Hyz).
  exists x, z. repeat split; try assumption. rewrite Hy in Hy'.
  injection Hy' as <-. lia.
Qed.

Lemma insertSorted_sorted x l :
  stamped x -> Forall stamped l ->
  StronglySorted newerFirst l -> StronglySorted newerFirst (insertSorted x l).
Proof.
  intros [vx Hx] Hall Hs.
  induction l as [|y l IH]; cbn [insertSorted].
  - constructor; constructor.
  - inversion Hall as [|? ? [vy Hy] Hall']; subst.
    apply StronglySorted_inv in Hs. destruct Hs as [Hs Hy_all].
    unfold compareLastPlayed. rewrite Hx, Hy. cbn [JS.sub JS.gt0].
    destruct (Z.ltb_spec 0 (vy - vx)) as [Hlt|Hge].
    + constructor; [now apply IH|].
      rewrite (insertSorted_perm x l). constructor; [|assumption].
      exists vy, vx. repeat split; try assumption. lia.
    + assert (Hxy : newerFirst x y).
      { exists vx, vy. repeat split; try assumption. lia. }
      constructor; [now constructor|].
      constructor; [assumption|].
      eapply Forall_impl; [|exact Hy_all].
      intros z Hz. now apply (newerFirst_trans x y z).
Qed.

Lemma sortByLastPlayed_sorted l :
  Forall stamped l -> StronglySorted newerFirst (sortByLastPlayed l).
Proof.
  induction 1 as [|x l Hx Hall IH]; cbn [sortByLastPlayed fold_right];
    [constructor|].
  fold (sortByLastPlayed l). apply insertSorted_sorted; try assumption.
  now rewrite sortByLastPlayed_perm.
Qed.

Lemma played_gt0 t :
  played t = true <-> exists n, Track.playCount t = JNum n /\ 0 < n.
Proof.
  unfold played. destruct (Track.playCount t) as [| |n]; cbn.
  - split; [discriminate|]. now intros (n & H & _).
  - split; [discriminate|]. now intros (n & H & _).
  - destruct (Z.eqb_spec n 0), (Z.ltb_spec 0 n); cbn; split;
      try discriminate; try lia; try (intros (m & [= <-] & Hm); lia).
    all: intros _; exists n; split; [reflexivity|lia].
Qed.

(** Every decoder hands over tracks whose play counts come with a time. *)
Lemma uncompressed_playsStamped fuel file tracklist :
  parseUncompressedItunesDb fuel file = Some tracklist ->
  Forall playsStamped tracklist.
Proof.
  intros Hrun. apply Forall_forall. intros t Hin.
  unfold parseUncompressedItunesDb in Hrun.
  destruct (parseUncompressedLoop_in fuel file _ 0 [] tracklist t
              (Z.le_refl 0) Hrun Hin) as [[]|(p & _ & _ & _ & -> & _)].
  destruct (parseMhit_no_plays file (p + 4)) as [Hpc _].
  unfold playsStamped. rewrite Hpc. discriminate.
Qed.

Lemma compressed_playsStamped tz inflateRaw fuel file tracklist :
  parseCompressedItunesDb tz inflateRaw fuel file = Some (Ok tracklist) ->
  Forall playsStamped tracklist.
Proof.
  intros Hrun. apply Forall_forall. intros t Hin _.
  unfold parseCompressedItunesDb in Hrun.
  rewrite parseCompressedBody_eq in Hrun.
  destruct (negb (jsstring_eqb (leadingTag file) str_mhbd)).
  { cbn in Hrun. injection Hrun as <-. destruct Hin. }
  destruct (inflateRaw (embeddedStream file)) as [buffer|].
  2:{ cbn in Hrun. injection Hrun as <-. destruct Hin. }
  unfold parseDecompressedDatabase in Hrun.
  destruct (parseDecompressedLoop tz fuel buffer 0) as [l|] eqn:Hloop;
    [|discriminate].
  cbn in Hrun. injection Hrun as <-.
  apply parseDecompressedLoop_result in Hloop.
  destruct Hloop as [->|[mhltPos ->]]; [destruct Hin|].
  apply parseTrackList_ids in Hin.
  destruct Hin as (_ & _ & pos & _ & _ & _ & _ & Hparse).
  destruct (parseTrackFromBuffer_fields _ _ _ _ _ Hparse)
    as (_ & _ & lp & _ & _ & _ & _ & _ & Hlp & _).
  now exists (hfsToUnix (tz * 60) lp).
Qed.

Lemma parsePlayCounts_playsStamped tz fs filePath tracklist :
  Forall playsStamped tracklist ->
  Forall playsStamped (parsePlayCounts tz fs filePath tracklist).
Proof.
  intros Hall. unfold parsePlayCounts.
  destruct (fs filePath) as [file|]; [|assumption].
  pose proof (parsePlayCountsFile_frame tz file tracklist) as H.
  induction H as [|t t' l l' [_ Hc] _ IH]; [constructor|].
  inversion Hall; subst. constructor; [|now apply IH].
  destruct Hc as [->|(_ & pc & lp & _ & _ & Hlp)]; [assumption|].
  intros _. now exists lp.
Qed.

Lemma parse_playsStamped tz inflateRaw fs fuel iTunesDbPath playCountsPath tracklist :
  parse tz inflateRaw fs fuel iTunesDbPath playCountsPath = Some (Ok tracklist) ->
  Forall playsStamped tracklist.
Proof.
  unfold parse, parseItunesDb.
  destruct (fs iTunesDbPath) as [handler|]; [|discriminate].
  destruct (isCompressed iTunesDbPath).
  - destruct (parseCompressedItunesDb tz inflateRaw fuel handler) as [[l|e]|] eqn:E;
      try discriminate.
    cbn [negb]. intros [= <-]. now apply compressed_playsStamped in E.
  - destruct (parseUncompressedItunesDb fuel handler) as [l|] eqn:E;
      [|discriminate].
    cbn [option_map negb]. intros [= <-].
    apply parsePlayCounts_playsStamped. now apply uncompressed_playsStamped in E.
Qed.

(** C8.  What [getRecentTracks] returns is a rearrangement of the decoded
    tracks that count at least one play: every entry has a play count that
    is a number above 0, so no track with a play count of 0 (or with none)
    is in it; and the entries are in descending order of their last-played
    time, each entry no older than every entry after it. *)
Theorem recent_tracks_sorted tz inflateRaw fs access fuel path recentPlays :
  getRecentTracks tz inflateRaw fs access fuel path = Some (Ok recentPlays) ->
  (forall entry, In entry recentPlays ->
                 exists n, Track.playCount entry = JNum n /\ 0 < n) /\
  StronglySorted newerFirst recentPlays /\
  exists tracklist,
    parse tz inflateRaw fs fuel (findItunesDbFile access path)
      (String.append path name_PlayCounts) = Some (Ok tracklist) /\
    Permutation recentPlays (filter played tracklist).
Proof.
  unfold getRecentTracks. cbv zeta.
  destruct (parse tz inflateRaw fs fuel (findItunesDbFile access path)
              (String.append path name_PlayCounts)) as [[tracklist|e]|] eqn:Hparse;
    try discriminate.
  intros [= <-]. fold played.
  change (fun entry : Track.t =>
            JS.truthy (Track.playCount entry) && JS.gt0 (Track.playCount entry))
    with played.
  pose proof (parse_playsStamped _ _ _ _ _ _ _ Hparse) as Hinv.
  assert (Hstamped : Forall stamped (filter played tracklist)).
  { apply Forall_forall. intros t Ht. apply filter_In in Ht.
    destruct Ht as [Hin Hp]. rewrite Forall_forall in Hinv.
    apply (Hinv t Hin). unfold played in Hp.
    now apply andb_true_iff in Hp. }
  split; [|split].
  - intros entry Hin.
    apply (Permutation_in _ (sortByLastPlayed_perm _)) in Hin.
    apply filter_In in Hin. now apply played_gt0.
  - now apply sortByLastPlayed_sorted.
  - exists tracklist. split; [reflexivity|]. apply sortByLastPlayed_perm.
Qed.

Lemma recent_tracks_sorted_witness :
  (forall entry, In entry SampleDevice.history ->
                 exists n, Track.playCount entry = JNum n /\ 0 < n) /\
  StronglySorted newerFirst SampleDevice.history /\
  exists tracklist,
    parse 0 Sample.inflateStored SampleDevice.fs 1
      (findItunesDbFile (SampleDevice.present SampleDevice.fs) SampleDevice.mount)
      (String.append SampleDevice.mount name_PlayCounts) = Some (Ok tracklist) /\
    Permutation SampleDevice.history (filter played tracklist).
Proof.
  apply (recent_tracks_sorted 0 Sample.inflateStored SampleDevice.fs
           (SampleDevice.present SampleDevice.fs) 1
           SampleDevice.mount SampleDevice.history).
  lazy. reflexivity.
Defined.

(** ** More on the expander *)

Lemma eventsOf_meta tr :
  Forall (fun e => sameMeta tr e /\ Track.playCount e = JNum 1) (eventsOf tr).
Proof.
  unfold eventsOf. apply Forall_forall. intros e He.
  apply in_map_iff in He. destruct He as (i & <- & _).
  split; [apply sameMeta_setPlays|reflexivity].
Qed.

(** X15.  Every event the expander emits is one of the input tracks with its
    title, artist, album, id and length untouched and its play count set
    to 1: the expander invents no track and edits no descriptive field. *)
Theorem expander_events_keep_metadata tracklist :
  Forall (fun e =>
            exists tr, In tr tracklist /\ sameMeta tr e /\
                       Track.playCount e = JNum 1)
         (expandTracksByPlayCount tracklist).
Proof.
  rewrite expand_flat_map. apply Forall_forall. intros e He.
  apply in_flat_map in He. destruct He as (tr & Hin & He).
  pose proof (eventsOf_meta tr) as H. rewrite Forall_forall in H.
  destruct (H e He) as [Hm Hp]. exists tr. auto.
Qed.

Lemma eventsOf_length_played tr :
  played tr = true ->
  Z.of_nat (List.length (eventsOf tr)) =
  match Track.playCount tr with JNum n => n | _ => 0 end.
Proof.
  intros Hp. apply played_gt0 in Hp. destruct Hp as (n & Hn & Hpos).
  unfold eventsOf. rewrite length_map, length_seq, Hn.
  unfold JS.or. cbn [JS.truthy]. destruct (Z.eqb_spec n 0); [lia|].
  cbn [negb JS.iterations]. lia.
Qed.

Lemma expander_event_count_aux tracklist :
  Forall (fun t => played t = true) tracklist ->
  Z.of_nat (List.length (expandTracksByPlayCount tracklist)) = totalPlays tracklist.
Proof.
  induction 1 as [|tr l Hp _ IH]; [reflexivity|].
  rewrite expand_cons, length_app, Nat2Z.inj_add, IH.
  rewrite (eventsOf_length_played tr Hp).
  cbn [totalPlays fold_right]. fold (totalPlays l).
  apply played_gt0 in Hp. destruct Hp as (n & -> & _). reflexivity.
Qed.

(** X16.  For tracks that all count at least one play, the expander emits as
    many events as the tracks count plays in all. *)
Theorem expander_event_count tracklist :
  Forall (fun t => played t = true) tracklist ->
  Z.of_nat (List.length (expandTracksByPlayCount tracklist)) = totalPlays tracklist.
Proof. apply expander_event_count_aux. Qed.

Lemma expander_event_count_witness :
  Z.of_nat (List.length (expandTracksByPlayCount
                           [Sample.played3; Sample.decodedA])) =
  totalPlays [Sample.played3; Sample.decodedA].
Proof.
  apply (expander_event_count [Sample.played3; Sample.decodedA]).
  repeat constructor.
Defined.

Lemma eventsOf_notAfter tr t :
  Track.lastPlayed tr = JNum t ->
  (forall L, Track.length tr = JNum L -> 0 <= L) ->
  Forall (notAfter t) (eventsOf tr).
Proof.
  intros Ht HL. unfold eventsOf. rewrite effectiveLength_or, Ht.
  apply Forall_forall. intros e He. apply in_map_iff in He.
  destruct He as (i & <- & _). cbn.
  eexists. split; [reflexivity|].
  assert (0 <= effectiveLength (Track.length tr) / 1000).
  { apply Z.div_pos; [|lia]. unfold effectiveLength.
    destruct (Track.length tr) as [| |L] eqn:E; try lia.
    specialize (HL L eq_refl). destruct (L =? 0); lia. }
  nia.
Qed.

(** X17.  No synthetic play is dated after the real one: for a track last played
    at [t] whose length is absent or not negative, every event of its
    expansion carries a time that is a number no later than [t]. *)
Theorem expander_never_postdates before tr after t :
  Track.lastPlayed tr = JNum t ->
  (forall L, Track.length tr = JNum L -> 0 <= L) ->
  exists events,
    expandTracksByPlayCount (before ++ tr :: after) =
    expandTracksByPlayCount before ++ events ++ expandTracksByPlayCount after /\
    Forall (notAfter t) events.
Proof.
  intros Ht HL. exists (eventsOf tr). split; [apply expand_middle|].
  now apply eventsOf_notAfter.
Qed.

Lemma expander_never_postdates_witness :
  exists events,
    expandTracksByPlayCount ([] ++ Sample.played3 :: []) =
    expandTracksByPlayCount [] ++ events ++ expandTracksByPlayCount [] /\
    Forall (notAfter 1000) events.
Proof.
  apply (expander_never_postdates [] Sample.played3 [] 1000).
  - reflexivity.
  - intros L H. injection H as <-. lia.
Defined.

(** X18.  The default of 180 s guards only a length of 0: a track whose length is
    between 1 and 999 ms has a spacing of [floor(L / 1000) = 0] seconds, so
    all its [n] events carry the one time [t]. *)
Theorem expander_subsecond_length before tr after n t L :
  Track.playCount tr = JNum n -> 0 < n ->
  Track.lastPlayed tr = JNum t ->
  Track.length tr = JNum L -> 0 < L < 1000 ->
  expandTracksByPlayCount (before ++ tr :: after) =
  expandTracksByPlayCount before
    ++ repeat (Track.setPlays (JNum 1) (JNum t) tr) (Z.to_nat n)
    ++ expandTracksByPlayCount after.
Proof.
  intros Hn Hpos Ht HL Hr. rewrite expand_middle. do 2 f_equal.
  rewrite (eventsOf_played tr n t Hn Hpos Ht).
  unfold eventAt. rewrite HL. unfold effectiveLength.
  destruct (Z.eqb_spec L 0); [lia|].
  rewrite (Z.div_small L 1000) by lia.
  generalize (Z.to_nat n). intros k. generalize 0%nat.
  induction k as [|k IH]; intros s; [reflexivity|].
  cbn [seq map repeat]. rewrite IH. do 4 f_equal. lia.
Qed.

(** ** The two integer readers *)

Lemma land_low_high a m k :
  0 <= k -> 0 <= a < 2 ^ k -> Z.land a (m * 2 ^ k) = 0.
Proof.
  intros Hk Ha. apply Z.bits_inj'. intros n Hn.
  rewrite Z.land_spec, Z.bits_0.
  destruct (Z.lt_ge_cases n k) as [Hlt|Hge].
  - rewrite (Z.mul_pow2_bits_low m k n Hlt). apply andb_false_r.
  - assert (Z.testbit a n = false) as ->; [|reflexivity].
    destruct (Z.eq_dec a 0) as [->|Hne]; [apply Z.bits_0|].
    apply Z.bits_above_log2; [lia|].
    assert (Z.log2 a < k) by (apply Z.log2_lt_pow2; lia). lia.
Qed.

Lemma lor_low_high a m k :
  0 <= k -> 0 <= a < 2 ^ k -> Z.lor a (m * 2 ^ k) = a + m * 2 ^ k.
Proof.
  intros Hk Ha. pose proof (land_low_high a m k Hk Ha) as H0.
  rewrite <- (Z.lxor_lor _ _ H0). symmetry. now apply Z.add_nocarry_lxor.
Qed.

Lemma u32_lor_value b0 b1 b2 b3 :
  Z.lor (byteZ b0)
    (Z.lor (Z.shiftl (byteZ b1) 8)
       (Z.lor (Z.shiftl (byteZ b2) 16) (Z.shiftl (byteZ b3) 24))) =
  littleEndianToBigInt [b0; b1; b2; b3].
Proof.
  pose proof (byteZ_range b0). pose proof (byteZ_range b1).
  pose proof (byteZ_range b2). pose proof (byteZ_range b3).
  rewrite !littleEndian_cons.
  replace (littleEndianToBigInt []) with 0 by reflexivity.
  rewrite !Z.shiftl_mul_pow2 by lia.
  rewrite (lor_low_high (byteZ b2 * 2 ^ 16) (byteZ b3) 24) by lia.
  replace (byteZ b2 * 2 ^ 16 + byteZ b3 * 2 ^ 24)
    with ((byteZ b2 + byteZ b3 * 2 ^ 8) * 2 ^ 16) by lia.
  rewrite (lor_low_high (byteZ b1 * 2 ^ 8) _ 16) by lia.
  replace (byteZ b1 * 2 ^ 8 + (byteZ b2 + byteZ b3 * 2 ^ 8) * 2 ^ 16)
    with ((byteZ b1 + byteZ b2 * 2 ^ 8 + byteZ b3 * 2 ^ 16) * 2 ^ 8) by lia.
  rewrite (lor_low_high (byteZ b0) _ 8) by lia.
  lia.
Qed.

Lemma littleEndian_4_range b0 b1 b2 b3 :
  0 <= littleEndianToBigInt [b0; b1; b2; b3] < 2 ^ 32.
Proof.
  pose proof (byteZ_range b0). pose proof (byteZ_range b1).
  pose proof (byteZ_range b2). pose proof (byteZ_range b3).
  rewrite !littleEndian_cons.
  replace (littleEndianToBigInt []) with 0 by reflexivity. lia.
Qed.

Lemma littleEndian_range4 bs :
  List.length bs = 4%nat -> 0 <= littleEndianToBigInt bs < 2 ^ 32.
Proof.
  destruct bs as [|b0 [|b1 [|b2 [|b3 [|b4 rest]]]]]; try discriminate.
  intros _. apply littleEndian_4_range.
Qed.

Lemma readUInt32LE_littleEndian bs :
  List.length bs = 4%nat ->
  Buffer.readUInt32LE bs = Ok (littleEndianToBigInt bs).
Proof.
  destruct bs as [|b0 [|b1 [|b2 [|b3 [|b4 rest]]]]]; try discriminate.
  intros _. unfold Buffer.readUInt32LE. f_equal. apply u32_lor_value.
Qed.

Lemma readUInt32LE_short bs :
  (List.length bs < 4)%nat -> Buffer.readUInt32LE bs = Throw RangeError.
Proof.
  destruct bs as [|b0 [|b1 [|b2 [|b3 rest]]]]; simpl; try reflexivity; lia.
Qed.

Lemma readAt_inside buffer pos :
  0 <= pos -> pos + 4 <= Buffer.len buffer ->
  readAt buffer pos = Ok (u32At buffer pos).
Proof.
  intros Hp Hl. unfold readAt, u32At.
  apply readUInt32LE_littleEndian. rewrite slice_length; lia.
Qed.

Lemma readAt_outside buffer pos :
  0 <= pos -> Buffer.len buffer < pos + 4 ->
  readAt buffer pos = Throw RangeError.
Proof.
  intros Hp Hl. unfold readAt. apply readUInt32LE_short.
  unfold Buffer.slice, Buffer.len in *.
  rewrite length_firstn, length_skipn. lia.
Qed.

Lemma readAt_range buffer pos v : readAt buffer pos = Ok v -> 0 <= v < 2 ^ 32.
Proof.
  unfold readAt.
  destruct (Buffer.slice buffer pos (pos + 4)) as [|b0 [|b1 [|b2 [|b3 rest]]]] eqn:E;
    try discriminate.
  unfold Buffer.readUInt32LE. intros H.
  pose proof (u32_lor_value b0 b1 b2 b3) as Hv.
  pose proof (littleEndian_4_range b0 b1 b2 b3).
  assert (v = littleEndianToBigInt [b0; b1; b2; b3]) by congruence.
  lia.
Qed.

(** X1.  The two readers of the code agree.  Where four bytes are there, the
    [readUInt32LE] of the in-memory decoder and the [littleEndianToBigInt]
    of the file-backed one give the same unsigned 32-bit value; where they
    are not, the in-memory read throws a [RangeError]. *)
Theorem integer_readers_agree buffer pos :
  0 <= pos ->
  (pos + 4 <= Buffer.len buffer ->
   readAt buffer pos = Ok (u32At buffer pos) /\ 0 <= u32At buffer pos < 2 ^ 32) /\
  (Buffer.len buffer < pos + 4 -> readAt buffer pos = Throw RangeError).
Proof.
  intros Hp. split.
  - intros Hl. split; [now apply readAt_inside|].
    unfold u32At. apply littleEndian_range4. rewrite slice_length; lia.
  - now apply readAt_outside.
Qed.

(** ** More on the Play Counts correlation *)

Lemma read_past_end file buffer pos n :
  0 <= pos -> Buffer.len file <= pos ->
  readBytesAtPosition file buffer pos n = (buffer, 0).
Proof.
  intros Hp Hl. unfold readBytesAtPosition.
  rewrite (skipn_all2 file) by (unfold Buffer.len in Hl; lia).
  now rewrite firstn_nil.
Qed.

Lemma correlateRange_id tz file a b t :
  Track.id (correlateRange tz file a b t) = Track.id t.
Proof.
  unfold correlateRange. cbv zeta.
  now destruct ((a <=? Track.id t) && (Track.id t <? b)
                && (0 <? pcPlayCount file (Track.id t))).
Qed.

Lemma correlate_idem tz file t :
  correlate tz file (correlate tz file t) = correlate tz file t.
Proof.
  unfold correlate, correlateRange. cbv zeta.
  destruct ((0 <=? Track.id t) && (Track.id t <? pcNumEntries file - 1)
            && (0 <? pcPlayCount file (Track.id t))) eqn:E; [|now rewrite E].
  rewrite !id_setPlays, E. reflexivity.
Qed.

(** X13.  Running the correlation a second time changes nothing: on a complete
    file and distinct ids, the list after two runs is the list after
    one. *)
Theorem play_counts_idempotent tz file tracklist :
  pcComplete file ->
  NoDup (map Track.id tracklist) ->
  parsePlayCountsFile tz file (parsePlayCountsFile tz file tracklist) =
  parsePlayCountsFile tz file tracklist.
Proof.
  intros Hc Hnd.
  rewrite (parsePlayCountsFile_exact tz file tracklist Hc Hnd).
  rewrite parsePlayCountsFile_exact; [|assumption|].
  - rewrite map_map. apply map_ext. intros t. apply correlate_idem.
  - rewrite map_map. erewrite map_ext; [exact Hnd|].
    intros t. apply correlateRange_id.
Qed.

(** X14.  The loop stops one short of the declared entry count: a track whose id
    is [numEntries - 1] or more comes back as it was, whatever the file
    holds at that index. *)
Theorem play_counts_last_entry_unused tz file tracklist t :
  pcComplete file ->
  NoDup (map Track.id tracklist) ->
  In t tracklist ->
  pcNumEntries file - 1 <= Track.id t ->
  In t (parsePlayCountsFile tz file tracklist).
Proof.
  intros Hc Hnd Hin Hid.
  rewrite (parsePlayCountsFile_exact tz file tracklist Hc Hnd).
  apply in_map_iff. exists t. split; [|assumption].
  unfold correlate, correlateRange. cbv zeta.
  destruct (Z.ltb_spec (Track.id t) (pcNumEntries file - 1)); [lia|].
  now rewrite andb_false_r.
Qed.

Section Truncated.

Variable tz : Z.
Variable file : list byte.
Variable entryLen : Z.
Hypothesis entryLen_nonneg : 0 <= entryLen.


End Truncated.


(** ** The offsets the marker scan reaches *)

Lemma bufferSize_pos : 0 < bufferSize.
Proof. reflexivity. Qed.

Lemma windowOf_inside k p :
  bufferSize * k <= p < bufferSize * k + bufferSize -> windowOf p = bufferSize * k.
Proof.
  intros Hp. unfold windowOf. f_equal. symmetry.
  apply (Z.div_unique p bufferSize k (p - bufferSize * k)).
  - left. lia.
  - lia.
Qed.

Lemma searchMhitLoop_mono n : forall i buffer tracklist file offset t,
  In t tracklist -> In t (searchMhitLoop n i buffer tracklist file offset).
Proof.
  induction n as [|n IH]; intros i buffer tracklist file offset t Hin; [assumption|].
  cbn [searchMhitLoop]. apply IH.
  destruct (mhitAt buffer i); [|assumption].
  destruct (JS.truthyStr _); [|assumption].
  apply in_or_app. now left.
Qed.

Lemma searchMhitLoop_complete n : forall i buffer tracklist file offset j,
  i <= j < i + Z.of_nat n ->
  mhitAt buffer j = true ->
  JS.truthyStr (Track.track (parseMhit file (offset + j + 4))) = true ->
  In (parseMhit file (offset + j + 4))
     (searchMhitLoop n i buffer tracklist file offset).
Proof.
  induction n as [|n IH]; intros i buffer tracklist file offset j Hj Hm Hk; [lia|].
  cbn [searchMhitLoop].
  destruct (Z.eq_dec j i) as [->|Hne].
  - rewrite Hm, Hk. apply searchMhitLoop_mono. apply in_or_app. right. now left.
  - apply IH; try assumption. lia.
Qed.

Lemma parseUncompressedLoop_mono fuel : forall file buffer total tracklist result t,
  parseUncompressedLoop fuel file buffer total tracklist = Some result ->
  In t tracklist -> In t result.
Proof.
  induction fuel as [|fuel IH]; intros file buffer total tracklist result t Hrun Hin;
    [discriminate|].
  rewrite parseUncompressedLoop_S in Hrun. cbv zeta in Hrun.
  revert Hrun.
  generalize (fst (readBytesAtPosition file buffer total bufferSize)).
  generalize (snd (readBytesAtPosition file buffer total bufferSize)).
  intros bytesRead window Hrun.
  assert (Hstep : In t (searchMhitInBuffer window bytesRead tracklist file total)).
  { unfold searchMhitInBuffer. now apply searchMhitLoop_mono. }
  destruct (bytesRead <? bufferSize).
  - injection Hrun as <-. exact Hstep.
  - eapply IH; [exact Hrun|exact Hstep].
Qed.

Lemma parseUncompressedLoop_scanned fuel :
  forall file buffer k tracklist result t,
    0 <= k ->
    parseUncompressedLoop fuel file buffer (bufferSize * k) tracklist = Some result ->
    In t result ->
    In t tracklist \/
    exists p, scanned file p /\ mhitAt file p = true /\
              t = parseMhit file (p + 4) /\ titled t.
Proof.
  pose proof bufferSize_pos as HB.
  induction fuel as [|fuel IH]; intros file buffer k tracklist result t Hk Hrun Hin;
    [discriminate|].
  assert (Ht : 0 <= bufferSize * k) by nia.
  rewrite parseUncompressedLoop_S in Hrun. cbv zeta in Hrun.
  pose proof (mhitAt_window file buffer (bufferSize * k) bufferSize) as Hwin.
  pose proof (bytesRead_exact file buffer (bufferSize * k) bufferSize Ht
                (Z.lt_le_incl _ _ HB)) as Hbr.
  revert Hrun Hwin Hbr.
  generalize (fst (readBytesAtPosition file buffer (bufferSize * k) bufferSize)).
  generalize (snd (readBytesAtPosition file buffer (bufferSize * k) bufferSize)).
  intros bytesRead window Hrun Hwin Hbr.
  assert (Hscan : forall t,
             In t (searchMhitInBuffer window bytesRead tracklist file (bufferSize * k)) ->
             In t tracklist \/
             exists p, scanned file p /\ mhitAt file p = true /\
                       t = parseMhit file (p + 4) /\ titled t).
  { intros t0 Ht0. unfold searchMhitInBuffer in Ht0.
    apply searchMhitLoop_in in Ht0.
    destruct Ht0 as [Ht0|(j & Hj & Hm & Heq & Hkeep)]; [now left|right].
    exists (bufferSize * k + j). rewrite <- Hwin by lia.
    repeat split; try assumption; try lia.
    rewrite (windowOf_inside k) by lia. lia. }
  destruct (Z.ltb_spec bytesRead bufferSize).
  - injection Hrun as <-. now apply Hscan.
  - replace (bufferSize * k + bytesRead) with (bufferSize * (k + 1)) in Hrun by lia.
    apply (IH _ _ _ _ _ t) in Hrun; [|lia|assumption].
    destruct Hrun as [Hrun|Hrun]; [now apply Hscan|now right].
Qed.

Lemma parseUncompressedLoop_complete fuel :
  forall file buffer k tracklist result p,
    0 <= k ->
    parseUncompressedLoop fuel file buffer (bufferSize * k) tracklist = Some result ->
    bufferSize * k <= p ->
    scanned file p -> mhitAt file p = true ->
    titled (parseMhit file (p + 4)) ->
    In (parseMhit file (p + 4)) result.
Proof.
  pose proof bufferSize_pos as HB.
  induction fuel as [|fuel IH];
    intros file buffer k tracklist result p Hk Hrun Hp [Hp0 Hsc] Hm Hkeep;
    [discriminate|].
  assert (Ht : 0 <= bufferSize * k) by nia.
  pose proof (parseUncompressedLoop_mono fuel file) as Hmono.
  rewrite parseUncompressedLoop_S in Hrun. cbv zeta in Hrun.
  pose proof (mhitAt_window file buffer (bufferSize * k) bufferSize) as Hwin.
  pose proof (bytesRead_exact file buffer (bufferSize * k) bufferSize Ht
                (Z.lt_le_incl _ _ HB)) as Hbr.
  revert Hrun Hwin Hbr Hmono.
  generalize (fst (readBytesAtPosition file buffer (bufferSize * k) bufferSize)).
  generalize (snd (readBytesAtPosition file buffer (bufferSize * k) bufferSize)).
  intros bytesRead window Hrun Hwin Hbr Hmono.
  destruct (Z.lt_ge_cases p (bufferSize * k + bufferSize)) as [Hin|Hout].
  - (* the offset lies in this window *)
    rewrite (windowOf_inside k) in Hsc by lia.
    assert (Hfound : In (parseMhit file (p + 4))
                        (searchMhitInBuffer window bytesRead tracklist file
                           (bufferSize * k))).
    { unfold searchMhitInBuffer.
      replace (p + 4) with (bufferSize * k + (p - bufferSize * k) + 4) by lia.
      apply searchMhitLoop_complete.
      - lia.
      - rewrite Hwin by lia.
        now replace (bufferSize * k + (p - bufferSize * k)) with p by lia.
      - now replace (bufferSize * k + (p - bufferSize * k) + 4) with (p + 4) by lia. }
    destruct (bytesRead <? bufferSize).
    + injection Hrun as <-. exact Hfound.
    + eapply Hmono; [exact Hrun|exact Hfound].
  - (* the offset lies in a later window: this one was read in full *)
    assert (Hw : bufferSize * (p / bufferSize) <= p).
    { apply Z.mul_div_le. lia. }
    unfold windowOf in Hsc.
    destruct (Z.ltb_spec bytesRead bufferSize); [lia|].
    replace (bufferSize * k + bytesRead) with (bufferSize * (k + 1)) in Hrun by lia.
    apply (IH _ _ _ _ _ p) in Hrun; try assumption; try lia.
    split; assumption.
Qed.

(** X3.  The uncompressed decode returns exactly the titled tracks that stand at
    a marker the scan reaches.  An offset is reached when it lies more than
    four bytes before the end of the bytes its 1 MB window received: a
    marker that starts in the last four bytes of a window, and so one that
    straddles two windows or ends the file, is never decoded. *)
Theorem uncompressed_scan_exact fuel file tracklist :
  parseUncompressedItunesDb fuel file = Some tracklist ->
  forall t,
    In t tracklist <->
    exists p, scanned file p /\ mhitAt file p = true /\
              t = parseMhit file (p + 4) /\ titled t.
Proof.
  intros Hrun t. unfold parseUncompressedItunesDb in Hrun.
  replace 0 with (bufferSize * 0) in Hrun by lia. split.
  - intros Hin.
    destruct (parseUncompressedLoop_scanned fuel file _ 0 [] tracklist t
                (Z.le_refl 0) Hrun Hin) as [[]|H]; exact H.
  - intros (p & Hsc & Hm & -> & Hk).
    apply (parseUncompressedLoop_complete fuel file _ 0 [] tracklist p
             (Z.le_refl 0) Hrun); try assumption.
    destruct Hsc as [Hp0 _]. lia.
Qed.

(** ** More on the in-memory decoder *)

Lemma sorted_snoc l x :
  StronglySorted Z.lt l -> Forall (fun y => y < x) l ->
  StronglySorted Z.lt (l ++ [x]).
Proof.
  induction 1 as [|y l Hs IH Hy]; intros Hall; cbn [app].
  - constructor; constructor.
  - inversion Hall; subst. constructor; [now apply IH|].
    apply Forall_app. split; [assumption|]. now constructor.
Qed.

Lemma sorted_NoDup l : StronglySorted Z.lt l -> NoDup l.
Proof.
  induction 1 as [|y l Hs IH Hy]; constructor; [|assumption].
  intros Hin. rewrite Forall_forall in Hy. specialize (Hy y Hin). lia.
Qed.

Lemma parseTrackFromBuffer_id tz buffer p i t :
  parseTrackFromBuffer tz buffer p i = Some t -> Track.id t = i.
Proof.
  intros H. now destruct (parseTrackFromBuffer_fields _ _ _ _ _ H)
    as (_ & _ & _ & _ & _ & _ & _ & _ & _ & Hid).
Qed.

(** What the loop of the walk keeps: ids in strictly increasing order, all
    below the index the loop has reached, on tracks that have a title, and
    at most one track per round. *)
Lemma parseTrackListLoop_invariant tz n : forall i buffer pos acc,
  StronglySorted Z.lt (map Track.id acc) ->
  Forall (fun t => Track.id t < i) acc ->
  Forall titled acc ->
  StronglySorted Z.lt (map Track.id (parseTrackListLoop tz n i buffer pos acc)) /\
  Forall (fun t => Track.id t < i + Z.of_nat n)
    (parseTrackListLoop tz n i buffer pos acc) /\
  Forall titled (parseTrackListLoop tz n i buffer pos acc) /\
  (List.length (parseTrackListLoop tz n i buffer pos acc) <= List.length acc + n)%nat.
Proof.
  induction n as [|n IH]; intros i buffer pos acc Hs Hlt Ht.
  - cbn [parseTrackListLoop]. repeat split; try assumption; [|lia].
    eapply Forall_impl; [|exact Hlt]. intros t H. cbn beta in H. lia.
  - cbn [parseTrackListLoop].
    assert (Hweak : forall m, (1 <= m)%nat ->
              Forall (fun t => Track.id t < i + Z.of_nat m) acc).
    { intros m Hm. eapply Forall_impl; [|exact Hlt]. intros t H. cbn beta in H. lia. }
    destruct (pos <? Buffer.len buffer);
      [|repeat split; try assumption; [apply Hweak|]; lia].
    set (acc' := match parseTrackFromBuffer tz buffer pos i with
                 | Some t =>
                     if keepTrack (parseTrackFromBuffer tz buffer pos i)
                     then acc ++ [t] else acc
                 | None => acc
                 end).
    assert (Hacc : StronglySorted Z.lt (map Track.id acc') /\
                   Forall (fun t => Track.id t < i + 1) acc' /\
                   Forall titled acc' /\
                   (List.length acc' <= List.length acc + 1)%nat).
    { subst acc'.
      assert (Hsame : StronglySorted Z.lt (map Track.id acc) /\
                      Forall (fun t => Track.id t < i + 1) acc /\
                      Forall titled acc /\
                      (List.length acc <= List.length acc + 1)%nat).
      { repeat split; try assumption; [|lia].
        eapply Forall_impl; [|exact Hlt]. intros t H. cbn beta in H. lia. }
      destruct (parseTrackFromBuffer tz buffer pos i) as [t|] eqn:Hp; [|exact Hsame].
      destruct (keepTrack (Some t)) eqn:Hk; [|exact Hsame].
      pose proof (parseTrackFromBuffer_id _ _ _ _ _ Hp) as Hid.
      repeat split.
      - rewrite map_app. cbn [map]. apply sorted_snoc; [assumption|].
        rewrite Forall_map. rewrite Hid. exact Hlt.
      - apply Forall_app. split.
        + eapply Forall_impl; [|exact Hlt]. intros t0 H. cbn beta in H. lia.
        + constructor; [lia|constructor].
      - apply Forall_app. split; [assumption|]. constructor; [exact Hk|constructor].
      - rewrite length_app. cbn. lia. }
    destruct Hacc as (Hs' & Hlt' & Ht' & Hlen').
    destruct (readAt buffer (pos + 8)) as [size|e].
    + destruct (IH (i + 1) buffer (pos + size) acc' Hs' Hlt' Ht')
        as (H1 & H2 & H3 & H4).
      repeat split; try assumption; [|lia].
      eapply Forall_impl; [|exact H2]. intros t H. cbn beta in H. lia.
    + repeat split; try assumption; [|lia].
      eapply Forall_impl; [|exact Hlt']. intros t H. cbn beta in H. lia.
Qed.

Lemma parseTrackList_invariant tz buffer startPos :
  StronglySorted Z.lt (map Track.id (parseTrackList tz buffer startPos)) /\
  Forall (fun t => 0 <= Track.id t) (parseTrackList tz buffer startPos) /\
  Forall titled (parseTrackList tz buffer startPos).
Proof.
  assert (Hnil : StronglySorted Z.lt (map Track.id []) /\
                 Forall (fun t => 0 <= Track.id t) [] /\ Forall titled []).
  { repeat split; constructor. }
  unfold parseTrackList. cbv zeta.
  destruct (negb (jsstring_eqb _ str_mhlt)); [exact Hnil|].
  destruct (readAt buffer (startPos + 4)) as [hs|]; [|exact Hnil].
  destruct (readAt buffer (startPos + 4 + 4)) as [numTracks|]; [|exact Hnil].
  destruct (parseTrackListLoop_invariant tz (Z.to_nat numTracks) 0 buffer
              (startPos + hs) [] (SSorted_nil _) (Forall_nil _) (Forall_nil _))
    as (H1 & _ & H3 & _).
  split; [assumption|]. split; [|assumption].
  apply Forall_forall. intros t Hin.
  apply parseTrackListLoop_in in Hin.
  destruct Hin as [[]|(k & pos & _ & _ & Hp)].
  rewrite (parseTrackFromBuffer_id _ _ _ _ _ Hp). lia.
Qed.

Lemma compressed_result tz inflateRaw fuel file tracklist :
  parseCompressedItunesDb tz inflateRaw fuel file = Some (Ok tracklist) ->
  tracklist = [] \/
  exists buffer mhltPos,
    inflateRaw (embeddedStream file) = Some buffer /\
    tracklist = parseTrackList tz buffer mhltPos.
Proof.
  intros Hrun. unfold parseCompressedItunesDb in Hrun.
  rewrite parseCompressedBody_eq in Hrun.
  destruct (negb (jsstring_eqb (leadingTag file) str_mhbd)).
  { cbn in Hrun. injection Hrun as <-. now left. }
  destruct (inflateRaw (embeddedStream file)) as [buffer|] eqn:Hinf.
  2:{ cbn in Hrun. injection Hrun as <-. now left. }
  unfold parseDecompressedDatabase in Hrun.
  destruct (parseDecompressedLoop tz fuel buffer 0) as [l|] eqn:Hloop;
    [|discriminate].
  cbn in Hrun. injection Hrun as <-.
  apply parseDecompressedLoop_result in Hloop.
  destruct Hloop as [->|[mhltPos ->]]; [now left|right].
  now exists buffer, mhltPos.
Qed.

(** X4.  The sequence ids of a compressed decode are a valid join key: along
    the returned list they are strictly increasing from 0 or more, so no
    two tracks of one decode share an id. *)
Theorem compressed_ids_distinct tz inflateRaw fuel file tracklist :
  parseCompressedItunesDb tz inflateRaw fuel file = Some (Ok tracklist) ->
  StronglySorted Z.lt (map Track.id tracklist) /\
  NoDup (map Track.id tracklist) /\
  Forall (fun t => 0 <= Track.id t) tracklist.
Proof.
  intros Hrun. apply compressed_result in Hrun.
  destruct Hrun as [->|(buffer & mhltPos & _ & ->)].
  - repeat split; constructor.
  - destruct (parseTrackList_invariant tz buffer mhltPos) as (H1 & H2 & _).
    repeat split; try assumption. now apply sorted_NoDup.
Qed.

(** X5.  An item whose fixed fields do not fit in the buffer gives no track:
    when fewer than [0x5C] bytes follow its start, the read of the
    last-played field throws and the decoder returns [null]. *)
Theorem truncated_item_skipped tz buffer p i :
  0 <= p -> Buffer.len buffer < p + 0x5C ->
  parseTrackFromBuffer tz buffer p i = None.
Proof.
  intros Hp Hlen. unfold parseTrackFromBuffer, parseTrackBody. cbv zeta.
  destruct (negb (jsstring_eqb _ str_mhit)); [reflexivity|].
  destruct (readAt buffer (p + 4)); cbn [bindExc]; [|reflexivity].
  destruct (readAt buffer (p + 4 + 4)); cbn [bindExc]; [|reflexivity].
  destruct (readAt buffer (p + 4 + 4 + 4)); cbn [bindExc]; [|reflexivity].
  destruct (readAt buffer (p + 4 + 4 + 4 + 4)); cbn [bindExc]; [|reflexivity].
  destruct (readAt buffer (p + 4 + 4 + 4 + 4 + 4 + 20)); cbn [bindExc]; [|reflexivity].
  destruct (readAt buffer (p + 0x50)); cbn [bindExc]; [|reflexivity].
  rewrite (readAt_outside buffer (p + 0x58)) by lia. reflexivity.
Qed.

(** ** When the dataset scan ends *)

Lemma noStuck_at buffer pos :
  noStuckDataset buffer = true ->
  0 <= pos < Buffer.len buffer ->
  stuckAt buffer pos = false.
Proof.
  intros Hall Hpos. unfold noStuckDataset in Hall.
  rewrite forallb_forall in Hall.
  specialize (Hall (Z.to_nat pos)).
  rewrite Z2Nat.id in Hall by lia.
  apply negb_true_iff. apply Hall.
  apply in_seq. unfold Buffer.len in Hpos. lia.
Qed.

Lemma parseDecompressedLoop_total tz buffer :
  noStuckDataset buffer = true ->
  forall fuel pos,
    0 <= pos ->
    Z.max 0 (Buffer.len buffer - pos) < Z.of_nat fuel ->
    exists tracklist, parseDecompressedLoop tz fuel buffer pos = Some tracklist.
Proof.
  intros Hall. induction fuel as [|fuel IH]; intros pos Hpos Hfuel; [lia|].
  cbn [parseDecompressedLoop].
  destruct (Z.ltb_spec pos (Buffer.len buffer - 8)) as [Hin|Hout]; [|eauto].
  pose proof (noStuck_at buffer pos Hall) as Hst. unfold stuckAt in Hst.
  destruct (jsstring_eqb (Buffer.toStringAscii buffer pos (pos + 4)) str_mhsd).
  - destruct (readAt buffer (pos + 4)) as [hs|]; cbn [bindExc]; [|eauto].
    destruct (readAt buffer (pos + 8)) as [ts|] eqn:Ets; cbn [bindExc]; [|eauto].
    destruct (readAt buffer (pos + 12)) as [ty|]; cbn [bindExc]; [|eauto].
    destruct (Z.eqb_spec ty 1) as [_|Hty]; [eauto|].
    pose proof (readAt_nonneg _ _ _ Ets) as Hnn.
    assert (Hts : 0 < ts).
    { specialize (Hst ltac:(lia)). cbn [andb negb] in Hst.
      destruct (Z.eqb_spec ts 0); [discriminate|lia]. }
    apply IH; lia.
  - apply IH; lia.
Qed.

(** X6.  The dataset scan ends on every payload in which no dataset other than
    the track list declares a total size of 0: a fuel above the length of
    the payload always yields a result. *)
Theorem dataset_scan_terminates tz buffer fuel :
  noStuckDataset buffer = true ->
  Buffer.len buffer < Z.of_nat fuel ->
  exists tracklist, parseDecompressedDatabase tz fuel buffer = Some tracklist.
Proof.
  intros Hall Hfuel. unfold parseDecompressedDatabase.
  apply parseDecompressedLoop_total; try assumption; [lia|].
  unfold Buffer.len in *. lia.
Qed.

(** ** More on the top level *)

Lemma Forall2_Forall {A} (R : A -> A -> Prop) (P : A -> Prop) l l' :
  (forall a b, R a b -> P a -> P b) ->
  Forall2 R l l' -> Forall P l -> Forall P l'.
Proof.
  intros HR H2. induction H2 as [|a b l l' Hab _ IH]; intros Hall; [constructor|].
  inversion Hall; subst. constructor; eauto.
Qed.

Lemma read4_length file buffer pos :
  List.length buffer = 4%nat ->
  List.length (fst (readBytesAtPosition file buffer pos 4)) = 4%nat.
Proof. intros H. rewrite read_length; [exact H|rewrite H; simpl; lia]. Qed.

Lemma u32num_littleEndian dword :
  List.length dword = 4%nat -> u32num (JNum (littleEndianToBigInt dword)).
Proof.
  intros H. eexists. split; [reflexivity|]. now apply littleEndian_range4.
Qed.

Lemma parseMhit_length_range file s : u32num (Track.length (parseMhit file s)).
Proof.
  unfold parseMhit. cbv zeta.
  pose proof (read4_length file (Buffer.alloc 4) s (alloc_length 4)) as H1.
  destruct (readBytesAtPosition file (Buffer.alloc 4) s 4) as [d1 r1].
  cbn [fst] in H1.
  pose proof (read4_length file d1 (s + 4 + 4) H1) as H2.
  destruct (readBytesAtPosition file d1 (s + 4 + 4) 4) as [d2 r2].
  cbn [fst] in H2.
  pose proof (read4_length file d2 (s + 4 + 4 + 4) H2) as H3.
  destruct (readBytesAtPosition file d2 (s + 4 + 4 + 4) 4) as [d3 r3].
  cbn [fst] in H3.
  pose proof (read4_length file d3 (s + 4 + 4 + 4 + 4 + 20) H3) as H4.
  destruct (readBytesAtPosition file d3 (s + 4 + 4 + 4 + 4 + 20) 4) as [d4 r4].
  cbn [fst] in H4.
  match goal with
  | |- u32num (Track.length (parseMhitLoop ?n ?t ?f ?s0 ?h)) =>
      destruct (parseMhitLoop_numbers n t f s0 h) as (_ & Hl & _)
  end.
  rewrite Hl. cbn [Track.length]. now apply u32num_littleEndian.
Qed.

(** The numeric invariant of a decoded track. *)
Lemma parsePlayCountsLoop_unsigned tz n : forall i file entryLen dword bytesOffset tracklist,
  List.length dword = 4%nat ->
  Forall (fun t => u32num (Track.length t) /\
                   (Track.playCount t = JUndefined \/ u32num (Track.playCount t)))
         tracklist ->
  Forall (fun t => u32num (Track.length t) /\
                   (Track.playCount t = JUndefined \/ u32num (Track.playCount t)))
         (parsePlayCountsLoop tz n i file entryLen dword bytesOffset tracklist).
Proof.
  induction n as [|n IH]; intros i file entryLen dword bytesOffset tracklist Hd Hall;
    [exact Hall|].
  rewrite parsePlayCountsLoop_S. cbv zeta.
  pose proof (read4_length file dword bytesOffset Hd) as H1.
  pose proof (read4_length file _ (bytesOffset + 4) H1) as H2.
  destruct (0 <? _).
  - apply IH; [exact H2|].
    eapply Forall2_Forall; [|apply updateAt_first_rel|exact Hall].
    intros a b [->|[_ ->]] Ha; [exact Ha|].
    destruct Ha as [Hlen _]. split; [exact Hlen|]. right.
    now apply u32num_littleEndian.
  - apply IH; assumption.
Qed.

Lemma parsePlayCounts_unsigned tz fs filePath tracklist :
  Forall (fun t => u32num (Track.length t) /\
                   (Track.playCount t = JUndefined \/ u32num (Track.playCount t)))
         tracklist ->
  Forall (fun t => u32num (Track.length t) /\
                   (Track.playCount t = JUndefined \/ u32num (Track.playCount t)))
         (parsePlayCounts tz fs filePath tracklist).
Proof.
  intros Hall. unfold parsePlayCounts.
  destruct (fs filePath) as [file|]; [|exact Hall].
  unfold parsePlayCountsFile. cbv zeta.
  pose proof (read4_length file (Buffer.alloc 4) (0 + 8) (alloc_length 4)) as H1.
  destruct (readBytesAtPosition file (Buffer.alloc 4) (0 + 8) 4) as [d1 r1].
  cbn [fst] in H1.
  pose proof (read4_length file d1 (0 + 8 + 4) H1) as H2.
  destruct (readBytesAtPosition file d1 (0 + 8 + 4) 4) as [d2 r2].
  cbn [fst] in H2.
  now apply parsePlayCountsLoop_unsigned.
Qed.

(** X2.  Every track [parse] returns carries a length that is an unsigned
    32-bit number and a play count that is absent or an unsigned 32-bit
    number: no decoded count is negative, fractional or [NaN]. *)
Theorem parse_fields_unsigned tz inflateRaw fs fuel iTunesDbPath playCountsPath tracklist :
  parse tz inflateRaw fs fuel iTunesDbPath playCountsPath = Some (Ok tracklist) ->
  Forall (fun t => u32num (Track.length t) /\
                   (Track.playCount t = JUndefined \/ u32num (Track.playCount t)))
         tracklist.
Proof.
  unfold parse, parseItunesDb.
  destruct (fs iTunesDbPath) as [handler|]; [|discriminate].
  destruct (isCompressed iTunesDbPath).
  - destruct (parseCompressedItunesDb tz inflateRaw fuel handler) as [[l|e]|] eqn:E;
      try discriminate.
    cbn [negb]. intros [= <-].
    apply compressed_result in E. destruct E as [->|(buffer & mhltPos & _ & ->)];
      [constructor|].
    apply Forall_forall. intros t Hin.
    apply parseTrackList_ids in Hin.
    destruct Hin as (_ & _ & pos & _ & _ & _ & _ & Hparse).
    destruct (parseTrackFromBuffer_fields _ _ _ _ _ Hparse)
      as (len & pc & lp & Hlen & Hpc & _ & Hl & Hp & _).
    rewrite Hl, Hp. split; [|right].
    + exists len. split; [reflexivity|]. eapply readAt_range; exact Hlen.
    + exists pc. split; [reflexivity|]. eapply readAt_range; exact Hpc.
  - destruct (parseUncompressedItunesDb fuel handler) as [l|] eqn:E;
      [|discriminate].
    cbn [option_map negb]. intros [= <-].
    apply parsePlayCounts_unsigned.
    apply Forall_forall. intros t Hin.
    unfold parseUncompressedItunesDb in E.
    destruct (parseUncompressedLoop_in fuel handler _ 0 [] l t
                (Z.le_refl 0) E Hin) as [[]|(p & _ & _ & _ & -> & _)].
    split; [apply parseMhit_length_range|left; apply parseMhit_no_plays].
Qed.

(** X7.  Every track [parse] returns has a title that is not empty: both
    decoders drop an item without one, and the correlation leaves titles
    alone. *)
Theorem parse_tracks_titled tz inflateRaw fs fuel iTunesDbPath playCountsPath tracklist :
  parse tz inflateRaw fs fuel iTunesDbPath playCountsPath = Some (Ok tracklist) ->
  Forall titled tracklist.
Proof.
  unfold parse, parseItunesDb.
  destruct (fs iTunesDbPath) as [handler|]; [|discriminate].
  destruct (isCompressed iTunesDbPath).
  - destruct (parseCompressedItunesDb tz inflateRaw fuel handler) as [[l|e]|] eqn:E;
      try discriminate.
    cbn [negb]. intros [= <-].
    apply compressed_result in E. destruct E as [->|(buffer & mhltPos & _ & ->)];
      [constructor|].
    apply parseTrackList_invariant.
  - destruct (parseUncompressedItunesDb fuel handler) as [l|] eqn:E;
      [|discriminate].
    cbn [option_map negb]. intros [= <-].
    assert (Hl : Forall titled l).
    { apply Forall_forall. intros t Hin.
      unfold parseUncompressedItunesDb in E.
      destruct (parseUncompressedLoop_in fuel handler _ 0 [] l t
                  (Z.le_refl 0) E Hin) as [[]|(p & _ & _ & _ & _ & Hk)].
      exact Hk. }
    unfold parsePlayCounts. destruct (fs playCountsPath) as [file|]; [|exact Hl].
    eapply Forall2_Forall; [|apply (parsePlayCountsFile_frame tz file l)|exact Hl].
    intros a b [(Htr & _) _] Ha. unfold titled in *. now rewrite Htr.
Qed.

(** ** Devices *)

Lemma substring_all s : String.substring 0 (String.length s) s = s.
Proof.
  induction s as [|c s IH]; [reflexivity|]. cbn. now rewrite IH.
Qed.

Lemma substring_append p s :
  String.substring (String.length p) (String.length s) (String.append p s) = s.
Proof.
  induction p as [|c p IH]; cbn; [apply substring_all|exact IH].
Qed.

(** A path that ends in [iTunesCDB] is classed as compressed. *)
Lemma isCompressed_append p :
  isCompressed (String.append p name_iTunesCDB) = true.
Proof.
  unfold isCompressed.
  destruct (String.index 0 name_iTunesCDB (String.append p name_iTunesCDB)) eqn:E;
    [reflexivity|].
  exfalso.
  apply (String.index_correct3 0 (String.length p) _ _ E).
  - discriminate.
  - apply Nat.le_0_l.
  - apply substring_append.
Qed.

Lemma parseCompressedItunesDb_ok tz inflateRaw fuel file r :
  parseCompressedItunesDb tz inflateRaw fuel file = Some r ->
  exists tracklist, r = Ok tracklist.
Proof.
  unfold parseCompressedItunesDb.
  destruct (parseCompressedBody tz inflateRaw fuel file) as [[l|e]|];
    cbn; intros [= <-]; eauto.
Qed.

Lemma filter_none {A} (p : A -> bool) l :
  (forall x, In x l -> p x = false) -> filter p l = [].
Proof.
  induction l as [|x l IH]; intros H; [reflexivity|].
  cbn [filter]. rewrite (H x (or_introl eq_refl)). apply IH.
  intros y Hy. apply H. now right.
Qed.

(** X8.  [getRecentTracks] raises in one case only: it throws exactly when
    the one database file it selected cannot be opened, and the error is
    then the failure of [open].  The file selected is the [iTunesCDB] when
    [access] resolves on it and the [iTunesDB] otherwise, and there is no
    second try: an [iTunesCDB] that exists and cannot be opened fails the
    call even where the [iTunesDB] could be read.  A bad header, a stream
    zlib rejects, a truncated record or a missing Play Counts file never
    reach the caller as an error. *)
Theorem recent_tracks_only_error tz inflateRaw fs access fuel path e :
  getRecentTracks tz inflateRaw fs access fuel path = Some (Throw e) <->
  e = FilesystemError /\
  fs (String.append path
        (if access (String.append path name_iTunesCDB)
         then name_iTunesCDB else name_iTunesDB)) = None.
Proof.
  unfold getRecentTracks, parse, parseItunesDb, findItunesDbFile. cbv zeta.
  destruct (access (String.append path name_iTunesCDB)).
  - destruct (fs (String.append path name_iTunesCDB)) as [cdb|] eqn:Hcdb.
    + rewrite isCompressed_append. cbn [negb].
      split; [|intros (_ & H); discriminate].
      destruct (parseCompressedItunesDb tz inflateRaw fuel cdb) as [r|] eqn:E;
        [|discriminate].
      destruct (parseCompressedItunesDb_ok _ _ _ _ _ E) as [l ->]. discriminate.
    + split.
      * intros [= <-]. auto.
      * intros (-> & _). reflexivity.
  - destruct (fs (String.append path name_iTunesDB)) as [db|] eqn:Hdb.
    + split; [|intros (_ & H); discriminate].
      destruct (isCompressed (String.append path name_iTunesDB)).
      * destruct (parseCompressedItunesDb tz inflateRaw fuel db) as [r|] eqn:E;
          [|discriminate].
        destruct (parseCompressedItunesDb_ok _ _ _ _ _ E) as [l ->]. discriminate.
      * destruct (parseUncompressedItunesDb fuel db); cbn; discriminate.
    + split.
      * intros [= <-]. auto.
      * intros (-> & _). reflexivity.
Qed.

(** X9.  On a device that holds an [iTunesCDB], the Play Counts file plays no
    part: whatever it holds, and whether it exists or not, [parse] returns
    what the compressed decoder returns for the [iTunesCDB]. *)
Theorem compressed_device_ignores_play_counts
    tz inflateRaw fs access fuel path playCountsPath cdb :
  access (String.append path name_iTunesCDB) = true ->
  fs (String.append path name_iTunesCDB) = Some cdb ->
  parse tz inflateRaw fs fuel (findItunesDbFile access path) playCountsPath =
  parseCompressedItunesDb tz inflateRaw fuel cdb.
Proof.
  intros Hacc Hcdb. unfold parse, parseItunesDb, findItunesDbFile.
  rewrite Hacc, Hcdb, isCompressed_append. cbn [negb].
  destruct (parseCompressedItunesDb tz inflateRaw fuel cdb) as [r|] eqn:E;
    [|reflexivity].
  destruct (parseCompressedItunesDb_ok _ _ _ _ _ E) as [l ->]. reflexivity.
Qed.

(** X10.  On a device that holds only an uncompressed [iTunesDB], the play data
    come from the Play Counts file alone: when that file cannot be opened
    the history is empty, and no error is raised, however many tracks the
    database holds and whatever their items record. *)
Theorem no_play_counts_no_history tz inflateRaw fs access fuel path db :
  access (String.append path name_iTunesCDB) = false ->
  fs (String.append path name_iTunesDB) = Some db ->
  isCompressed (String.append path name_iTunesDB) = false ->
  fs (String.append path name_PlayCounts) = None ->
  Buffer.len db < Z.of_nat fuel * bufferSize ->
  getRecentTracks tz inflateRaw fs access fuel path = Some (Ok []).
Proof.
  intros Hcdb Hdb Hcls Hpc Hfuel.
  unfold getRecentTracks, parse, parseItunesDb, findItunesDbFile, parsePlayCounts.
  cbv zeta. rewrite Hcdb, Hdb, Hcls, Hpc.
  destruct (parseUncompressedLoop_total fuel db (Buffer.alloc bufferSize) 0 [])
    as [tracklist Hrun]; [lia|unfold Buffer.len in *; lia|].
  unfold parseUncompressedItunesDb. rewrite Hrun. cbn [option_map negb].
  assert (Hnone : filter (fun entry =>
                            JS.truthy (Track.playCount entry)
                            && JS.gt0 (Track.playCount entry)) tracklist = []).
  { apply filter_none. intros t Hin.
    destruct (parseUncompressedLoop_in fuel db _ 0 [] tracklist t
                (Z.le_refl 0) Hrun Hin) as [[]|(p & _ & _ & _ & -> & _)].
    destruct (parseMhit_no_plays db (p + 4)) as [-> _]. reflexivity. }
  rewrite Hnone. reflexivity.
Qed.

(** X19.  A track item cut off by the end of the file is still decoded, from
    stale bytes: when the file ends within the four bytes after the header
    size, the reads of the object count, the identifier and the length all
    fall past the end and leave the shared 4-byte buffer as it was, so the
    id and the length both come out as the header size. *)
Theorem truncated_mhit_reuses_header_size file s :
  0 <= s -> s + 4 <= Buffer.len file -> Buffer.len file <= s + 8 ->
  Track.id (parseMhit file s) = u32At file s /\
  Track.length (parseMhit file s) = JNum (u32At file s).
Proof.
  intros Hs Hlo Hhi. unfold parseMhit. cbv zeta.
  rewrite (read4_inside file (Buffer.alloc 4)) by (try apply alloc_length; lia).
  rewrite !read_past_end by lia.
  match goal with
  | |- Track.id (parseMhitLoop ?n ?t ?f ?s0 ?h) = _ /\ _ =>
      destruct (parseMhitLoop_numbers n t f s0 h) as (Hid & Hl & _)
  end.
  rewrite Hid, Hl. split; reflexivity.
Qed.

Lemma substring_zero s : forall m, String.substring m 0 s = String.EmptyString.
Proof.
  induction s as [|c s IH]; intros [|m]; cbn; try reflexivity. apply IH.
Qed.

Lemma substring_prefix p q : forall m n,
  String.length (String.substring m n p) = n ->
  String.substring m n (String.append p q) = String.substring m n p.
Proof.
  induction p as [|c p IH]; intros m n Hlen.
  - assert (n = O) as ->.
    { destruct m, n; cbn in Hlen; congruence. }
    cbn [String.append]. rewrite substring_zero. now destruct m.
  - destruct m as [|m].
    + destruct n as [|n]; [reflexivity|].
      cbn in *. f_equal. apply IH. congruence.
    + cbn in *. now apply IH.
Qed.

Lemma isCompressed_prefix p q :
  isCompressed p = true -> isCompressed (String.append p q) = true.
Proof.
  unfold isCompressed.
  destruct (String.index 0 name_iTunesCDB p) as [m|] eqn:Ep; [|discriminate].
  intros _.
  destruct (String.index 0 name_iTunesCDB (String.append p q)) eqn:E;
    [reflexivity|].
  exfalso.
  apply String.index_correct1 in Ep.
  apply (String.index_correct3 0 m _ _ E).
  - discriminate.
  - apply Nat.le_0_l.
  - rewrite substring_prefix; [exact Ep|]. now rewrite Ep.
Qed.

(** X11.  The format is told from the text of the whole path, not from the file
    name or the content.  On a device with no [iTunesCDB], when the path
    of the device itself contains the text [iTunesCDB], the uncompressed
    [iTunesDB] is handed to the compressed decoder and the Play Counts file
    is left out. *)
Theorem path_text_decides_format
    tz inflateRaw fs access fuel path playCountsPath db :
  isCompressed path = true ->
  access (String.append path name_iTunesCDB) = false ->
  fs (String.append path name_iTunesDB) = Some db ->
  parse tz inflateRaw fs fuel (findItunesDbFile access path) playCountsPath =
  parseCompressedItunesDb tz inflateRaw fuel db.
Proof.
  intros Hpath Hcdb Hdb. unfold parse, parseItunesDb, findItunesDbFile.
  rewrite Hcdb, Hdb, (isCompressed_prefix path name_iTunesDB Hpath). cbn [negb].
  destruct (parseCompressedItunesDb tz inflateRaw fuel db) as [r|] eqn:E;
    [|reflexivity].
  destruct (parseCompressedItunesDb_ok _ _ _ _ _ E) as [l ->]. reflexivity.
Qed.

(** ** From the history to the request *)

Lemma eventsOf_stamped tr : stamped tr -> Forall stamped (eventsOf tr).
Proof.
  intros [t Ht]. unfold eventsOf. rewrite effectiveLength_or, Ht.
  apply Forall_forall. intros e He. apply in_map_iff in He.
  destruct He as (i & <- & _). cbn. eexists. reflexivity.
Qed.

Lemma expand_stamped l :
  Forall stamped l -> Forall stamped (expandTracksByPlayCount l).
Proof.
  intros Hall. rewrite expand_flat_map. apply Forall_forall. intros e He.
  apply in_flat_map in He. destruct He as (tr & Hin & He).
  rewrite Forall_forall in Hall.
  pose proof (eventsOf_stamped tr (Hall tr Hin)) as H.
  rewrite Forall_forall in H. now apply H.
Qed.

Lemma recent_tracks_shape tz inflateRaw fs access fuel path recentPlays :
  getRecentTracks tz inflateRaw fs access fuel path = Some (Ok recentPlays) ->
  Forall (fun t => played t = true) recentPlays /\ Forall stamped recentPlays.
Proof.
  unfold getRecentTracks. cbv zeta.
  destruct (parse tz inflateRaw fs fuel (findItunesDbFile access path)
              (String.append path name_PlayCounts)) as [[tracklist|e]|] eqn:Hparse;
    try discriminate.
  intros [= <-].
  change (fun entry : Track.t =>
            JS.truthy (Track.playCount entry) && JS.gt0 (Track.playCount entry))
    with played.
  pose proof (parse_playsStamped _ _ _ _ _ _ _ Hparse) as Hinv.
  rewrite Forall_forall in Hinv.
  split; apply Forall_forall; intros t Ht;
    apply (Permutation_in _ (sortByLastPlayed_perm _)) in Ht;
    apply filter_In in Ht; destruct Ht as [Hin Hp]; [exact Hp|].
  apply (Hinv t Hin). unfold played in Hp. now apply andb_true_iff in Hp.
Qed.

(** X20.  What [scrobbleTracks] submits for a decoded history.  It makes one
    request, with timeout 0, and reports success exactly when that request
    returns a truthy [success]; the batch it sends holds as many events as
    the history counts plays in all, every event counts one play, and every
    event carries a time that is a number (never [NaN]). *)
Theorem history_scrobble_batch
    tz inflateRaw fs access fuel path recentPlays
    (post : list Track.t -> jsstring -> Z -> Exc bool) (sessionKey : jsstring) :
  getRecentTracks tz inflateRaw fs access fuel path = Some (Ok recentPlays) ->
  exists batch,
    (scrobbleTracks post sessionKey recentPlays = true <->
     post batch sessionKey 0 = Ok true) /\
    Z.of_nat (List.length batch) = totalPlays recentPlays /\
    Forall (fun e => Track.playCount e = JNum 1) batch /\
    Forall stamped batch.
Proof.
  intros Hrun. destruct (recent_tracks_shape _ _ _ _ _ _ _ Hrun) as [Hp Hs].
  exists (expandTracksByPlayCount recentPlays). repeat split.
  - unfold scrobbleTracks, sendScrobbleRequest. cbv zeta.
    destruct (post (expandTracksByPlayCount recentPlays) sessionKey 0) as [[|]|];
      congruence.
  - unfold scrobbleTracks, sendScrobbleRequest. cbv zeta. now intros ->.
  - now apply expander_event_count_aux.
  - rewrite expand_flat_map. apply Forall_forall. intros e He.
    apply in_flat_map in He. destruct He as (tr & _ & He).
    pose proof (eventsOf_meta tr) as H. rewrite Forall_forall in H.
    now destruct (H e He).
  - now apply expand_stamped.
Qed.

(** ** Runs on the samples *)

Lemma integer_readers_agree_witness :
  (readAt Sample.inflatedDb 4 = Ok (u32At Sample.inflatedDb 4) /\
   0 <= u32At Sample.inflatedDb 4 < 2 ^ 32) /\
  readAt SampleMore.shortItem 48 = Throw RangeError.
Proof.
  split.
  - apply (proj1 (integer_readers_agree Sample.inflatedDb 4 ltac:(lia))).
    lazy. discriminate.
  - apply (proj2 (integer_readers_agree SampleMore.shortItem 48 ltac:(lia))).
    lazy. reflexivity.
Defined.

Lemma parse_fields_unsigned_witness :
  Forall (fun t => u32num (Track.length t) /\
                   (Track.playCount t = JUndefined \/ u32num (Track.playCount t)))
         SampleMore.correlated3.
Proof.
  apply (parse_fields_unsigned 0 Sample.inflateStored SampleDevice.fs 1
           (findItunesDbFile (SampleDevice.present SampleDevice.fs)
              SampleDevice.mount)
           (String.append SampleDevice.mount name_PlayCounts)
           SampleMore.correlated3).
  lazy. reflexivity.
Defined.

Lemma uncompressed_scan_exact_witness :
  In Sample.trackB [Sample.trackA; Sample.trackB] <->
  exists p, scanned Sample.uncompressedDb p /\
            mhitAt Sample.uncompressedDb p = true /\
            Sample.trackB = parseMhit Sample.uncompressedDb (p + 4) /\
            titled Sample.trackB.
Proof.
  apply (uncompressed_scan_exact 1 Sample.uncompressedDb
           [Sample.trackA; Sample.trackB]).
  lazy. reflexivity.
Defined.

Lemma compressed_ids_distinct_witness :
  StronglySorted Z.lt (map Track.id [Sample.decodedA; Sample.decodedB]) /\
  NoDup (map Track.id [Sample.decodedA; Sample.decodedB]) /\
  Forall (fun t => 0 <= Track.id t) [Sample.decodedA; Sample.decodedB].
Proof.
  apply (compressed_ids_distinct 0 Sample.inflateStored 1 Sample.compressedDb
           [Sample.decodedA; Sample.decodedB]).
  lazy. reflexivity.
Defined.

Lemma truncated_item_skipped_witness :
  parseTrackFromBuffer 0 SampleMore.shortItem 0 0 = None.
Proof.
  apply (truncated_item_skipped 0 SampleMore.shortItem 0 0).
  - lia.
  - lazy. reflexivity.
Defined.

Lemma dataset_scan_terminates_witness :
  exists tracklist,
    parseDecompressedDatabase 0 400 Sample.inflatedDb = Some tracklist.
Proof.
  apply (dataset_scan_terminates 0 Sample.inflatedDb 400).
  - lazy. reflexivity.
  - lazy. reflexivity.
Defined.

Lemma parse_tracks_titled_witness : Forall titled SampleMore.correlated3.
Proof.
  apply (parse_tracks_titled 0 Sample.inflateStored SampleDevice.fs 1
           (findItunesDbFile (SampleDevice.present SampleDevice.fs)
              SampleDevice.mount)
           (String.append SampleDevice.mount name_PlayCounts)
           SampleMore.correlated3).
  lazy. reflexivity.
Defined.

Lemma recent_tracks_only_error_witness :
  getRecentTracks 0 Sample.inflateStored
    (SampleDevice.only SampleMore.dbPath SampleDevice.db) SampleMore.allPresent
    1 SampleDevice.mount =
  Some (Throw FilesystemError).
Proof.
  apply (proj2 (recent_tracks_only_error 0 Sample.inflateStored
                  (SampleDevice.only SampleMore.dbPath SampleDevice.db)
                  SampleMore.allPresent 1 SampleDevice.mount FilesystemError)).
  split; [reflexivity|]. lazy. reflexivity.
Defined.

Lemma compressed_device_ignores_play_counts_witness :
  parse 0 Sample.inflateStored
    (SampleDevice.only SampleDevice.cdbPath Sample.compressedDb) 1
    (findItunesDbFile
       (SampleDevice.present
          (SampleDevice.only SampleDevice.cdbPath Sample.compressedDb))
       SampleDevice.mount)
    (String.append SampleDevice.mount name_PlayCounts) =
  parseCompressedItunesDb 0 Sample.inflateStored 1 Sample.compressedDb.
Proof.
  apply (compressed_device_ignores_play_counts 0 Sample.inflateStored
           (SampleDevice.only SampleDevice.cdbPath Sample.compressedDb)
           (SampleDevice.present
              (SampleDevice.only SampleDevice.cdbPath Sample.compressedDb)) 1
           SampleDevice.mount (String.append SampleDevice.mount name_PlayCounts)
           Sample.compressedDb); lazy; reflexivity.
Defined.

Lemma no_play_counts_no_history_witness :
  getRecentTracks 0 Sample.inflateStored
    (SampleDevice.only SampleMore.dbPath SampleDevice.db)
    (SampleDevice.present (SampleDevice.only SampleMore.dbPath SampleDevice.db))
    1 SampleDevice.mount =
  Some (Ok []).
Proof.
  apply (no_play_counts_no_history 0 Sample.inflateStored
           (SampleDevice.only SampleMore.dbPath SampleDevice.db)
           (SampleDevice.present
              (SampleDevice.only SampleMore.dbPath SampleDevice.db)) 1
           SampleDevice.mount SampleDevice.db); lazy; reflexivity.
Defined.

Lemma path_text_decides_format_witness :
  parse 0 Sample.inflateStored
    (SampleDevice.only (String.append SampleMore.oddMount name_iTunesDB)
       SampleDevice.db) 1
    (findItunesDbFile
       (SampleDevice.present
          (SampleDevice.only (String.append SampleMore.oddMount name_iTunesDB)
             SampleDevice.db)) SampleMore.oddMount)
    (String.append SampleMore.oddMount name_PlayCounts) =
  parseCompressedItunesDb 0 Sample.inflateStored 1 SampleDevice.db.
Proof.
  apply (path_text_decides_format 0 Sample.inflateStored
           (SampleDevice.only (String.append SampleMore.oddMount name_iTunesDB)
              SampleDevice.db)
           (SampleDevice.present
              (SampleDevice.only (String.append SampleMore.oddMount name_iTunesDB)
                 SampleDevice.db)) 1
           SampleMore.oddMount (String.append SampleMore.oddMount name_PlayCounts)
           SampleDevice.db); lazy; reflexivity.
Defined.


Lemma play_counts_idempotent_witness :
  parsePlayCountsFile 0 SamplePlays.file
    (parsePlayCountsFile 0 SamplePlays.file SamplePlays.tracks) =
  parsePlayCountsFile 0 SamplePlays.file SamplePlays.tracks.
Proof.
  apply (play_counts_idempotent 0 SamplePlays.file SamplePlays.tracks).
  - assert (E1 : pcNumEntries SamplePlays.file = 5) by reflexivity.
    assert (E2 : pcEntryLen SamplePlays.file = 16) by reflexivity.
    assert (E3 : Buffer.len SamplePlays.file = 160) by reflexivity.
    split; [rewrite E3; lia|].
    intros i Hi. rewrite E1 in Hi. rewrite E2, E3. lia.
  - simpl. repeat constructor; simpl; intuition discriminate.
Defined.

Lemma play_counts_last_entry_unused_witness :
  In (SamplePlays.bare 4)
     (parsePlayCountsFile 0 SamplePlays.file SampleMore.tracksPastEnd).
Proof.
  apply (play_counts_last_entry_unused 0 SamplePlays.file SampleMore.tracksPastEnd
           (SamplePlays.bare 4)).
  - assert (E1 : pcNumEntries SamplePlays.file = 5) by reflexivity.
    assert (E2 : pcEntryLen SamplePlays.file = 16) by reflexivity.
    assert (E3 : Buffer.len SamplePlays.file = 160) by reflexivity.
    split; [rewrite E3; lia|].
    intros i Hi. rewrite E1 in Hi. rewrite E2, E3. lia.
  - simpl. repeat constructor; simpl; intuition discriminate.
  - simpl. right. left. reflexivity.
  - lazy. discriminate.
Defined.

Lemma expander_subsecond_length_witness :
  expandTracksByPlayCount ([] ++ SampleMore.brief :: []) =
  expandTracksByPlayCount []
    ++ repeat (Track.setPlays (JNum 1) (JNum 1000) SampleMore.brief) (Z.to_nat 3)
    ++ expandTracksByPlayCount [].
Proof.
  apply (expander_subsecond_length [] SampleMore.brief [] 3 1000 500).
  - reflexivity.
  - lia.
  - reflexivity.
  - reflexivity.
  - lia.
Defined.

Lemma truncated_mhit_reuses_header_size_witness :
  Track.id (parseMhit SampleMore.cutItem 4) = u32At SampleMore.cutItem 4 /\
  Track.length (parseMhit SampleMore.cutItem 4) = JNum (u32At SampleMore.cutItem 4).
Proof.
  apply (truncated_mhit_reuses_header_size SampleMore.cutItem 4).
  - lia.
  - lazy. discriminate.
  - lazy. discriminate.
Defined.

Lemma history_scrobble_batch_witness :
  exists batch,
    (scrobbleTracks SampleMore.postOk [] SampleDevice.history = true <->
     SampleMore.postOk batch [] 0 = Ok true) /\
    Z.of_nat (List.length batch) = totalPlays SampleDevice.history /\
    Forall (fun e => Track.playCount e = JNum 1) batch /\
    Forall stamped batch.
Proof.
  apply (history_scrobble_batch 0 Sample.inflateStored SampleDevice.fs
           (SampleDevice.present SampleDevice.fs) 1
           SampleDevice.mount SampleDevice.history SampleMore.postOk []).
  lazy. reflexivity.
Defined.
